(** * Before/After Reels Tool: the effect library and the animation driver

    A shallow embedding of [BeforeAfterReelsTool.jsx] (the React component
    with the 50 transition effects, the [animate] loop and the play/stop
    handlers), the properties of its specification, and further properties
    of the effects and of the driver.  The other copy of the component in
    the repository has the first five effects, written the same, and the
    same driver.

    Conventions of the embedding.

    - JavaScript numbers are idealised as rationals ([Q]), kept in lowest
      terms by every arithmetic operation, so that equal numbers are equal
      terms.  Rounding, [NaN] and the infinities of IEEE doubles are outside
      the model; statements that divide say what they assume of the divisor.
    - [Math.sin], [Math.cos], [Math.sqrt] and [Math.pow] are
      implementation-approximated in ECMAScript, and [Math.PI] is a number
      near pi: they are the fields of an arbitrary record [MathLib], over
      which the theorems quantify.
    - [Math.random] reads an oracle, a sequence of numbers threaded through
      the drawing monad.
    - The drawing surface is the sequence of 2D-context calls it has
      received: a frame is the list of calls made by one invocation of an
      effect.
    - [Date.now] is an input of the handlers that read the clock. *)

From Stdlib Require Import QArith Qround Qminmax Qreduction Qabs ZArith.
From Stdlib Require Import List Sorted String Bool Lia.
Import ListNotations.

Set Implicit Arguments.

Open Scope Q_scope.

(** ** Numbers *)

Declare Scope js_scope.
Delimit Scope js_scope with js.
Bind Scope js_scope with Q.

Module Num.

Definition add (x y : Q) : Q := Qred (x + y).
Definition sub (x y : Q) : Q := Qred (x - y).
Definition mul (x y : Q) : Q := Qred (x * y).
Definition div (x y : Q) : Q := Qred (x / y).
Definition neg (x : Q) : Q := Qred (- x).

Definition ltb (x y : Q) : bool :=
  match x ?= y with Lt => true | _ => false end.
Definition leb (x y : Q) : bool :=
  match x ?= y with Gt => false | _ => true end.
Definition eqb (x y : Q) : bool :=
  match x ?= y with Eq => true | _ => false end.

(** [Object.is] on numbers: the same number, that is the same fraction. *)
Definition same (x y : Q) : bool :=
  Z.eqb (Qnum x) (Qnum y) && Pos.eqb (Qden x) (Qden y).

(** [x % y]: the remainder of the truncated division, with the sign of
    the dividend. *)
Definition trunc (x : Q) : Z := if ltb x 0 then Qceiling x else Qfloor x.
Definition rem (x y : Q) : Q := sub x (mul y (inject_Z (trunc (div x y)))).

End Num.

Notation "x + y" := (Num.add x y) : js_scope.
Notation "x - y" := (Num.sub x y) : js_scope.
Notation "x * y" := (Num.mul x y) : js_scope.
Notation "x / y" := (Num.div x y) : js_scope.
Notation "- x" := (Num.neg x) : js_scope.
Notation "x <? y" := (Num.ltb x y) (at level 70, no associativity) : js_scope.
Notation "x >? y" := (Num.ltb y x)
  (at level 70, no associativity, only parsing) : js_scope.
Notation "x >=? y" := (Num.leb y x)
  (at level 70, no associativity, only parsing) : js_scope.
Notation "x === y" := (Num.eqb x y) (at level 70, no associativity) : js_scope.
Notation "x 'mod' y" := (Num.rem x y) : js_scope.

(** The part of [Math] whose results are implementation-approximated. *)
Record MathLib : Type := mkMath {
  sin : Q -> Q;
  cos : Q -> Q;
  sqrt : Q -> Q;
  pow : Q -> Q -> Q;
  PI : Q
}.

Definition Math_min (x y : Q) : Q := Qmin x y.
Definition Math_max (x y : Q) : Q := Qmax x y.
Definition Math_abs (x : Q) : Q := Qabs x.
Definition Math_floor (x : Q) : Q := inject_Z (Qfloor x).

(** ** The drawing surface *)

(** A decoded bitmap: [img.width], [img.height] and its pixels. *)
Record Image : Type := mkImage {
  width : Q;
  height : Q;
  pixels : nat
}.

Inductive Color : Type :=
| rgba (r g b a : Q)
| hsla (h s l a : Q).

Inductive GradientShape : Type :=
| Linear (x0 y0 x1 y1 : Q)
| Radial (x0 y0 r0 x1 y1 r1 : Q).

Record Gradient : Type := mkGradient {
  shape : GradientShape;
  stops : list (Q * Color)
}.

Definition createLinearGradient (x0 y0 x1 y1 : Q) : Gradient :=
  mkGradient (Linear x0 y0 x1 y1) [].
Definition createRadialGradient (x0 y0 r0 x1 y1 r1 : Q) : Gradient :=
  mkGradient (Radial x0 y0 r0 x1 y1 r1) [].
Definition addColorStop (offset : Q) (c : Color) (g : Gradient) : Gradient :=
  mkGradient (shape g) (stops g ++ [(offset, c)]).

Inductive Style : Type :=
| css (c : Color)
| grad (g : Gradient).

Inductive Filter : Type :=
| none
| blur (px : Q)
| hue_rotate (deg : Q).

(** What [drawImage] can read from: a bitmap, the temporary canvas of the
    pixelate effect, or the drawing surface itself ([canvasRef.current]). *)
Inductive Source : Type :=
| bitmap (img : Image)
| tempCanvas
| surfaceItself.

(** The calls received by the 2D context of the surface ([set_p v] is the
    assignment [ctx.p = v]).  The last two belong to the temporary canvas
    of the pixelate effect: [temp_create w h] is its creation with that
    size ([document.createElement], [getContext], [width = w],
    [height = h]) and [temp_drawImage5] is [tempCtx.drawImage]. *)
Inductive CanvasOp : Type :=
| clearRect (x y w h : Q)
| save
| restore
| set_globalAlpha (a : Q)
| set_globalCompositeOperation (op : string)
| set_filter (f : Filter)
| set_imageSmoothingEnabled (b : bool)
| set_fillStyle (s : Style)
| set_strokeStyle (s : Style)
| set_lineWidth (w : Q)
| translate (x y : Q)
| scale (x y : Q)
| rotate (angle : Q)
| beginPath
| closePath
| moveTo (x y : Q)
| lineTo (x y : Q)
| quadraticCurveTo (cpx cpy x y : Q)
| rect (x y w h : Q)
| arc (x y r a0 a1 : Q)
| clip
| fill
| stroke
| fillRect (x y w h : Q)
| drawImage5 (src : Source) (dx dy dw dh : Q)
| drawImage9 (src : Source) (sx sy sw sh dx dy dw dh : Q)
| temp_create (w h : Q)
| temp_drawImage5 (src : Source) (dx dy dw dh : Q).

Definition Frame : Type := list CanvasOp.

(** ** The drawing monad

    An effect makes calls on the context, may draw from [Math.random], and
    a call that is handed [null] for a bitmap throws a [TypeError]
    ([result = None]); the calls made before the throw stay made.  The
    other exceptions of the 2D context (a negative radius, a colour stop
    outside [0,1]) are outside the model. *)

Definition Oracle : Type := nat -> Q.

Record Outcome (A : Type) : Type := mkOutcome {
  result : option A;
  calls : Frame;
  oracle : Oracle
}.

Definition Draw (A : Type) : Type := Oracle -> Outcome A.

Definition ret {A} (a : A) : Draw A :=
  fun r => mkOutcome (Some a) [] r.

Definition bind {A B} (m : Draw A) (f : A -> Draw B) : Draw B :=
  fun r =>
    let x := m r in
    match result x with
    | Some a =>
        let y := f a (oracle x) in
        mkOutcome (result y) (calls x ++ calls y) (oracle y)
    | None => mkOutcome None (calls x) (oracle x)
    end.

(** [ctx.op(...)], or [ctx.property = value]. *)
Definition ctx (op : CanvasOp) : Draw unit :=
  fun r => mkOutcome (Some tt) [op] r.

Definition throwTypeError {A} : Draw A :=
  fun r => mkOutcome None [] r.

Definition Math_random : Draw Q :=
  fun r => mkOutcome (Some (r 0%nat)) [] (fun n => r (S n)).

Notation "m ;; k" := (bind m (fun _ => k))
  (at level 61, right associativity).
Notation "x <- m ;; k" := (bind m (fun x => k))
  (at level 61, m at next level, right associativity).

(** [for (let i = init; i < bound; i += step) body]. *)
Fixpoint iterate (n : nat) (i step : Q) (body : Q -> Draw unit) : Draw unit :=
  match n with
  | O => ret tt
  | S n' => body i ;; iterate n' (Num.add i step) step body
  end.

Definition for_ (init bound step : Q) (body : Q -> Draw unit) : Draw unit :=
  iterate (Z.to_nat (Qceiling ((bound - init) / step))) init step body.

Definition when (b : bool) (m : Draw unit) : Draw unit :=
  if b then m else ret tt.

(** [!img] *)
Definition absent (img : option Image) : bool :=
  match img with None => true | Some _ => false end.

(** [ctx.drawImage(img, ...)]: a [TypeError] when [img] is [null]. *)
Definition ctx_drawImage5 (img : option Image) (dx dy dw dh : Q) : Draw unit :=
  match img with
  | Some i => ctx (drawImage5 (bitmap i) dx dy dw dh)
  | None => throwTypeError
  end.

Definition ctx_drawImage9 (img : option Image)
    (sx sy sw sh dx dy dw dh : Q) : Draw unit :=
  match img with
  | Some i => ctx (drawImage9 (bitmap i) sx sy sw sh dx dy dw dh)
  | None => throwTypeError
  end.

Definition CANVAS_WIDTH : Q := 1080.
Definition CANVAS_HEIGHT : Q := 1920.

(** ** The effect library *)

Section Effects.

Variable Math : MathLib.
(** [beforeImageRef.current], [afterImageRef.current] and the [intensity]
    of the render that created the effect functions. *)
Variables beforeImageRef afterImageRef : option Image.
Variable intensity : Q.

Local Open Scope js_scope.

Local Notation "'Math_sin'" := (sin Math) (at level 0).
Local Notation "'Math_cos'" := (cos Math) (at level 0).
Local Notation "'Math_sqrt'" := (sqrt Math) (at level 0).
Local Notation "'Math_pow'" := (pow Math) (at level 0).
Local Notation "'Math_PI'" := (PI Math) (at level 0).

  (** Draw image centered and scaled to fit canvas *)
Definition drawImage (img : option Image) (alpha : Q) : Draw unit :=
    match img with
    | None => ret tt
    | Some i =>
        ctx save ;;
        ctx (set_globalAlpha alpha) ;;
        let scale :=
          Math_max (CANVAS_WIDTH / width i) (CANVAS_HEIGHT / height i) in
        let x := (CANVAS_WIDTH - width i * scale) / 2 in
        let y := (CANVAS_HEIGHT - height i * scale) / 2 in
        ctx_drawImage5 img x y (width i * scale) (height i * scale) ;;
        ctx restore
    end.

  (** Effect: Shock Zoom *)
Definition applyShockZoom (t : Q) : Draw unit :=
    let beforeImg := beforeImageRef in
    let afterImg := afterImageRef in
    if absent beforeImg || absent afterImg then ret tt else
    ctx (clearRect 0 0 CANVAS_WIDTH CANVAS_HEIGHT) ;;
    let zoomPhase := if t <? 0.5 then t * 2 else (1 - t) * 2 in
    let zoom := 1 + zoomPhase * intensity * 0.3 in
    when (t <? 0.8) (
      ctx save ;;
      ctx (translate (CANVAS_WIDTH / 2) (CANVAS_HEIGHT / 2)) ;;
      ctx (scale zoom zoom) ;;
      ctx (translate (- CANVAS_WIDTH / 2) (- CANVAS_HEIGHT / 2)) ;;
      drawImage beforeImg (Math_max 0 (1 - t * 1.5)) ;;
      ctx restore) ;;
    when (t >? 0.2) (
      ctx save ;;
      let afterZoom := 1 + (1 - t) * intensity * 0.5 in
      ctx (translate (CANVAS_WIDTH / 2) (CANVAS_HEIGHT / 2)) ;;
      ctx (scale afterZoom afterZoom) ;;
      ctx (translate (- CANVAS_WIDTH / 2) (- CANVAS_HEIGHT / 2)) ;;
      drawImage afterImg (Math_min 1 ((t - 0.2) * 1.5)) ;;
      ctx restore).

  (** Effect: RGB Glitch *)
Definition applyRGBGlitch (t : Q) : Draw unit :=
    let beforeImg := beforeImageRef in
    let afterImg := afterImageRef in
    if absent beforeImg || absent afterImg then ret tt else
    ctx (clearRect 0 0 CANVAS_WIDTH CANVAS_HEIGHT) ;;
    let showBefore := t <? 0.5 in
    drawImage (if showBefore then beforeImg else afterImg) 1 ;;
    let glitchIntensity := Math_sin (t * Math_PI) * intensity in
    when (glitchIntensity >? 0.1) (
      let offset := glitchIntensity * 20 in
      ctx save ;;
      ctx (set_globalCompositeOperation "screen") ;;
      ctx (set_globalAlpha 0.5) ;;
      ctx (translate (- offset) 0) ;;
      drawImage (if showBefore then afterImg else beforeImg) glitchIntensity ;;
      ctx restore ;;
      ctx save ;;
      ctx (set_globalCompositeOperation "screen") ;;
      ctx (set_globalAlpha 0.5) ;;
      ctx (translate offset 0) ;;
      drawImage (if showBefore then afterImg else beforeImg) glitchIntensity ;;
      ctx restore).

  (** Effect: Film Burn *)
Definition applyFilmBurn (t : Q) : Draw unit :=
    let beforeImg := beforeImageRef in
    let afterImg := afterImageRef in
    if absent beforeImg || absent afterImg then ret tt else
    ctx (clearRect 0 0 CANVAS_WIDTH CANVAS_HEIGHT) ;;
    drawImage beforeImg 1 ;;
    let burnProgress := t in
    let burnRadius :=
      Math_sqrt (Math_pow CANVAS_WIDTH 2 + Math_pow CANVAS_HEIGHT 2)
      * burnProgress in
    let centerX :=
      CANVAS_WIDTH / 2 + Math_sin (intensity * Math_PI) * 50 * intensity in
    let centerY :=
      CANVAS_HEIGHT / 2 + Math_cos (intensity * Math_PI) * 50 * intensity in
    let gradient :=
      createRadialGradient centerX centerY (burnRadius * 0.7)
                           centerX centerY burnRadius in
    let gradient := addColorStop 0 (rgba 255 200 100 0) gradient in
    let gradient :=
      addColorStop 0.5 (rgba 255 150 50 (intensity * 0.3)) gradient in
    let gradient := addColorStop 1 (rgba 255 100 0 0) gradient in
    ctx (set_fillStyle (grad gradient)) ;;
    ctx (fillRect 0 0 CANVAS_WIDTH CANVAS_HEIGHT) ;;
    ctx save ;;
    ctx (set_globalCompositeOperation "destination-out") ;;
    ctx beginPath ;;
    ctx (arc centerX centerY (burnRadius * 0.9) 0 (Math_PI * 2)) ;;
    ctx fill ;;
    ctx restore ;;
    ctx save ;;
    ctx beginPath ;;
    ctx (arc centerX centerY (burnRadius * 0.9) 0 (Math_PI * 2)) ;;
    ctx clip ;;
    drawImage afterImg 1 ;;
    ctx restore ;;
    when (burnProgress <? 0.95) (
      ctx save ;;
      ctx (set_globalAlpha (intensity * 0.3)) ;;
      for_ 0 100 1 (fun i =>
        r1 <- Math_random ;;
        let angle := r1 * Math_PI * 2 in
        r2 <- Math_random ;;
        let dist := burnRadius * (0.85 + r2 * 0.15) in
        let x := centerX + Math_cos angle * dist in
        let y := centerY + Math_sin angle * dist in
        r3 <- Math_random ;;
        let size := r3 * 5 + 2 in
        r4 <- Math_random ;;
        r5 <- Math_random ;;
        ctx (set_fillStyle (css (rgba 255 (100 + r4 * 100) 0 r5))) ;;
        ctx (fillRect x y size size)) ;;
      ctx restore).

  (** Effect: Particle Burst *)
Definition applyParticleBurst (t : Q) : Draw unit :=
    let beforeImg := beforeImageRef in
    let afterImg := afterImageRef in
    if absent beforeImg || absent afterImg then ret tt else
    ctx (clearRect 0 0 CANVAS_WIDTH CANVAS_HEIGHT) ;;
    drawImage beforeImg (Math_max 0 (1 - t)) ;;
    drawImage afterImg (Math_min 1 t) ;;
    let particleCount := Math_floor (200 * intensity) in
    let burstPhase := Math_sin (t * Math_PI) in
    when (burstPhase >? 0.1) (
      ctx save ;;
      for_ 0 particleCount 1 (fun i =>
        let angle :=
          (i / particleCount) * Math_PI * 2 + t * Math_PI * 0.5 in
        let distance := burstPhase * (300 + i * 2) * intensity in
        r <- Math_random ;;
        let size := (1 - burstPhase) * (8 + r * 4) in
        let x := CANVAS_WIDTH / 2 + Math_cos angle * distance in
        let y := CANVAS_HEIGHT / 2 + Math_sin angle * distance in
        let hue := (i / particleCount) * 360 in
        ctx (set_fillStyle (css (hsla hue 80 60 ((1 - burstPhase) * 0.8)))) ;;
        ctx beginPath ;;
        ctx (arc x y size 0 (Math_PI * 2)) ;;
        ctx fill ;;
        let glow := createRadialGradient x y 0 x y (size * 2) in
        let glow :=
          addColorStop 0 (hsla hue 80 70 ((1 - burstPhase) * 0.5)) glow in
        let glow := addColorStop 1 (hsla 0 0 0 0) glow in
        ctx (set_fillStyle (grad glow)) ;;
        ctx beginPath ;;
        ctx (arc x y (size * 2) 0 (Math_PI * 2)) ;;
        ctx fill) ;;
      ctx restore).

  (** Effect: Wipe Reveal *)
Definition applyWipeReveal (t : Q) : Draw unit :=
    let beforeImg := beforeImageRef in
    let afterImg := afterImageRef in
    if absent beforeImg || absent afterImg then ret tt else
    ctx (clearRect 0 0 CANVAS_WIDTH CANVAS_HEIGHT) ;;
    drawImage beforeImg 1 ;;
    let wipeX := t * CANVAS_WIDTH in
    let edgeWidth := 50 * intensity in
    ctx save ;;
    ctx beginPath ;;
    ctx (rect 0 0 wipeX CANVAS_HEIGHT) ;;
    ctx clip ;;
    drawImage afterImg 1 ;;
    ctx restore ;;
    let gradient :=
      createLinearGradient (wipeX - edgeWidth) 0 (wipeX + edgeWidth) 0 in
    let gradient := addColorStop 0 (rgba 255 255 255 0) gradient in
    let gradient :=
      addColorStop 0.5 (rgba 255 255 255 (intensity * 0.8)) gradient in
    let gradient := addColorStop 1 (rgba 255 255 255 0) gradient in
    ctx (set_fillStyle (grad gradient)) ;;
    ctx (fillRect (wipeX - edgeWidth) 0 (edgeWidth * 2) CANVAS_HEIGHT) ;;
    ctx save ;;
    ctx (set_strokeStyle (css (rgba 255 255 255 (intensity * 0.4)))) ;;
    ctx (set_lineWidth 3) ;;
    for_ 0 10 1 (fun i =>
      let offset := i * 30 - 150 in
      ctx beginPath ;;
      ctx (moveTo (wipeX + offset) 0) ;;
      ctx (lineTo (wipeX + offset + 200) CANVAS_HEIGHT) ;;
      ctx stroke) ;;
    ctx restore.

(** Effect 6: Vertical Wipe *)
Definition applyVerticalWipe (t : Q) : Draw unit :=
  let beforeImg := beforeImageRef in
  let afterImg := afterImageRef in
  if absent beforeImg || absent afterImg then ret tt else
  ctx (clearRect 0 0 CANVAS_WIDTH CANVAS_HEIGHT) ;;
  drawImage beforeImg 1 ;;
  let wipeY := t * CANVAS_HEIGHT in
  ctx save ;;
  ctx beginPath ;;
  ctx (rect 0 0 CANVAS_WIDTH wipeY) ;;
  ctx clip ;;
  drawImage afterImg 1 ;;
  ctx restore.

(** Effect 7: Circular Reveal *)
Definition applyCircularReveal (t : Q) : Draw unit :=
  let beforeImg := beforeImageRef in
  let afterImg := afterImageRef in
  if absent beforeImg || absent afterImg then ret tt else
  ctx (clearRect 0 0 CANVAS_WIDTH CANVAS_HEIGHT) ;;
  drawImage beforeImg 1 ;;
  let maxRadius :=
    Math_sqrt (Math_pow CANVAS_WIDTH 2 + Math_pow CANVAS_HEIGHT 2) / 2 in
  let radius := t * maxRadius in
  ctx save ;;
  ctx beginPath ;;
  ctx (arc (CANVAS_WIDTH / 2) (CANVAS_HEIGHT / 2) radius 0 (Math_PI * 2)) ;;
  ctx clip ;;
  drawImage afterImg 1 ;;
  ctx restore.

(** Effect 8: Zoom In *)
Definition applyZoomIn (t : Q) : Draw unit :=
  let beforeImg := beforeImageRef in
  let afterImg := afterImageRef in
  if absent beforeImg || absent afterImg then ret tt else
  ctx (clearRect 0 0 CANVAS_WIDTH CANVAS_HEIGHT) ;;
  let zoom := 1 + t * intensity * 2 in
  ctx save ;;
  ctx (translate (CANVAS_WIDTH / 2) (CANVAS_HEIGHT / 2)) ;;
  ctx (scale zoom zoom) ;;
  ctx (translate (- CANVAS_WIDTH / 2) (- CANVAS_HEIGHT / 2)) ;;
  drawImage beforeImg (1 - t) ;;
  drawImage afterImg t ;;
  ctx restore.

(** Effect 9: Zoom Out *)
Definition applyZoomOut (t : Q) : Draw unit :=
  let beforeImg := beforeImageRef in
  let afterImg := afterImageRef in
  if absent beforeImg || absent afterImg then ret tt else
  ctx (clearRect 0 0 CANVAS_WIDTH CANVAS_HEIGHT) ;;
  let zoom := 2 - t * intensity in
  ctx save ;;
  ctx (translate (CANVAS_WIDTH / 2) (CANVAS_HEIGHT / 2)) ;;
  ctx (scale zoom zoom) ;;
  ctx (translate (- CANVAS_WIDTH / 2) (- CANVAS_HEIGHT / 2)) ;;
  drawImage beforeImg (1 - t) ;;
  drawImage afterImg t ;;
  ctx restore.

(** Effect 10: Slide Left *)
Definition applySlideLeft (t : Q) : Draw unit :=
  let beforeImg := beforeImageRef in
  let afterImg := afterImageRef in
  if absent beforeImg || absent afterImg then ret tt else
  ctx (clearRect 0 0 CANVAS_WIDTH CANVAS_HEIGHT) ;;
  let offset := t * CANVAS_WIDTH in
  ctx save ;;
  ctx (translate (- offset) 0) ;;
  drawImage beforeImg 1 ;;
  ctx restore ;;
  ctx save ;;
  ctx (translate (CANVAS_WIDTH - offset) 0) ;;
  drawImage afterImg 1 ;;
  ctx restore.

(** Effect 11: Slide Right *)
Definition applySlideRight (t : Q) : Draw unit :=
  let beforeImg := beforeImageRef in
  let afterImg := afterImageRef in
  if absent beforeImg || absent afterImg then ret tt else
  ctx (clearRect 0 0 CANVAS_WIDTH CANVAS_HEIGHT) ;;
  let offset := t * CANVAS_WIDTH in
  ctx save ;;
  ctx (translate offset 0) ;;
  drawImage beforeImg 1 ;;
  ctx restore ;;
  ctx save ;;
  ctx (translate (- CANVAS_WIDTH + offset) 0) ;;
  drawImage afterImg 1 ;;
  ctx restore.

(** Effect 12: Slide Up *)
Definition applySlideUp (t : Q) : Draw unit :=
  let beforeImg := beforeImageRef in
  let afterImg := afterImageRef in
  if absent beforeImg || absent afterImg then ret tt else
  ctx (clearRect 0 0 CANVAS_WIDTH CANVAS_HEIGHT) ;;
  let offset := t * CANVAS_HEIGHT in
  ctx save ;;
  ctx (translate 0 (- offset)) ;;
  drawImage beforeImg 1 ;;
  ctx restore ;;
  ctx save ;;
  ctx (translate 0 (CANVAS_HEIGHT - offset)) ;;
  drawImage afterImg 1 ;;
  ctx restore.

(** Effect 13: Slide Down *)
Definition applySlideDown (t : Q) : Draw unit :=
  let beforeImg := beforeImageRef in
  let afterImg := afterImageRef in
  if absent beforeImg || absent afterImg then ret tt else
  ctx (clearRect 0 0 CANVAS_WIDTH CANVAS_HEIGHT) ;;
  let offset := t * CANVAS_HEIGHT in
  ctx save ;;
  ctx (translate 0 offset) ;;
  drawImage beforeImg 1 ;;
  ctx restore ;;
  ctx save ;;
  ctx (translate 0 (- CANVAS_HEIGHT + offset)) ;;
  drawImage afterImg 1 ;;
  ctx restore.

(** Effect 14: Fade Cross *)
Definition applyFadeCross (t : Q) : Draw unit :=
  let beforeImg := beforeImageRef in
  let afterImg := afterImageRef in
  if absent beforeImg || absent afterImg then ret tt else
  ctx (clearRect 0 0 CANVAS_WIDTH CANVAS_HEIGHT) ;;
  drawImage beforeImg (1 - t) ;;
  drawImage afterImg t.

(** Effect 15: Spin Clockwise *)
Definition applySpinClockwise (t : Q) : Draw unit :=
  let beforeImg := beforeImageRef in
  let afterImg := afterImageRef in
  if absent beforeImg || absent afterImg then ret tt else
  ctx (clearRect 0 0 CANVAS_WIDTH CANVAS_HEIGHT) ;;
  ctx save ;;
  ctx (translate (CANVAS_WIDTH / 2) (CANVAS_HEIGHT / 2)) ;;
  ctx (rotate (t * Math_PI * 2 * intensity)) ;;
  ctx (translate (- CANVAS_WIDTH / 2) (- CANVAS_HEIGHT / 2)) ;;
  drawImage beforeImg (1 - t) ;;
  ctx restore ;;
  ctx save ;;
  ctx (translate (CANVAS_WIDTH / 2) (CANVAS_HEIGHT / 2)) ;;
  ctx (rotate ((t - 1) * Math_PI * 2 * intensity)) ;;
  ctx (translate (- CANVAS_WIDTH / 2) (- CANVAS_HEIGHT / 2)) ;;
  drawImage afterImg t ;;
  ctx restore.

(** Effect 16: Spin Counter-Clockwise *)
Definition applySpinCounterClockwise (t : Q) : Draw unit :=
  let beforeImg := beforeImageRef in
  let afterImg := afterImageRef in
  if absent beforeImg || absent afterImg then ret tt else
  ctx (clearRect 0 0 CANVAS_WIDTH CANVAS_HEIGHT) ;;
  ctx save ;;
  ctx (translate (CANVAS_WIDTH / 2) (CANVAS_HEIGHT / 2)) ;;
  ctx (rotate (- t * Math_PI * 2 * intensity)) ;;
  ctx (translate (- CANVAS_WIDTH / 2) (- CANVAS_HEIGHT / 2)) ;;
  drawImage beforeImg (1 - t) ;;
  ctx restore ;;
  ctx save ;;
  ctx (translate (CANVAS_WIDTH / 2) (CANVAS_HEIGHT / 2)) ;;
  ctx (rotate (- (t - 1) * Math_PI * 2 * intensity)) ;;
  ctx (translate (- CANVAS_WIDTH / 2) (- CANVAS_HEIGHT / 2)) ;;
  drawImage afterImg t ;;
  ctx restore.

(** Effect 17: Diagonal Wipe *)
Definition applyDiagonalWipe (t : Q) : Draw unit :=
  let beforeImg := beforeImageRef in
  let afterImg := afterImageRef in
  if absent beforeImg || absent afterImg then ret tt else
  ctx (clearRect 0 0 CANVAS_WIDTH CANVAS_HEIGHT) ;;
  drawImage beforeImg 1 ;;
  ctx save ;;
  ctx beginPath ;;
  ctx (moveTo 0 0) ;;
  ctx (lineTo (t * (CANVAS_WIDTH + CANVAS_HEIGHT)) 0) ;;
  ctx (lineTo 0 (t * (CANVAS_WIDTH + CANVAS_HEIGHT))) ;;
  ctx closePath ;;
  ctx clip ;;
  drawImage afterImg 1 ;;
  ctx restore.

(** Effect 18: Box Expand *)
Definition applyBoxExpand (t : Q) : Draw unit :=
  let beforeImg := beforeImageRef in
  let afterImg := afterImageRef in
  if absent beforeImg || absent afterImg then ret tt else
  ctx (clearRect 0 0 CANVAS_WIDTH CANVAS_HEIGHT) ;;
  drawImage beforeImg 1 ;;
  let width := t * CANVAS_WIDTH in
  let height := t * CANVAS_HEIGHT in
  let x := (CANVAS_WIDTH - width) / 2 in
  let y := (CANVAS_HEIGHT - height) / 2 in
  ctx save ;;
  ctx beginPath ;;
  ctx (rect x y width height) ;;
  ctx clip ;;
  drawImage afterImg 1 ;;
  ctx restore.

(** Effect 19: Pixelate *)
Definition applyPixelate (t : Q) : Draw unit :=
  let beforeImg := beforeImageRef in
  let afterImg := afterImageRef in
  if absent beforeImg || absent afterImg then ret tt else
  ctx (clearRect 0 0 CANVAS_WIDTH CANVAS_HEIGHT) ;;
  let pixelSize :=
    Math_max 1
      (Math_floor ((1 - Math_abs (t * 2 - 1)) * 100 * intensity)) in
  if t <? 0.5 then
    drawImage beforeImg 1 ;;
    when (pixelSize >? 1) (
      ctx (set_imageSmoothingEnabled false) ;;
      let w := Math_floor (CANVAS_WIDTH / pixelSize) in
      let h := Math_floor (CANVAS_HEIGHT / pixelSize) in
      ctx (temp_create w h) ;;
      ctx (temp_drawImage5 surfaceItself 0 0 w h) ;;
      ctx (drawImage9 tempCanvas 0 0 w h 0 0 CANVAS_WIDTH CANVAS_HEIGHT) ;;
      ctx (set_imageSmoothingEnabled true))
  else
    drawImage afterImg 1 ;;
    when (pixelSize >? 1) (
      ctx (set_imageSmoothingEnabled false) ;;
      let w := Math_floor (CANVAS_WIDTH / pixelSize) in
      let h := Math_floor (CANVAS_HEIGHT / pixelSize) in
      ctx (temp_create w h) ;;
      ctx (temp_drawImage5 surfaceItself 0 0 w h) ;;
      ctx (drawImage9 tempCanvas 0 0 w h 0 0 CANVAS_WIDTH CANVAS_HEIGHT) ;;
      ctx (set_imageSmoothingEnabled true)).

(** Effect 20: Blur Transition *)
Definition applyBlurTransition (t : Q) : Draw unit :=
  let beforeImg := beforeImageRef in
  let afterImg := afterImageRef in
  if absent beforeImg || absent afterImg then ret tt else
  ctx (clearRect 0 0 CANVAS_WIDTH CANVAS_HEIGHT) ;;
  let blurAmount := Math_sin (t * Math_PI) * 20 * intensity in
  ctx (set_filter (blur blurAmount)) ;;
  drawImage beforeImg (1 - t) ;;
  drawImage afterImg t ;;
  ctx (set_filter none).

(** Effect 21: Wave Distortion *)
Definition applyWaveDistortion (t : Q) : Draw unit :=
  let beforeImg := beforeImageRef in
  let afterImg := afterImageRef in
  if absent beforeImg || absent afterImg then ret tt else
  ctx (clearRect 0 0 CANVAS_WIDTH CANVAS_HEIGHT) ;;
  let amplitude := 30 * intensity in
  let frequency := 10 in
  for_ 0 CANVAS_HEIGHT 2 (fun y =>
    let offset :=
      Math_sin ((y / CANVAS_HEIGHT) * frequency + t * Math_PI * 2)
      * amplitude in
    ctx save ;;
    ctx beginPath ;;
    ctx (rect 0 y CANVAS_WIDTH 2) ;;
    ctx clip ;;
    ctx (translate offset 0) ;;
    drawImage (if t <? 0.5 then beforeImg else afterImg) 1 ;;
    ctx restore).

(** Effect 22: Ripple *)
Definition applyRipple (t : Q) : Draw unit :=
  let beforeImg := beforeImageRef in
  let afterImg := afterImageRef in
  if absent beforeImg || absent afterImg then ret tt else
  ctx (clearRect 0 0 CANVAS_WIDTH CANVAS_HEIGHT) ;;
  drawImage beforeImg (1 - t) ;;
  drawImage afterImg t ;;
  let centerX := CANVAS_WIDTH / 2 in
  let centerY := CANVAS_HEIGHT / 2 in
  let maxRadius :=
    Math_sqrt (Math_pow CANVAS_WIDTH 2 + Math_pow CANVAS_HEIGHT 2) / 2 in
  let rippleRadius := t * maxRadius in
  for_ 0 5 1 (fun i =>
    let r := rippleRadius - i * 50 in
    when (r >? 0) (
      ctx beginPath ;;
      ctx (arc centerX centerY r 0 (Math_PI * 2)) ;;
      ctx (set_strokeStyle
             (css (rgba 255 255 255 ((1 - i / 5) * intensity * 0.5)))) ;;
      ctx (set_lineWidth 3) ;;
      ctx stroke)).

(** Effect 23: Split Horizontal *)
Definition applySplitHorizontal (t : Q) : Draw unit :=
  let beforeImg := beforeImageRef in
  let afterImg := afterImageRef in
  if absent beforeImg || absent afterImg then ret tt else
  ctx (clearRect 0 0 CANVAS_WIDTH CANVAS_HEIGHT) ;;
  let split := t * CANVAS_HEIGHT / 2 in
  ctx save ;;
  ctx (translate 0 (- split)) ;;
  ctx beginPath ;;
  ctx (rect 0 0 CANVAS_WIDTH (CANVAS_HEIGHT / 2)) ;;
  ctx clip ;;
  drawImage beforeImg 1 ;;
  ctx restore ;;
  ctx save ;;
  ctx (translate 0 split) ;;
  ctx beginPath ;;
  ctx (rect 0 (CANVAS_HEIGHT / 2) CANVAS_WIDTH (CANVAS_HEIGHT / 2)) ;;
  ctx clip ;;
  drawImage beforeImg 1 ;;
  ctx restore ;;
  drawImage afterImg t.

(** Effect 24: Split Vertical *)
Definition applySplitVertical (t : Q) : Draw unit :=
  let beforeImg := beforeImageRef in
  let afterImg := afterImageRef in
  if absent beforeImg || absent afterImg then ret tt else
  ctx (clearRect 0 0 CANVAS_WIDTH CANVAS_HEIGHT) ;;
  let split := t * CANVAS_WIDTH / 2 in
  ctx save ;;
  ctx (translate (- split) 0) ;;
  ctx beginPath ;;
  ctx (rect 0 0 (CANVAS_WIDTH / 2) CANVAS_HEIGHT) ;;
  ctx clip ;;
  drawImage beforeImg 1 ;;
  ctx restore ;;
  ctx save ;;
  ctx (translate split 0) ;;
  ctx beginPath ;;
  ctx (rect (CANVAS_WIDTH / 2) 0 (CANVAS_WIDTH / 2) CANVAS_HEIGHT) ;;
  ctx clip ;;
  drawImage beforeImg 1 ;;
  ctx restore ;;
  drawImage afterImg t.

(** Effect 25: Flip Horizontal *)
Definition applyFlipHorizontal (t : Q) : Draw unit :=
  let beforeImg := beforeImageRef in
  let afterImg := afterImageRef in
  if absent beforeImg || absent afterImg then ret tt else
  ctx (clearRect 0 0 CANVAS_WIDTH CANVAS_HEIGHT) ;;
  ctx save ;;
  ctx (translate (CANVAS_WIDTH / 2) 0) ;;
  ctx (scale (Math_cos (t * Math_PI)) 1) ;;
  ctx (translate (- CANVAS_WIDTH / 2) 0) ;;
  (if t <? 0.5 then drawImage beforeImg 1 else drawImage afterImg 1) ;;
  ctx restore.

(** Effect 26: Flip Vertical *)
Definition applyFlipVertical (t : Q) : Draw unit :=
  let beforeImg := beforeImageRef in
  let afterImg := afterImageRef in
  if absent beforeImg || absent afterImg then ret tt else
  ctx (clearRect 0 0 CANVAS_WIDTH CANVAS_HEIGHT) ;;
  ctx save ;;
  ctx (translate 0 (CANVAS_HEIGHT / 2)) ;;
  ctx (scale 1 (Math_cos (t * Math_PI))) ;;
  ctx (translate 0 (- CANVAS_HEIGHT / 2)) ;;
  (if t <? 0.5 then drawImage beforeImg 1 else drawImage afterImg 1) ;;
  ctx restore.

(** Effect 27: Checkerboard *)
Definition applyCheckerboard (t : Q) : Draw unit :=
  let beforeImg := beforeImageRef in
  let afterImg := afterImageRef in
  if absent beforeImg || absent afterImg then ret tt else
  ctx (clearRect 0 0 CANVAS_WIDTH CANVAS_HEIGHT) ;;
  drawImage beforeImg 1 ;;
  let gridSize := 10 in
  let cellWidth := CANVAS_WIDTH / gridSize in
  let cellHeight := CANVAS_HEIGHT / gridSize in
  for_ 0 gridSize 1 (fun i =>
    for_ 0 gridSize 1 (fun j =>
      when ((i + j) mod 2 === 0) (
        let delay := ((i + j) / (gridSize * 2)) * 0.5 in
        let cellT := Math_max 0 (Math_min 1 ((t - delay) * 2)) in
        when (cellT >? 0) (
          ctx save ;;
          ctx beginPath ;;
          ctx (rect (i * cellWidth) (j * cellHeight) cellWidth cellHeight) ;;
          ctx clip ;;
          drawImage afterImg cellT ;;
          ctx restore)))).

(** Effect 28: Random Blocks *)
Definition applyRandomBlocks (t : Q) : Draw unit :=
  let beforeImg := beforeImageRef in
  let afterImg := afterImageRef in
  if absent beforeImg || absent afterImg then ret tt else
  ctx (clearRect 0 0 CANVAS_WIDTH CANVAS_HEIGHT) ;;
  drawImage beforeImg 1 ;;
  let gridSize := 15 in
  let cellWidth := CANVAS_WIDTH / gridSize in
  let cellHeight := CANVAS_HEIGHT / gridSize in
  for_ 0 gridSize 1 (fun i =>
    for_ 0 gridSize 1 (fun j =>
      let random := (Math_sin (i * 12.9898 + j * 78.233) + 1) / 2 in
      let delay := random * 0.5 in
      let cellT := Math_max 0 (Math_min 1 ((t - delay) * 2)) in
      when (cellT >? 0) (
        ctx save ;;
        ctx beginPath ;;
        ctx (rect (i * cellWidth) (j * cellHeight) cellWidth cellHeight) ;;
        ctx clip ;;
        drawImage afterImg cellT ;;
        ctx restore))).

(** Effect 29: Venetian Blinds *)
Definition applyVenetianBlinds (t : Q) : Draw unit :=
  let beforeImg := beforeImageRef in
  let afterImg := afterImageRef in
  if absent beforeImg || absent afterImg then ret tt else
  ctx (clearRect 0 0 CANVAS_WIDTH CANVAS_HEIGHT) ;;
  drawImage beforeImg 1 ;;
  let blindCount := 20 in
  let blindHeight := CANVAS_HEIGHT / blindCount in
  for_ 0 blindCount 1 (fun i =>
    ctx save ;;
    ctx beginPath ;;
    ctx (rect 0 (i * blindHeight) (CANVAS_WIDTH * t) blindHeight) ;;
    ctx clip ;;
    drawImage afterImg 1 ;;
    ctx restore).

(** Effect 30: Swirl *)
Definition applySwirl (t : Q) : Draw unit :=
  let beforeImg := beforeImageRef in
  let afterImg := afterImageRef in
  if absent beforeImg || absent afterImg then ret tt else
  ctx (clearRect 0 0 CANVAS_WIDTH CANVAS_HEIGHT) ;;
  ctx save ;;
  ctx (translate (CANVAS_WIDTH / 2) (CANVAS_HEIGHT / 2)) ;;
  ctx (rotate (t * Math_PI * 4 * intensity)) ;;
  ctx (scale (1 - t * 0.5) (1 - t * 0.5)) ;;
  ctx (translate (- CANVAS_WIDTH / 2) (- CANVAS_HEIGHT / 2)) ;;
  drawImage beforeImg (1 - t) ;;
  ctx restore ;;
  ctx save ;;
  ctx (translate (CANVAS_WIDTH / 2) (CANVAS_HEIGHT / 2)) ;;
  ctx (rotate ((t - 1) * Math_PI * 4 * intensity)) ;;
  ctx (scale (0.5 + t * 0.5) (0.5 + t * 0.5)) ;;
  ctx (translate (- CANVAS_WIDTH / 2) (- CANVAS_HEIGHT / 2)) ;;
  drawImage afterImg t ;;
  ctx restore.

(** Effect 31: Diamond Reveal *)
Definition applyDiamondReveal (t : Q) : Draw unit :=
  let beforeImg := beforeImageRef in
  let afterImg := afterImageRef in
  if absent beforeImg || absent afterImg then ret tt else
  ctx (clearRect 0 0 CANVAS_WIDTH CANVAS_HEIGHT) ;;
  drawImage beforeImg 1 ;;
  let size := t * (CANVAS_WIDTH + CANVAS_HEIGHT) in
  ctx save ;;
  ctx beginPath ;;
  ctx (moveTo (CANVAS_WIDTH / 2) (CANVAS_HEIGHT / 2 - size / 2)) ;;
  ctx (lineTo (CANVAS_WIDTH / 2 + size / 2) (CANVAS_HEIGHT / 2)) ;;
  ctx (lineTo (CANVAS_WIDTH / 2) (CANVAS_HEIGHT / 2 + size / 2)) ;;
  ctx (lineTo (CANVAS_WIDTH / 2 - size / 2) (CANVAS_HEIGHT / 2)) ;;
  ctx closePath ;;
  ctx clip ;;
  drawImage afterImg 1 ;;
  ctx restore.

(** Effect 32: Bounce In *)
Definition applyBounceIn (t : Q) : Draw unit :=
  let beforeImg := beforeImageRef in
  let afterImg := afterImageRef in
  if absent beforeImg || absent afterImg then ret tt else
  ctx (clearRect 0 0 CANVAS_WIDTH CANVAS_HEIGHT) ;;
  drawImage beforeImg (1 - t) ;;
  let bounce :=
    if t <? 0.5
    then 2 * t * t
    else 1 - Math_pow (- 2 * t + 2) 2 / 2 in
  let scale' := bounce in
  ctx save ;;
  ctx (translate (CANVAS_WIDTH / 2) (CANVAS_HEIGHT / 2)) ;;
  ctx (scale scale' scale') ;;
  ctx (translate (- CANVAS_WIDTH / 2) (- CANVAS_HEIGHT / 2)) ;;
  drawImage afterImg t ;;
  ctx restore.

(** Effect 33: Elastic *)
Definition applyElastic (t : Q) : Draw unit :=
  let beforeImg := beforeImageRef in
  let afterImg := afterImageRef in
  if absent beforeImg || absent afterImg then ret tt else
  ctx (clearRect 0 0 CANVAS_WIDTH CANVAS_HEIGHT) ;;
  let elastic :=
    if t === 0 then 0 else if t === 1 then 1 else
    Math_pow 2 (- 10 * t)
    * Math_sin ((t * 10 - 0.75) * (2 * Math_PI) / 3) + 1 in
  drawImage beforeImg (1 - elastic) ;;
  drawImage afterImg elastic.

(** Effect 34: Page Curl *)
Definition applyPageCurl (t : Q) : Draw unit :=
  let beforeImg := beforeImageRef in
  let afterImg := afterImageRef in
  if absent beforeImg || absent afterImg then ret tt else
  ctx (clearRect 0 0 CANVAS_WIDTH CANVAS_HEIGHT) ;;
  drawImage afterImg 1 ;;
  let curlWidth := (1 - t) * CANVAS_WIDTH in
  let curlAmount := intensity * 200 in
  ctx save ;;
  ctx beginPath ;;
  ctx (moveTo (CANVAS_WIDTH - curlWidth) 0) ;;
  ctx (quadraticCurveTo
         (CANVAS_WIDTH - curlWidth / 2) curlAmount
         CANVAS_WIDTH 0) ;;
  ctx (lineTo CANVAS_WIDTH CANVAS_HEIGHT) ;;
  ctx (quadraticCurveTo
         (CANVAS_WIDTH - curlWidth / 2) (CANVAS_HEIGHT - curlAmount)
         (CANVAS_WIDTH - curlWidth) CANVAS_HEIGHT) ;;
  ctx closePath ;;
  ctx clip ;;
  drawImage beforeImg 1 ;;
  ctx restore.

(** Effect 35: Kaleidoscope *)
Definition applyKaleidoscope (t : Q) : Draw unit :=
  let beforeImg := beforeImageRef in
  let afterImg := afterImageRef in
  if absent beforeImg || absent afterImg then ret tt else
  ctx (clearRect 0 0 CANVAS_WIDTH CANVAS_HEIGHT) ;;
  let segments := 8 in
  for_ 0 segments 1 (fun i =>
    ctx save ;;
    ctx (translate (CANVAS_WIDTH / 2) (CANVAS_HEIGHT / 2)) ;;
    ctx (rotate ((i * Math_PI * 2) / segments + t * Math_PI * 2)) ;;
    ctx (scale t t) ;;
    ctx (translate (- CANVAS_WIDTH / 2) (- CANVAS_HEIGHT / 2)) ;;
    drawImage (if t <? 0.5 then beforeImg else afterImg) (1 / segments) ;;
    ctx restore).

(** Effect 36: Color Shift *)
Definition applyColorShift (t : Q) : Draw unit :=
  let beforeImg := beforeImageRef in
  let afterImg := afterImageRef in
  if absent beforeImg || absent afterImg then ret tt else
  ctx (clearRect 0 0 CANVAS_WIDTH CANVAS_HEIGHT) ;;
  let hueRotate := t * 180 * intensity in
  ctx (set_filter (hue_rotate hueRotate)) ;;
  drawImage beforeImg (1 - t) ;;
  ctx (set_filter none) ;;
  drawImage afterImg t.

(** Effect 37: Gradient Wipe *)
Definition applyGradientWipe (t : Q) : Draw unit :=
  let beforeImg := beforeImageRef in
  let afterImg := afterImageRef in
  if absent beforeImg || absent afterImg then ret tt else
  ctx (clearRect 0 0 CANVAS_WIDTH CANVAS_HEIGHT) ;;
  drawImage beforeImg 1 ;;
  let gradient := createLinearGradient 0 0 CANVAS_WIDTH CANVAS_HEIGHT in
  let progress := t * 2 in
  let gradient :=
    addColorStop (Math_max 0 (progress - 1)) (rgba 0 0 0 1) gradient in
  let gradient :=
    addColorStop (Math_min 1 progress) (rgba 0 0 0 0) gradient in
  ctx save ;;
  ctx (set_globalCompositeOperation "destination-out") ;;
  ctx (set_fillStyle (grad gradient)) ;;
  ctx (fillRect 0 0 CANVAS_WIDTH CANVAS_HEIGHT) ;;
  ctx restore ;;
  ctx (set_globalCompositeOperation "destination-over") ;;
  drawImage afterImg 1 ;;
  ctx (set_globalCompositeOperation "source-over").

(** Effect 38: Zoom Blur *)
Definition applyZoomBlur (t : Q) : Draw unit :=
  let beforeImg := beforeImageRef in
  let afterImg := afterImageRef in
  if absent beforeImg || absent afterImg then ret tt else
  ctx (clearRect 0 0 CANVAS_WIDTH CANVAS_HEIGHT) ;;
  let steps := 10 in
  let maxScale := 1 + intensity * 0.5 in
  for_ 0 steps 1 (fun i =>
    let stepT := i / steps in
    let alpha := (1 - stepT) * 0.1 in
    let scale' := 1 + stepT * (maxScale - 1) * Math_sin (t * Math_PI) in
    ctx save ;;
    ctx (set_globalAlpha alpha) ;;
    ctx (translate (CANVAS_WIDTH / 2) (CANVAS_HEIGHT / 2)) ;;
    ctx (scale scale' scale') ;;
    ctx (translate (- CANVAS_WIDTH / 2) (- CANVAS_HEIGHT / 2)) ;;
    drawImage (if t <? 0.5 then beforeImg else afterImg) 1 ;;
    ctx restore) ;;
  drawImage (if t <? 0.5 then beforeImg else afterImg) 1.

(** Effect 39: Shatter *)
Definition applyShatter (t : Q) : Draw unit :=
  let beforeImg := beforeImageRef in
  let afterImg := afterImageRef in
  if absent beforeImg || absent afterImg then ret tt else
  ctx (clearRect 0 0 CANVAS_WIDTH CANVAS_HEIGHT) ;;
  drawImage afterImg 1 ;;
  let pieces := 20 in
  for_ 0 pieces 1 (fun i =>
    let x := (i mod 5) * (CANVAS_WIDTH / 5) in
    let y := Math_floor (i / 5) * (CANVAS_HEIGHT / 4) in
    let w := CANVAS_WIDTH / 5 in
    let h := CANVAS_HEIGHT / 4 in
    let seedX := Math_sin (i * 12.9898) * 0.5 in
    let seedY := Math_sin (i * 78.233) * 0.5 in
    let seedRot := Math_sin (i * 43758.5453) * 0.5 in
    let offsetX := seedX * 200 * t * intensity in
    let offsetY := seedY * 200 * t * intensity in
    let rotation := seedRot * Math_PI * t in
    ctx save ;;
    ctx (translate (x + w / 2 + offsetX) (y + h / 2 + offsetY)) ;;
    ctx (rotate rotation) ;;
    ctx (set_globalAlpha (1 - t)) ;;
    ctx_drawImage9 beforeImg x y w h (- w / 2) (- h / 2) w h ;;
    ctx restore).

(** Effect 40: Radial Wipe *)
Definition applyRadialWipe (t : Q) : Draw unit :=
  let beforeImg := beforeImageRef in
  let afterImg := afterImageRef in
  if absent beforeImg || absent afterImg then ret tt else
  ctx (clearRect 0 0 CANVAS_WIDTH CANVAS_HEIGHT) ;;
  drawImage beforeImg 1 ;;
  let angle := t * Math_PI * 2 in
  ctx save ;;
  ctx beginPath ;;
  ctx (moveTo (CANVAS_WIDTH / 2) (CANVAS_HEIGHT / 2)) ;;
  ctx (arc (CANVAS_WIDTH / 2) (CANVAS_HEIGHT / 2)
           (Math_max CANVAS_WIDTH CANVAS_HEIGHT)
           (- Math_PI / 2) (- Math_PI / 2 + angle)) ;;
  ctx closePath ;;
  ctx clip ;;
  drawImage afterImg 1 ;;
  ctx restore.

(** Effect 41: Door Swing *)
Definition applyDoorSwing (t : Q) : Draw unit :=
  let beforeImg := beforeImageRef in
  let afterImg := afterImageRef in
  if absent beforeImg || absent afterImg then ret tt else
  ctx (clearRect 0 0 CANVAS_WIDTH CANVAS_HEIGHT) ;;
  drawImage afterImg 1 ;;
  ctx save ;;
  ctx (translate 0 (CANVAS_HEIGHT / 2)) ;;
  ctx (scale (Math_cos (t * Math_PI / 2)) 1) ;;
  ctx (translate 0 (- CANVAS_HEIGHT / 2)) ;;
  when (t <? 1) (drawImage beforeImg 1) ;;
  ctx restore.

(** Effect 42: Twist *)
Definition applyTwist (t : Q) : Draw unit :=
  let beforeImg := beforeImageRef in
  let afterImg := afterImageRef in
  if absent beforeImg || absent afterImg then ret tt else
  ctx (clearRect 0 0 CANVAS_WIDTH CANVAS_HEIGHT) ;;
  let slices := 50 in
  let sliceHeight := CANVAS_HEIGHT / slices in
  for_ 0 slices 1 (fun i =>
    let y := i * sliceHeight in
    let rotation := (i / slices - 0.5) * t * Math_PI * intensity in
    ctx save ;;
    ctx (translate (CANVAS_WIDTH / 2) (y + sliceHeight / 2)) ;;
    ctx (rotate rotation) ;;
    ctx (translate (- CANVAS_WIDTH / 2) (- (y + sliceHeight / 2))) ;;
    ctx beginPath ;;
    ctx (rect 0 y CANVAS_WIDTH sliceHeight) ;;
    ctx clip ;;
    drawImage (if t <? 0.5 then beforeImg else afterImg) 1 ;;
    ctx restore).

(** Effect 43: Fold *)
Definition applyFold (t : Q) : Draw unit :=
  let beforeImg := beforeImageRef in
  let afterImg := afterImageRef in
  if absent beforeImg || absent afterImg then ret tt else
  ctx (clearRect 0 0 CANVAS_WIDTH CANVAS_HEIGHT) ;;
  let foldT := if t <? 0.5 then t * 2 else 1 in
  let unfoldT := if t >=? 0.5 then (t - 0.5) * 2 else 0 in
  ctx save ;;
  ctx (translate (CANVAS_WIDTH / 2) 0) ;;
  ctx (scale (1 - foldT) 1) ;;
  ctx (translate (- CANVAS_WIDTH / 2) 0) ;;
  drawImage beforeImg 1 ;;
  ctx restore ;;
  when (unfoldT >? 0) (
    ctx save ;;
    ctx (translate (CANVAS_WIDTH / 2) 0) ;;
    ctx (scale unfoldT 1) ;;
    ctx (translate (- CANVAS_WIDTH / 2) 0) ;;
    drawImage afterImg 1 ;;
    ctx restore).

(** Effect 44: Star Burst *)
Definition applyStarBurst (t : Q) : Draw unit :=
  let beforeImg := beforeImageRef in
  let afterImg := afterImageRef in
  if absent beforeImg || absent afterImg then ret tt else
  ctx (clearRect 0 0 CANVAS_WIDTH CANVAS_HEIGHT) ;;
  drawImage beforeImg (1 - t) ;;
  let points := 12 in
  let innerRadius := t * CANVAS_WIDTH * 0.3 in
  let outerRadius := t * CANVAS_WIDTH * 0.6 in
  ctx save ;;
  ctx (translate (CANVAS_WIDTH / 2) (CANVAS_HEIGHT / 2)) ;;
  for_ 0 (points * 2) 1 (fun i =>
    let angle := (i * Math_PI) / points in
    let radius := if i mod 2 === 0 then outerRadius else innerRadius in
    let x := Math_cos angle * radius in
    let y := Math_sin angle * radius in
    ctx (set_fillStyle (css (hsla ((i / points) * 360) 80 60 (t * 0.7)))) ;;
    ctx beginPath ;;
    ctx (arc x y 20 0 (Math_PI * 2)) ;;
    ctx fill) ;;
  ctx restore ;;
  drawImage afterImg t.

(** Effect 45: Liquid *)
Definition applyLiquid (t : Q) : Draw unit :=
  let beforeImg := beforeImageRef in
  let afterImg := afterImageRef in
  if absent beforeImg || absent afterImg then ret tt else
  ctx (clearRect 0 0 CANVAS_WIDTH CANVAS_HEIGHT) ;;
  let rows := 20 in
  let rowHeight := CANVAS_HEIGHT / rows in
  for_ 0 rows 1 (fun i =>
    let y := i * rowHeight in
    let offset := Math_sin (t * Math_PI * 2 + i * 0.5) * 50 * intensity in
    ctx save ;;
    ctx beginPath ;;
    ctx (rect 0 y CANVAS_WIDTH rowHeight) ;;
    ctx clip ;;
    ctx (translate offset 0) ;;
    drawImage (if t <? 0.5 then beforeImg else afterImg) 1 ;;
    ctx restore).

(** Effect 46: Cube Rotate *)
Definition applyCubeRotate (t : Q) : Draw unit :=
  let beforeImg := beforeImageRef in
  let afterImg := afterImageRef in
  if absent beforeImg || absent afterImg then ret tt else
  ctx (clearRect 0 0 CANVAS_WIDTH CANVAS_HEIGHT) ;;
  let angle := t * Math_PI in
  let scale' := Math_abs (Math_cos angle) in
  ctx save ;;
  ctx (translate (CANVAS_WIDTH / 2) (CANVAS_HEIGHT / 2)) ;;
  ctx (scale scale' 1) ;;
  ctx (translate (- CANVAS_WIDTH / 2) (- CANVAS_HEIGHT / 2)) ;;
  (if Math_cos angle >? 0
   then drawImage beforeImg 1
   else drawImage afterImg 1) ;;
  ctx restore.

(** Effect 47: Morph *)
Definition applyMorph (t : Q) : Draw unit :=
  let beforeImg := beforeImageRef in
  let afterImg := afterImageRef in
  if absent beforeImg || absent afterImg then ret tt else
  ctx (clearRect 0 0 CANVAS_WIDTH CANVAS_HEIGHT) ;;
  let morphAmount := Math_sin (t * Math_PI) * intensity * 50 in
  ctx save ;;
  ctx (translate (CANVAS_WIDTH / 2) (CANVAS_HEIGHT / 2)) ;;
  ctx (scale (1 + morphAmount / CANVAS_WIDTH)
             (1 + morphAmount / CANVAS_HEIGHT)) ;;
  ctx (translate (- CANVAS_WIDTH / 2) (- CANVAS_HEIGHT / 2)) ;;
  drawImage beforeImg (1 - t) ;;
  ctx restore ;;
  ctx save ;;
  ctx (translate (CANVAS_WIDTH / 2) (CANVAS_HEIGHT / 2)) ;;
  ctx (scale (1 - morphAmount / CANVAS_WIDTH)
             (1 - morphAmount / CANVAS_HEIGHT)) ;;
  ctx (translate (- CANVAS_WIDTH / 2) (- CANVAS_HEIGHT / 2)) ;;
  drawImage afterImg t ;;
  ctx restore.

(** Effect 48: Grid Flip *)
Definition applyGridFlip (t : Q) : Draw unit :=
  let beforeImg := beforeImageRef in
  let afterImg := afterImageRef in
  if absent beforeImg || absent afterImg then ret tt else
  ctx (clearRect 0 0 CANVAS_WIDTH CANVAS_HEIGHT) ;;
  let gridSize := 5 in
  let cellWidth := CANVAS_WIDTH / gridSize in
  let cellHeight := CANVAS_HEIGHT / gridSize in
  for_ 0 gridSize 1 (fun i =>
    for_ 0 gridSize 1 (fun j =>
      let cellT :=
        Math_max 0
          (Math_min 1 ((t - (i + j) / (gridSize * 2) * 0.5) * 2)) in
      let angle := cellT * Math_PI in
      ctx save ;;
      ctx (translate (i * cellWidth + cellWidth / 2)
                     (j * cellHeight + cellHeight / 2)) ;;
      ctx (scale (Math_cos angle) 1) ;;
      ctx (translate (- (i * cellWidth + cellWidth / 2))
                     (- (j * cellHeight + cellHeight / 2))) ;;
      ctx beginPath ;;
      ctx (rect (i * cellWidth) (j * cellHeight) cellWidth cellHeight) ;;
      ctx clip ;;
      (if Math_cos angle >? 0
       then drawImage beforeImg 1
       else drawImage afterImg 1) ;;
      ctx restore)).

(** Effect 49: Spotlight *)
Definition applySpotlight (t : Q) : Draw unit :=
  let beforeImg := beforeImageRef in
  let afterImg := afterImageRef in
  if absent beforeImg || absent afterImg then ret tt else
  ctx (clearRect 0 0 CANVAS_WIDTH CANVAS_HEIGHT) ;;
  drawImage beforeImg 1 ;;
  let radius :=
    t * Math_sqrt (Math_pow CANVAS_WIDTH 2 + Math_pow CANVAS_HEIGHT 2) / 2 in
  let x := CANVAS_WIDTH / 2 in
  let y := CANVAS_HEIGHT / 2 in
  ctx save ;;
  ctx beginPath ;;
  ctx (arc x y radius 0 (Math_PI * 2)) ;;
  ctx clip ;;
  drawImage afterImg 1 ;;
  let gradient := createRadialGradient x y (radius * 0.7) x y radius in
  let gradient := addColorStop 0 (rgba 255 255 255 0) gradient in
  let gradient :=
    addColorStop 1 (rgba 255 255 255 (intensity * 0.3)) gradient in
  ctx (set_fillStyle (grad gradient)) ;;
  ctx (fillRect 0 0 CANVAS_WIDTH CANVAS_HEIGHT) ;;
  ctx restore.

(** Effect 50: Vortex *)
Definition applyVortex (t : Q) : Draw unit :=
  let beforeImg := beforeImageRef in
  let afterImg := afterImageRef in
  if absent beforeImg || absent afterImg then ret tt else
  ctx (clearRect 0 0 CANVAS_WIDTH CANVAS_HEIGHT) ;;
  let segments := 30 in
  for_ 0 segments 1 (fun i =>
    let segmentT := i / segments in
    let rotation := t * Math_PI * 6 * intensity * (1 - segmentT) in
    let scale' := 1 - t * segmentT in
    ctx save ;;
    ctx (set_globalAlpha ((1 - segmentT) * 0.3)) ;;
    ctx (translate (CANVAS_WIDTH / 2) (CANVAS_HEIGHT / 2)) ;;
    ctx (rotate rotation) ;;
    ctx (scale scale' scale') ;;
    ctx (translate (- CANVAS_WIDTH / 2) (- CANVAS_HEIGHT / 2)) ;;
    drawImage beforeImg 1 ;;
    ctx restore) ;;
  drawImage afterImg t.

Local Open Scope string_scope.

(** Get the current effect function *)
Definition getEffectFunction (selectedEffect : string) : Q -> Draw unit :=
  if selectedEffect =? "shockZoom" then applyShockZoom else
  if selectedEffect =? "rgbGlitch" then applyRGBGlitch else
  if selectedEffect =? "filmBurn" then applyFilmBurn else
  if selectedEffect =? "particleBurst" then applyParticleBurst else
  if selectedEffect =? "wipeReveal" then applyWipeReveal else
  if selectedEffect =? "verticalWipe" then applyVerticalWipe else
  if selectedEffect =? "circularReveal" then applyCircularReveal else
  if selectedEffect =? "zoomIn" then applyZoomIn else
  if selectedEffect =? "zoomOut" then applyZoomOut else
  if selectedEffect =? "slideLeft" then applySlideLeft else
  if selectedEffect =? "slideRight" then applySlideRight else
  if selectedEffect =? "slideUp" then applySlideUp else
  if selectedEffect =? "slideDown" then applySlideDown else
  if selectedEffect =? "fadeCross" then applyFadeCross else
  if selectedEffect =? "spinClockwise" then applySpinClockwise else
  if selectedEffect =? "spinCounterClockwise"
  then applySpinCounterClockwise else
  if selectedEffect =? "diagonalWipe" then applyDiagonalWipe else
  if selectedEffect =? "boxExpand" then applyBoxExpand else
  if selectedEffect =? "pixelate" then applyPixelate else
  if selectedEffect =? "blurTransition" then applyBlurTransition else
  if selectedEffect =? "waveDistortion" then applyWaveDistortion else
  if selectedEffect =? "ripple" then applyRipple else
  if selectedEffect =? "splitHorizontal" then applySplitHorizontal else
  if selectedEffect =? "splitVertical" then applySplitVertical else
  if selectedEffect =? "flipHorizontal" then applyFlipHorizontal else
  if selectedEffect =? "flipVertical" then applyFlipVertical else
  if selectedEffect =? "checkerboard" then applyCheckerboard else
  if selectedEffect =? "randomBlocks" then applyRandomBlocks else
  if selectedEffect =? "venetianBlinds" then applyVenetianBlinds else
  if selectedEffect =? "swirl" then applySwirl else
  if selectedEffect =? "diamondReveal" then applyDiamondReveal else
  if selectedEffect =? "bounceIn" then applyBounceIn else
  if selectedEffect =? "elastic" then applyElastic else
  if selectedEffect =? "pageCurl" then applyPageCurl else
  if selectedEffect =? "kaleidoscope" then applyKaleidoscope else
  if selectedEffect =? "colorShift" then applyColorShift else
  if selectedEffect =? "gradientWipe" then applyGradientWipe else
  if selectedEffect =? "zoomBlur" then applyZoomBlur else
  if selectedEffect =? "shatter" then applyShatter else
  if selectedEffect =? "radialWipe" then applyRadialWipe else
  if selectedEffect =? "doorSwing" then applyDoorSwing else
  if selectedEffect =? "twist" then applyTwist else
  if selectedEffect =? "fold" then applyFold else
  if selectedEffect =? "starBurst" then applyStarBurst else
  if selectedEffect =? "liquid" then applyLiquid else
  if selectedEffect =? "cubeRotate" then applyCubeRotate else
  if selectedEffect =? "morph" then applyMorph else
  if selectedEffect =? "gridFlip" then applyGridFlip else
  if selectedEffect =? "spotlight" then applySpotlight else
  if selectedEffect =? "vortex" then applyVortex else
  applyShockZoom.

(** The library: every effect function, under the identifier that selects
    it. *)
Definition effectLibrary : list (string * (Q -> Draw unit)) :=
  [ ("shockZoom", applyShockZoom);
    ("rgbGlitch", applyRGBGlitch);
    ("filmBurn", applyFilmBurn);
    ("particleBurst", applyParticleBurst);
    ("wipeReveal", applyWipeReveal);
    ("verticalWipe", applyVerticalWipe);
    ("circularReveal", applyCircularReveal);
    ("zoomIn", applyZoomIn);
    ("zoomOut", applyZoomOut);
    ("slideLeft", applySlideLeft);
    ("slideRight", applySlideRight);
    ("slideUp", applySlideUp);
    ("slideDown", applySlideDown);
    ("fadeCross", applyFadeCross);
    ("spinClockwise", applySpinClockwise);
    ("spinCounterClockwise", applySpinCounterClockwise);
    ("diagonalWipe", applyDiagonalWipe);
    ("boxExpand", applyBoxExpand);
    ("pixelate", applyPixelate);
    ("blurTransition", applyBlurTransition);
    ("waveDistortion", applyWaveDistortion);
    ("ripple", applyRipple);
    ("splitHorizontal", applySplitHorizontal);
    ("splitVertical", applySplitVertical);
    ("flipHorizontal", applyFlipHorizontal);
    ("flipVertical", applyFlipVertical);
    ("checkerboard", applyCheckerboard);
    ("randomBlocks", applyRandomBlocks);
    ("venetianBlinds", applyVenetianBlinds);
    ("swirl", applySwirl);
    ("diamondReveal", applyDiamondReveal);
    ("bounceIn", applyBounceIn);
    ("elastic", applyElastic);
    ("pageCurl", applyPageCurl);
    ("kaleidoscope", applyKaleidoscope);
    ("colorShift", applyColorShift);
    ("gradientWipe", applyGradientWipe);
    ("zoomBlur", applyZoomBlur);
    ("shatter", applyShatter);
    ("radialWipe", applyRadialWipe);
    ("doorSwing", applyDoorSwing);
    ("twist", applyTwist);
    ("fold", applyFold);
    ("starBurst", applyStarBurst);
    ("liquid", applyLiquid);
    ("cubeRotate", applyCubeRotate);
    ("morph", applyMorph);
    ("gridFlip", applyGridFlip);
    ("spotlight", applySpotlight);
    ("vortex", applyVortex) ].

End Effects.

(** ** The component

    [animate] is created by [useCallback]: a render whose dependencies
    [duration, selectedEffect, intensity] differ from those of the stored
    callback stores a new one, which closes over the values of that render:
    [duration], [getEffectFunction] (hence [selectedEffect]) and the effect
    functions (hence [intensity]).  A callback is represented by the values
    it closes over. *)
Record Closure : Type := mkClosure {
  closed_duration : Q;
  closed_selectedEffect : string;
  closed_intensity : Q
}.

(** [() => animate(startTime)], as handed to [requestAnimationFrame]: the
    [animate] it calls is the one of the scope it was created in. *)
Record FrameRequestCallback : Type := mkCallback {
  callback_animate : Closure;
  callback_startTime : Z
}.

(** The state of a mounted component: its [useState] cells, its [useRef]
    cells ([canvasRef.current] holds the canvas, that is the calls its
    context has received), the callback stored by [useCallback], and what
    the component reaches in the browser: the list of animation frame
    callbacks with their handles, the next handle, the notices shown by
    [alert], and the oracle of [Math.random]. *)
Record Component : Type := mkComponent {
  beforeImage : option Image;
  afterImage : option Image;
  selectedEffect : string;
  isPlaying : bool;
  duration : Q;
  intensity : Q;
  progress : Q;
  canvasRef : option Frame;
  beforeImageRef : option Image;
  afterImageRef : option Image;
  animationFrameRef : option positive;
  animateCallback : Closure;
  callbacks : list (positive * FrameRequestCallback);
  nextHandle : positive;
  alerts : list string;
  random : Oracle
}.

Definition setBeforeImage (v : option Image) (s : Component) : Component :=
  mkComponent v (afterImage s) (selectedEffect s) (isPlaying s) (duration s)
    (intensity s) (progress s) (canvasRef s) (beforeImageRef s)
    (afterImageRef s) (animationFrameRef s) (animateCallback s)
    (callbacks s) (nextHandle s) (alerts s) (random s).

Definition setAfterImage (v : option Image) (s : Component) : Component :=
  mkComponent (beforeImage s) v (selectedEffect s) (isPlaying s)
    (duration s) (intensity s) (progress s) (canvasRef s) (beforeImageRef s)
    (afterImageRef s) (animationFrameRef s) (animateCallback s)
    (callbacks s) (nextHandle s) (alerts s) (random s).

Definition setSelectedEffect (v : string) (s : Component) : Component :=
  mkComponent (beforeImage s) (afterImage s) v (isPlaying s) (duration s)
    (intensity s) (progress s) (canvasRef s) (beforeImageRef s)
    (afterImageRef s) (animationFrameRef s) (animateCallback s)
    (callbacks s) (nextHandle s) (alerts s) (random s).

Definition setIsPlaying (v : bool) (s : Component) : Component :=
  mkComponent (beforeImage s) (afterImage s) (selectedEffect s) v
    (duration s) (intensity s) (progress s) (canvasRef s) (beforeImageRef s)
    (afterImageRef s) (animationFrameRef s) (animateCallback s)
    (callbacks s) (nextHandle s) (alerts s) (random s).

Definition setDuration (v : Q) (s : Component) : Component :=
  mkComponent (beforeImage s) (afterImage s) (selectedEffect s)
    (isPlaying s) v (intensity s) (progress s) (canvasRef s)
    (beforeImageRef s) (afterImageRef s) (animationFrameRef s)
    (animateCallback s) (callbacks s) (nextHandle s) (alerts s) (random s).

Definition setIntensity (v : Q) (s : Component) : Component :=
  mkComponent (beforeImage s) (afterImage s) (selectedEffect s)
    (isPlaying s) (duration s) v (progress s) (canvasRef s)
    (beforeImageRef s) (afterImageRef s) (animationFrameRef s)
    (animateCallback s) (callbacks s) (nextHandle s) (alerts s) (random s).

Definition setProgress (v : Q) (s : Component) : Component :=
  mkComponent (beforeImage s) (afterImage s) (selectedEffect s)
    (isPlaying s) (duration s) (intensity s) v (canvasRef s)
    (beforeImageRef s) (afterImageRef s) (animationFrameRef s)
    (animateCallback s) (callbacks s) (nextHandle s) (alerts s) (random s).

Definition set_canvasRef (v : option Frame) (s : Component) : Component :=
  mkComponent (beforeImage s) (afterImage s) (selectedEffect s)
    (isPlaying s) (duration s) (intensity s) (progress s) v
    (beforeImageRef s) (afterImageRef s) (animationFrameRef s)
    (animateCallback s) (callbacks s) (nextHandle s) (alerts s) (random s).

Definition set_beforeImageRef (v : option Image) (s : Component) : Component :=
  mkComponent (beforeImage s) (afterImage s) (selectedEffect s)
    (isPlaying s) (duration s) (intensity s) (progress s) (canvasRef s) v
    (afterImageRef s) (animationFrameRef s) (animateCallback s)
    (callbacks s) (nextHandle s) (alerts s) (random s).

Definition set_afterImageRef (v : option Image) (s : Component) : Component :=
  mkComponent (beforeImage s) (afterImage s) (selectedEffect s)
    (isPlaying s) (duration s) (intensity s) (progress s) (canvasRef s)
    (beforeImageRef s) v (animationFrameRef s) (animateCallback s)
    (callbacks s) (nextHandle s) (alerts s) (random s).

Definition set_animationFrameRef (v : option positive) (s : Component) : Component :=
  mkComponent (beforeImage s) (afterImage s) (selectedEffect s)
    (isPlaying s) (duration s) (intensity s) (progress s) (canvasRef s)
    (beforeImageRef s) (afterImageRef s) v (animateCallback s) (callbacks s)
    (nextHandle s) (alerts s) (random s).

Definition set_animateCallback (v : Closure) (s : Component) : Component :=
  mkComponent (beforeImage s) (afterImage s) (selectedEffect s)
    (isPlaying s) (duration s) (intensity s) (progress s) (canvasRef s)
    (beforeImageRef s) (afterImageRef s) (animationFrameRef s) v
    (callbacks s) (nextHandle s) (alerts s) (random s).

Definition set_callbacks (v : list (positive * FrameRequestCallback)) (s : Component) : Component :=
  mkComponent (beforeImage s) (afterImage s) (selectedEffect s)
    (isPlaying s) (duration s) (intensity s) (progress s) (canvasRef s)
    (beforeImageRef s) (afterImageRef s) (animationFrameRef s)
    (animateCallback s) v (nextHandle s) (alerts s) (random s).

Definition set_nextHandle (v : positive) (s : Component) : Component :=
  mkComponent (beforeImage s) (afterImage s) (selectedEffect s)
    (isPlaying s) (duration s) (intensity s) (progress s) (canvasRef s)
    (beforeImageRef s) (afterImageRef s) (animationFrameRef s)
    (animateCallback s) (callbacks s) v (alerts s) (random s).

Definition set_alerts (v : list string) (s : Component) : Component :=
  mkComponent (beforeImage s) (afterImage s) (selectedEffect s)
    (isPlaying s) (duration s) (intensity s) (progress s) (canvasRef s)
    (beforeImageRef s) (afterImageRef s) (animationFrameRef s)
    (animateCallback s) (callbacks s) (nextHandle s) v (random s).

Definition set_random (v : Oracle) (s : Component) : Component :=
  mkComponent (beforeImage s) (afterImage s) (selectedEffect s)
    (isPlaying s) (duration s) (intensity s) (progress s) (canvasRef s)
    (beforeImageRef s) (afterImageRef s) (animationFrameRef s)
    (animateCallback s) (callbacks s) (nextHandle s) (alerts s) v.

Section Driver.

Variable Math : MathLib.

Local Open Scope string_scope.
Local Open Scope js_scope.

Definition alert (message : string) (s : Component) : Component :=
  set_alerts (alerts s ++ [message])%list s.

(** [requestAnimationFrame(callback)]: the callback joins the list under a
    fresh handle, which is returned; handles are positive. *)
Definition requestAnimationFrame (callback : FrameRequestCallback)
    (s : Component) : positive * Component :=
  let handle := nextHandle s in
  (handle,
   set_nextHandle (Pos.succ handle)
     (set_callbacks (callbacks s ++ [(handle, callback)])%list s)).

(** [cancelAnimationFrame(handle)] *)
Definition cancelAnimationFrame (handle : positive) (s : Component)
    : Component :=
  set_callbacks
    (List.filter (fun entry => negb (Pos.eqb (fst entry) handle))
       (callbacks s)) s.

(** [handleImageUpload(e, type)], taken when [loadImage] settles: [file] is
    [None] when no file was chosen, [Some None] when the file does not
    decode, and [Some (Some img)] when it decodes to [img]. *)
Definition handleImageUpload (file : option (option Image)) (type : string)
    (s : Component) : Component :=
  match file with
  | None => s
  | Some (Some img) =>
      if (type =? "before")%string
      then setBeforeImage (Some img) (set_beforeImageRef (Some img) s)
      else setAfterImage (Some img) (set_afterImageRef (Some img) s)
  | Some None => alert "Failed to load image. Please try again." s
  end.

(** Animation loop: [animate(startTime)] for the callback that closes over
    [c], when [Date.now()] returns [now]. *)
Definition animate (c : Closure) (startTime : Z) (now : Z) (s : Component)
    : Component :=
  match canvasRef s with
  | None => s
  | Some canvas =>
      let currentTime := inject_Z now in
      let elapsed := (currentTime - inject_Z startTime) / 1000 in
      let t := Math_min (elapsed / closed_duration c) 1 in
      let s := setProgress t s in
      let effectFn :=
        getEffectFunction Math (beforeImageRef s) (afterImageRef s)
          (closed_intensity c) (closed_selectedEffect c) in
      let drawn := effectFn t (random s) in
      let s :=
        set_random (oracle drawn)
          (set_canvasRef (Some (canvas ++ calls drawn)%list) s) in
      match result drawn with
      | None => s
      | Some _ =>
          if t <? 1 then
            let (handle, s) :=
              requestAnimationFrame (mkCallback c startTime) s in
            set_animationFrameRef (Some handle) s
          else
            setIsPlaying false s
      end
  end.

(** Play animation: [now1] is the [Date.now()] of the call
    [animate(Date.now())], [now2] the one read inside [animate]. *)
Definition playAnimation (now1 now2 : Z) (s : Component) : Component :=
  if absent (beforeImage s) || absent (afterImage s) then
    alert "Please upload both BEFORE and AFTER images" s
  else
    let s :=
      match animationFrameRef s with
      | Some handle => cancelAnimationFrame handle s
      | None => s
      end in
    let s := setIsPlaying true s in
    let s := setProgress 0 s in
    animate (animateCallback s) now1 now2 s.

(** Stop animation *)
Definition stopAnimation (s : Component) : Component :=
  let s :=
    match animationFrameRef s with
    | Some handle =>
        set_animationFrameRef None (cancelAnimationFrame handle s)
    | None => s
    end in
  setIsPlaying false s.

(** The browser runs the animation frame callback registered under
    [handle], if it is still in the list, after removing it. *)
Definition runAnimationFrameCallback (handle : positive) (now : Z)
    (s : Component) : Component :=
  match List.find (fun entry => Pos.eqb (fst entry) handle) (callbacks s) with
  | None => s
  | Some (_, callback) =>
      animate (callback_animate callback) (callback_startTime callback) now
        (cancelAnimationFrame handle s)
  end.

(** The browser runs the animation frame callbacks: those in the list when
    the frame starts, in order, each one if it is still there.  The
    callbacks of one frame read the same [Date.now()]. *)
Definition runAnimationFrameCallbacks (now : Z) (s : Component)
    : Component :=
  fold_left (fun s handle => runAnimationFrameCallback handle now s)
    (map fst (callbacks s)) s.

(** [useCallback(..., [duration, selectedEffect, intensity])]: the stored
    callback is kept when each dependency is the same ([Object.is]). *)
Definition useCallback_animate (s : Component) : Component :=
  let stored := animateCallback s in
  if Num.same (duration s) (closed_duration stored)
     && (selectedEffect s =? closed_selectedEffect stored)%string
     && Num.same (intensity s) (closed_intensity stored)
  then s
  else
    set_animateCallback
      (mkClosure (duration s) (selectedEffect s) (intensity s)) s.

Definition render (s : Component) : Component := useCallback_animate s.

(** The first render. *)
Definition mount (defaultDuration defaultIntensity : Q) (rng : Oracle)
    : Component :=
  mkComponent None None "shockZoom" false defaultDuration defaultIntensity 0
    (Some []) None None None
    (mkClosure defaultDuration "shockZoom" defaultIntensity)
    [] 1%positive [] rng.

(** What happens to a mounted component, until it is unmounted: the
    controls of the page (the file inputs, the effect buttons, the two
    sliders with the number they give [parseFloat], and the play/stop
    button, [onClick={isPlaying ? stopAnimation : playAnimation}], disabled
    while a bitmap is missing), the two handlers called directly, and an
    animation frame of the browser. *)
Inductive Event : Type :=
| ImageInput (file : option (option Image)) (type : string)
| EffectButton (id : string)
| DurationSlider (value : Q)
| IntensitySlider (value : Q)
| PlayStopButton (now1 now2 : Z)
| Play (now1 now2 : Z)
| Stop
| AnimationFrame (now : Z).

Definition handle_event (e : Event) (s : Component) : Component :=
  match e with
  | ImageInput file type => handleImageUpload file type s
  | EffectButton id => setSelectedEffect id s
  | DurationSlider value => setDuration value s
  | IntensitySlider value => setIntensity value s
  | PlayStopButton now1 now2 =>
      if absent (beforeImage s) || absent (afterImage s) then s
      else if isPlaying s then stopAnimation s
      else playAnimation now1 now2 s
  | Play now1 now2 => playAnimation now1 now2 s
  | Stop => stopAnimation s
  | AnimationFrame now => runAnimationFrameCallbacks now s
  end.

(** An event is handled, then the component renders again. *)
Definition step (e : Event) (s : Component) : Component :=
  render (handle_event e s).

Fixpoint run (es : list Event) (s : Component) : Component :=
  match es with
  | [] => s
  | e :: es' => run es' (step e s)
  end.

(** ** What a run shows *)

(** The calls the surface has received. *)
Definition surface (s : Component) : Frame :=
  match canvasRef s with
  | Some canvas => canvas
  | None => []
  end.

(** The calls an event adds to the surface. *)
Definition drawn_by (e : Event) (s : Component) : Frame :=
  skipn (List.length (surface s)) (surface (step e s)).

(** The frames and the values of [progress] that a sequence of events
    produces, event by event. *)
Fixpoint frames (es : list Event) (s : Component) : list Frame :=
  match es with
  | [] => []
  | e :: es' => drawn_by e s :: frames es' (step e s)
  end.

Fixpoint progresses (es : list Event) (s : Component) : list Q :=
  match es with
  | [] => []
  | e :: es' => progress (step e s) :: progresses es' (step e s)
  end.

End Driver.

(** ** What the specification says of an effect *)

(** The effect returns at once: nothing is thrown, no call reaches the
    surface, no random number is drawn. *)
Definition returns_at_once (f : Q -> Draw unit) : Prop :=
  forall (t : Q) (r : Oracle), f t r = mkOutcome (Some tt) [] r.

(** The first call of the effect clears the whole surface. *)
Definition clears_first (f : Q -> Draw unit) : Prop :=
  forall (t : Q) (r : Oracle),
    exists rest : Frame,
      calls (f t r) = clearRect 0 0 CANVAS_WIDTH CANVAS_HEIGHT :: rest.

(** The calls that change the transform or the clipping region, which
    [clearRect] is subject to. *)
Definition changes_transform_or_clip (op : CanvasOp) : bool :=
  match op with
  | translate _ _ | scale _ _ | rotate _ | clip => true
  | _ => false
  end.

(** The number of [save]s not yet undone after the calls, from [depth], if
    every [restore] undoes a [save] of the calls and every change of the
    transform or of the clipping region is made under a [save] of the
    calls, which a [restore] then undoes. *)
Fixpoint nesting (depth : nat) (frame : Frame) : option nat :=
  match frame with
  | [] => Some depth
  | save :: rest => nesting (S depth) rest
  | restore :: rest =>
      match depth with
      | S d => nesting d rest
      | O => None
      end
  | op :: rest =>
      if changes_transform_or_clip op then
        match depth with
        | S _ => nesting depth rest
        | O => None
        end
      else nesting depth rest
  end.

(** [m] does not throw, and its calls take the nesting from [d] to [d']. *)
Definition nests {A} (d d' : nat) (m : Draw A) : Prop :=
  forall r : Oracle,
    result (m r) <> None /\ nesting d (calls (m r)) = Some d'.

(** The calls that read the content of the surface. *)
Definition reads_surface (op : CanvasOp) : bool :=
  match op with
  | drawImage5 surfaceItself _ _ _ _ => true
  | drawImage9 surfaceItself _ _ _ _ _ _ _ _ => true
  | temp_drawImage5 surfaceItself _ _ _ _ => true
  | _ => false
  end.

(** [pixelSize], as [applyPixelate] computes it. *)
Definition pixelSize (intensity t : Q) : Q :=
  Math_max 1 (Math_floor ((1 - Math_abs (t * 2 - 1)) * 100 * intensity)).

(** The calls of [drawImage(ctx, img, alpha)] for a bitmap: the bitmap is
    drawn at [alpha], centered and scaled to cover the canvas. *)
Definition drawn_image (img : Image) (alpha : Q) : Frame :=
  let scale :=
    Math_max (CANVAS_WIDTH / width img) (CANVAS_HEIGHT / height img) in
  [ save;
    set_globalAlpha alpha;
    drawImage5 (bitmap img)
      ((CANVAS_WIDTH - width img * scale) / 2)
      ((CANVAS_HEIGHT - height img * scale) / 2)
      (width img * scale) (height img * scale);
    restore ].

(** Every call of [m] passes the test [p]. *)
Definition draws_only {A} (p : CanvasOp -> bool) (m : Draw A) : Prop :=
  forall r : Oracle, forallb p (calls (m r)) = true.

(** [m] does not throw. *)
Definition never_throws {A} (m : Draw A) : Prop :=
  forall r : Oracle, result (m r) <> None.

(** [m] does not draw from [Math.random]: what it returns and what it
    calls is the same under every oracle, which it leaves as it was. *)
Definition ignores_oracle {A} (m : Draw A) : Prop :=
  forall r r' : Oracle,
    result (m r) = result (m r') /\ calls (m r) = calls (m r') /\
    oracle (m r) = r.

(** The effects that call [Math.random]. *)
Definition draws_randomly (id : string) : bool :=
  ((id =? "filmBurn") || (id =? "particleBurst"))%string.

(** The identifiers of the effect picker: the [id]s of its buttons, each
    of which calls [setSelectedEffect(effect.id)]. *)
Definition effect_ids : list string :=
  [ "shockZoom"; "rgbGlitch"; "filmBurn"; "particleBurst"; "wipeReveal";
    "verticalWipe"; "circularReveal"; "zoomIn"; "zoomOut"; "slideLeft";
    "slideRight"; "slideUp"; "slideDown"; "fadeCross"; "spinClockwise";
    "spinCounterClockwise"; "diagonalWipe"; "boxExpand"; "pixelate";
    "blurTransition"; "waveDistortion"; "ripple"; "splitHorizontal";
    "splitVertical"; "flipHorizontal"; "flipVertical"; "checkerboard";
    "randomBlocks"; "venetianBlinds"; "swirl"; "diamondReveal"; "bounceIn";
    "elastic"; "pageCurl"; "kaleidoscope"; "colorShift"; "gradientWipe";
    "zoomBlur"; "shatter"; "radialWipe"; "doorSwing"; "twist"; "fold";
    "starBurst"; "liquid"; "cubeRotate"; "morph"; "gridFlip"; "spotlight";
    "vortex" ]%string.

(** ** What the specification says of the driver *)

(** The progress that [animate] derives: [t], as a function of what it is
    computed from. *)
Definition derived_progress (duration : Q) (startTime now : Z) : Q :=
  Math_min (((inject_Z now - inject_Z startTime) / 1000) / duration) 1.

(** The progress of a tick in the words of the specification: the elapsed
    time, in seconds, divided by the duration, and at most 1. *)
Definition spec_progress (duration : Q) (startTime now : Z) : Q :=
  Qmin ((inject_Z (now - startTime) / 1000) / duration)%Q 1.

(** The frame that [animate] draws: the calls of the effect function that
    [getEffectFunction] returns in the scope of the callback [c], at the
    derived progress. *)
Definition rendered_frame (Math : MathLib) (c : Closure) (startTime now : Z)
    (s : Component) : Frame :=
  calls
    (getEffectFunction Math (beforeImageRef s) (afterImageRef s)
       (closed_intensity c) (closed_selectedEffect c)
       (derived_progress (closed_duration c) startTime now) (random s)).

(** The animation frame callback list holds at most the callback whose
    handle is in [animationFrameRef]. *)
Definition one_pending (s : Component) : Prop :=
  callbacks s = [] \/
  exists handle callback,
    callbacks s = [(handle, callback)] /\
    animationFrameRef s = Some handle.

(** The canvas is mounted, the bitmaps of the state are those of the refs,
    and at most one callback is pending. *)
Definition mounted (s : Component) : Prop :=
  canvasRef s <> None /\
  beforeImageRef s = beforeImage s /\
  afterImageRef s = afterImage s /\
  one_pending s.

(** The states between two events: those of a mounted component in which
    the stored [animate] is the one of the last render. *)
Definition well_formed (s : Component) : Prop :=
  mounted s /\
  animateCallback s =
    mkClosure (duration s) (selectedEffect s) (intensity s).

(** No event of [es] asks to play. *)
Definition no_play_request (es : list Event) : bool :=
  forallb
    (fun e =>
       match e with
       | Play _ _ | PlayStopButton _ _ => false
       | _ => true
       end) es.

(** The clock does not go back: the animation frames of [es] read
    non-decreasing times, from [now] on. *)
Fixpoint clock_advances (now : Z) (es : list Event) : Prop :=
  match es with
  | [] => True
  | AnimationFrame now' :: es' => (now <= now')%Z /\ clock_advances now' es'
  | _ :: es' => clock_advances now es'
  end.

(** The time last read after an event. *)
Definition clock_after (last : Z) (e : Event) : Z :=
  match e with
  | AnimationFrame now => now
  | _ => last
  end.

(** The ticks of a sequence of events: for each animation frame that finds
    a callback to run, the time it reads and the progress it leaves. *)
Fixpoint ticks (Math : MathLib) (es : list Event) (s : Component)
    : list (Z * Q) :=
  match es with
  | [] => []
  | e :: es' =>
      match e, callbacks s with
      | AnimationFrame now, _ :: _ => [(now, progress (step Math e s))]
      | _, _ => []
      end ++ ticks Math es' (step Math e s)
  end.

(** The invariant of a run started at [startTime] with [duration], when
    the last time read is [last]: a pending callback is the one of the run,
    and [progress] is in [0,1] and at most what a tick at [last] derives. *)
Definition in_run (duration : Q) (startTime last : Z) (s : Component)
    : Prop :=
  well_formed s /\
  (forall handle callback,
     callbacks s = [(handle, callback)] ->
     closed_duration (callback_animate callback) = duration /\
     callback_startTime callback = startTime) /\
  (0 <= progress s <= 1)%Q /\
  (progress s <= derived_progress duration startTime last)%Q /\
  (startTime <= last)%Z.

(** Two states hold the same inputs of a run: the settings and the two
    bitmaps. *)
Definition same_inputs (s1 s2 : Component) : Prop :=
  duration s1 = duration s2 /\
  selectedEffect s1 = selectedEffect s2 /\
  intensity s1 = intensity s2 /\
  beforeImageRef s1 = beforeImageRef s2 /\
  afterImageRef s1 = afterImageRef s2.

(** A run: a play request, then animation frames. *)
Definition run_events (now1 now2 : Z) (nows : list Z) : list Event :=
  Play now1 now2 :: map AnimationFrame nows.

(** The invariant of two runs of the same inputs, the second [delay] later
    than the first: the same progress, and either no callback pending in
    both, or in both the callback of the same [animate], an effect that
    does not call [Math.random], with start times [delay] apart. *)
Definition runs_agree (delay : Z) (s1 s2 : Component) : Prop :=
  well_formed s1 /\ well_formed s2 /\ same_inputs s1 s2 /\
  progress s1 = progress s2 /\
  ((callbacks s1 = [] /\ callbacks s2 = []) \/
   exists handle1 handle2 c startTime,
     callbacks s1 = [(handle1, mkCallback c startTime)] /\
     callbacks s2 = [(handle2, mkCallback c (startTime + delay))] /\
     draws_randomly (closed_selectedEffect c) = false).

(** ** Sample inputs *)

(** A [Math] with crude approximations, an oracle, two bitmaps, and the
    component in some of its states. *)
Definition sample_Math : MathLib :=
  mkMath (fun x => x) (fun _ => 1) (fun x => x) (fun x _ => x) (355 # 113).

Definition sample_oracle : Oracle :=
  fun n => 1 # Pos.of_succ_nat (S n).

Definition sample_before : Image := mkImage 1080 1920 1.
Definition sample_after : Image := mkImage 540 960 2.

Definition sample_loaded : Component :=
  run sample_Math
    [ImageInput (Some (Some sample_before)) "before";
     ImageInput (Some (Some sample_after)) "after"]
    (mount 3 0.8 sample_oracle).

(** The component ready for a fade cross over two seconds. *)
Definition sample_ready : Component :=
  run sample_Math [EffectButton "fadeCross"; DurationSlider 2] sample_loaded.

(** A run of the fade cross over two seconds, started at time 0. *)
Definition sample_running : Component :=
  run sample_Math
    [EffectButton "fadeCross"; DurationSlider 2; Play 0 0] sample_loaded.

(** The settings are changed while [sample_running] runs. *)
Definition sample_changed : Component :=
  run sample_Math
    [EffectButton "zoomIn"; DurationSlider 4; IntensitySlider 0.5]
    sample_running.

(** The state after a complete run of [sample_ready]: the tick at two
    seconds is the last. *)
Definition sample_completed : Component :=
  run sample_Math (run_events 0 0 [500; 1000; 2000]%Z) sample_ready.

(** The component ready for a film burn. *)
Definition sample_film_burn : Component :=
  run sample_Math [EffectButton "filmBurn"] sample_loaded.

(** ** The page and the clock *)

(** The events of the page and of the browser: the controls and the
    animation frames, without the direct calls of the two handlers. *)
Definition from_page (es : list Event) : bool :=
  forallb
    (fun e =>
       match e with
       | Play _ _ | Stop => false
       | _ => true
       end) es.

(** Cleanup on unmount: the function that the effect hook returns. *)
Definition cleanup (s : Component) : Component :=
  match animationFrameRef s with
  | Some handle => cancelAnimationFrame handle s
  | None => s
  end.

(** The sliders give a duration from 1 to 10 and an intensity from 0 to 1
    ([min] and [max] of the two range inputs). *)
Definition sliders_in_range (es : list Event) : Prop :=
  Forall
    (fun e =>
       match e with
       | DurationSlider value => 1 <= value <= 10
       | IntensitySlider value => 0 <= value <= 1
       | _ => True
       end) es.

(** A callback closes over a positive duration and an intensity in
    [0,1]. *)
Definition closure_in_range (c : Closure) : Prop :=
  0 < closed_duration c /\ 0 <= closed_intensity c <= 1.

(** The settings of the state, of the stored [animate] and of the pending
    callbacks are in range. *)
Definition settings_in_range (s : Component) : Prop :=
  0 < duration s /\ 0 <= intensity s <= 1 /\
  closure_in_range (animateCallback s) /\
  Forall (fun entry => closure_in_range (callback_animate (snd entry)))
    (callbacks s).

(** The clock does not go back: each time read by an event is at least the
    one read before, from [last] on.  A play request reads the clock
    twice. *)
Fixpoint clock_monotone (last : Z) (es : list Event) : Prop :=
  match es with
  | [] => True
  | Play now1 now2 :: es' | PlayStopButton now1 now2 :: es' =>
      (last <= now1 <= now2)%Z /\ clock_monotone now2 es'
  | AnimationFrame now :: es' => (last <= now)%Z /\ clock_monotone now es'
  | _ :: es' => clock_monotone last es'
  end.



(** ** What the 2D context rejects

    The calls that raise in a browser: [createRadialGradient] with a
    negative radius, [addColorStop] with an offset outside [0,1] and [arc]
    with a negative radius raise an [IndexSizeError]; [drawImage] from a
    canvas without pixels raises an [InvalidStateError].  A gradient is
    judged where it is assigned. *)
Definition gradient_accepted (g : Gradient) : bool :=
  match shape g with
  | Linear _ _ _ _ => true
  | Radial _ _ r0 _ _ r1 => Num.leb 0 r0 && Num.leb 0 r1
  end
  && forallb (fun stop => Num.leb 0 (fst stop) && Num.leb (fst stop) 1)
       (stops g).

Definition style_accepted (s : Style) : bool :=
  match s with
  | css _ => true
  | grad g => gradient_accepted g
  end.

Definition accepted (op : CanvasOp) : bool :=
  match op with
  | arc _ _ r _ _ => Num.leb 0 r
  | set_fillStyle s => style_accepted s
  | set_strokeStyle s => style_accepted s
  | temp_create w h => Num.leb 1 w && Num.leb 1 h
  | _ => true
  end.

(** What the effects need of [Math]: a square root is not negative and a
    sine is at most 1. *)
Definition Math_in_range (Math : MathLib) : Prop :=
  (forall x, 0 <= sqrt Math x) /\ (forall x, sin Math x <= 1).

(** The numbers of [Math.random] are not negative. *)
Definition oracle_in_range (r : Oracle) : Prop := forall n, 0 <= r n.

(** Under an oracle in range, [m] does not throw, makes only calls that
    pass [p], returns a value in [V] and leaves an oracle in range. *)
Definition draws_in_range {A} (p : CanvasOp -> bool) (V : A -> Prop)
    (m : Draw A) : Prop :=
  forall r, oracle_in_range r ->
    forallb p (calls (m r)) = true /\
    oracle_in_range (oracle (m r)) /\
    exists a, result (m r) = Some a /\ V a.

(** ** The drawing state of the context

    The part of the drawing state that bears on how a bitmap is drawn:
    [globalAlpha], [globalCompositeOperation], [filter] and
    [imageSmoothingEnabled].  [save] pushes it and [restore] pops it; an
    assignment that the context ignores (an alpha outside [0,1], an
    unknown operation, a blur of negative length) leaves it as it was. *)
Record Pen : Type := mkPen {
  globalAlpha : Q;
  globalCompositeOperation : string;
  filter : Filter;
  imageSmoothingEnabled : bool
}.

(** The state of a new context. *)
Definition default_pen : Pen := mkPen 1 "source-over" none true.

Definition operations : list string :=
  [ "source-over"; "source-in"; "source-out"; "source-atop";
    "destination-over"; "destination-in"; "destination-out";
    "destination-atop"; "lighter"; "copy"; "xor"; "multiply"; "screen";
    "overlay"; "darken"; "lighten"; "color-dodge"; "color-burn";
    "hard-light"; "soft-light"; "difference"; "exclusion"; "hue";
    "saturation"; "color"; "luminosity" ]%string.

Definition filter_accepted (f : Filter) : bool :=
  match f with
  | blur px => Num.leb 0 px
  | _ => true
  end.

Definition pen_step (state : list Pen * Pen) (op : CanvasOp)
    : list Pen * Pen :=
  let stack := fst state in
  let pen := snd state in
  match op with
  | save => (pen :: stack, pen)
  | restore =>
      match stack with
      | saved :: rest => (rest, saved)
      | [] => (stack, pen)
      end
  | set_globalAlpha a =>
      (stack,
       mkPen (if Num.leb 0 a && Num.leb a 1 then a else globalAlpha pen)
         (globalCompositeOperation pen) (filter pen)
         (imageSmoothingEnabled pen))
  | set_globalCompositeOperation o =>
      (stack,
       mkPen (globalAlpha pen)
         (if existsb (String.eqb o) operations
          then o else globalCompositeOperation pen)
         (filter pen) (imageSmoothingEnabled pen))
  | set_filter f =>
      (stack,
       mkPen (globalAlpha pen) (globalCompositeOperation pen)
         (if filter_accepted f then f else filter pen)
         (imageSmoothingEnabled pen))
  | set_imageSmoothingEnabled b =>
      (stack,
       mkPen (globalAlpha pen) (globalCompositeOperation pen) (filter pen) b)
  | _ => (stack, pen)
  end.

(** The saved states and the state after the calls of a frame. *)
Definition pen_after (state : list Pen * Pen) (frame : Frame)
    : list Pen * Pen :=
  fold_left pen_step frame state.

(** The alpha in force at each call that draws a bitmap or a canvas. *)
Fixpoint drawn_alphas (state : list Pen * Pen) (frame : Frame) : list Q :=
  match frame with
  | [] => []
  | op :: rest =>
      match op with
      | drawImage5 _ _ _ _ _ | drawImage9 _ _ _ _ _ _ _ _ _ =>
          [globalAlpha (snd state)]
      | _ => []
      end ++ drawn_alphas (pen_step state op) rest
  end.

(** [m] does not throw, and its calls take the drawing state from [s] to
    [s']. *)
Definition pens {A} (s s' : list Pen * Pen) (m : Draw A) : Prop :=
  forall r : Oracle,
    result (m r) <> None /\ pen_after s (calls (m r)) = s'.

(** The calls received by a canvas are in order: the context accepts each
    of them, and they leave the drawing state, the transform and the
    clipping region of a new context. *)
Definition in_order (frame : Frame) : Prop :=
  forallb accepted frame = true /\
  pen_after ([], default_pen) frame = ([], default_pen) /\
  nesting 0 frame = Some 0%nat.


(** ** The numbers read from [Math.random] *)

(** [m] does not throw and reads [k] numbers from [Math.random]: the
    oracle it leaves is the one it found, [k] numbers further. *)
Definition reads_numbers {A} (k : nat) (m : Draw A) : Prop :=
  forall r : Oracle,
    result (m r) <> None /\ forall n, oracle (m r) n = r (k + n)%nat.

(** The numbers that a frame reads from [Math.random]: the grain of the
    film burn reads five for each of its 100 specks, until the burn is at
    0.95; the particle burst reads one for each particle, while the burst
    phase is above 0.1. *)
Definition random_numbers (Math : MathLib) (intensity : Q) (id : string)
    (t : Q) : nat :=
  if (id =? "filmBurn")%string then
    if Num.ltb t 0.95 then 500 else 0
  else if (id =? "particleBurst")%string then
    if Num.ltb 0.1 (sin Math (Num.mul t (PI Math)))
    then Z.to_nat (Qfloor (Num.mul 200 intensity)) else 0
  else 0.

(** ** The cells of the checkerboard *)

(** The cells that the checkerboard effect reveals: the rectangles of 108
    by 192 at column [i] and row [j] of the ten by ten grid, with [i + j]
    even. *)
Definition revealed_cell (x y w h : Q) : bool :=
  existsb
    (fun i =>
       existsb
         (fun j =>
            Nat.even (i + j)
            && Num.same x (Num.mul (inject_Z (Z.of_nat i)) 108)
            && Num.same y (Num.mul (inject_Z (Z.of_nat j)) 192))
         (seq 0 10))
    (seq 0 10)
  && Num.same w 108 && Num.same h 192.

Definition clips_to_revealed_cell (op : CanvasOp) : bool :=
  match op with
  | rect x y w h => revealed_cell x y w h
  | _ => true
  end.

(** The index of the [k]-th turn of a loop. *)
Fixpoint loop_index (k : nat) (i step : Q) : Q :=
  match k with
  | O => i
  | S k' => loop_index k' (Num.add i step) step
  end.

(** ** More sample inputs *)

(** A [Math] whose square root and sine are in range. *)
Definition sample_Math_in_range : MathLib :=
  mkMath (fun _ => 1 # 2) (fun _ => 1 # 2) (fun _ => 2203)
    (fun x _ => Num.mul x x) (355 # 113).

(** A visit of the page: two bitmaps, the spotlight at full intensity over
    one second, a play request and three animation frames, the last one
    after the end of the run. *)
Definition sample_visit : list Event :=
  [ ImageInput (Some (Some sample_before)) "before";
    ImageInput (Some (Some sample_after)) "after";
    EffectButton "spotlight"; DurationSlider 1; IntensitySlider 1;
    PlayStopButton 0 0; AnimationFrame 16; AnimationFrame 500;
    AnimationFrame 1200 ].

(** * Properties *)

Unset Implicit Arguments.

(** ** Numbers *)

Lemma add_correct (x y : Q) : (Num.add x y == x + y)%Q.
Proof. apply Qred_correct. Qed.

Lemma sub_correct (x y : Q) : (Num.sub x y == x - y)%Q.
Proof. apply Qred_correct. Qed.

Lemma mul_correct (x y : Q) : (Num.mul x y == x * y)%Q.
Proof. apply Qred_correct. Qed.

Lemma div_correct (x y : Q) : (Num.div x y == x / y)%Q.
Proof. apply Qred_correct. Qed.

Lemma ltb_lt (x y : Q) : Num.ltb x y = true <-> (x < y)%Q.
Proof.
  unfold Num.ltb. rewrite Qlt_alt.
  destruct (x ?= y); split; congruence.
Qed.

Lemma ltb_ge (x y : Q) : Num.ltb x y = false <-> (y <= x)%Q.
Proof.
  rewrite <- not_true_iff_false, ltb_lt. split.
  - apply Qnot_lt_le.
  - intros H H'. exact (Qlt_not_le _ _ H' H).
Qed.

Lemma same_eq (x y : Q) : Num.same x y = true <-> x = y.
Proof.
  unfold Num.same. rewrite andb_true_iff, Z.eqb_eq, Pos.eqb_eq.
  destruct x, y; simpl. split.
  - intros [-> ->]. reflexivity.
  - intros H. injection H. auto.
Qed.

(** ** The drawing monad *)

Lemma calls_bind {A B} (m : Draw A) (f : A -> Draw B) (r : Oracle) :
  calls (bind m f r) =
  calls (m r) ++
  match result (m r) with
  | Some a => calls (f a (oracle (m r)))
  | None => []
  end.
Proof.
  unfold bind. destruct (result (m r)); simpl.
  - reflexivity.
  - symmetry. apply app_nil_r.
Qed.

Lemma calls_ctx_then {B} (op : CanvasOp) (k : unit -> Draw B) (r : Oracle) :
  calls (bind (ctx op) k r) = op :: calls (k tt r).
Proof. reflexivity. Qed.

(** ** Absent bitmaps *)

Section Absent.

Variable Math : MathLib.
Variable intensity : Q.

Lemma library_without_before (afterImg : option Image) :
  Forall (fun e => returns_at_once (snd e))
    (effectLibrary Math None afterImg intensity).
Proof.
  unfold effectLibrary.
  repeat (apply Forall_cons; [intros t r; reflexivity|]).
  apply Forall_nil.
Qed.

Lemma library_without_after (beforeImg : option Image) :
  Forall (fun e => returns_at_once (snd e))
    (effectLibrary Math beforeImg None intensity).
Proof.
  unfold effectLibrary.
  repeat (apply Forall_cons; [intros t r; destruct beforeImg; reflexivity|]).
  apply Forall_nil.
Qed.

End Absent.

(** ** Composition of drawings

    Each of the three properties of a drawing follows from the same
    property of its parts. *)

Section DrawsOnly.

Variable p : CanvasOp -> bool.

Lemma draws_only_ret {A} (a : A) : draws_only p (ret a).
Proof. intros r. reflexivity. Qed.

Lemma draws_only_ctx (op : CanvasOp) : p op = true -> draws_only p (ctx op).
Proof. intros H r. simpl. rewrite H. reflexivity. Qed.

Lemma draws_only_throw {A} : draws_only p (@throwTypeError A).
Proof. intros r. reflexivity. Qed.

Lemma draws_only_random : draws_only p Math_random.
Proof. intros r. reflexivity. Qed.

Lemma draws_only_bind {A B} (m : Draw A) (f : A -> Draw B) :
  draws_only p m -> (forall a, draws_only p (f a)) ->
  draws_only p (bind m f).
Proof.
  intros Hm Hf r. rewrite calls_bind, forallb_app, Hm.
  destruct (result (m r)); simpl.
  - apply Hf.
  - reflexivity.
Qed.

Lemma draws_only_iterate (n : nat) (i step : Q) (body : Q -> Draw unit) :
  (forall j, draws_only p (body j)) -> draws_only p (iterate n i step body).
Proof.
  intros Hbody. revert i.
  induction n as [|n IH]; intros i; simpl.
  - apply draws_only_ret.
  - apply draws_only_bind; auto.
Qed.

Lemma draws_only_for (init bound step : Q) (body : Q -> Draw unit) :
  (forall j, draws_only p (body j)) ->
  draws_only p (for_ init bound step body).
Proof. intros H. apply draws_only_iterate, H. Qed.

Lemma draws_only_when (b : bool) (m : Draw unit) :
  draws_only p m -> draws_only p (when b m).
Proof. intros H. destruct b; simpl; auto using draws_only_ret. Qed.

End DrawsOnly.

Lemma never_throws_ret {A} (a : A) : never_throws (ret a).
Proof. intros r. discriminate. Qed.

Lemma never_throws_ctx (op : CanvasOp) : never_throws (ctx op).
Proof. intros r. discriminate. Qed.

Lemma never_throws_random : never_throws Math_random.
Proof. intros r. discriminate. Qed.

Lemma never_throws_bind {A B} (m : Draw A) (f : A -> Draw B) :
  never_throws m -> (forall a, never_throws (f a)) ->
  never_throws (bind m f).
Proof.
  intros Hm Hf r. unfold bind.
  destruct (result (m r)) as [a|] eqn:E.
  - simpl. apply Hf.
  - destruct (Hm r E).
Qed.

Lemma never_throws_iterate (n : nat) (i step : Q) (body : Q -> Draw unit) :
  (forall j, never_throws (body j)) -> never_throws (iterate n i step body).
Proof.
  intros Hbody. revert i.
  induction n as [|n IH]; intros i; simpl.
  - apply never_throws_ret.
  - apply never_throws_bind; auto.
Qed.

Lemma never_throws_for (init bound step : Q) (body : Q -> Draw unit) :
  (forall j, never_throws (body j)) ->
  never_throws (for_ init bound step body).
Proof. intros H. apply never_throws_iterate, H. Qed.

Lemma never_throws_when (b : bool) (m : Draw unit) :
  never_throws m -> never_throws (when b m).
Proof. intros H. destruct b; simpl; auto using never_throws_ret. Qed.

Lemma ignores_oracle_ret {A} (a : A) : ignores_oracle (ret a).
Proof. intros r r'. auto. Qed.

Lemma ignores_oracle_ctx (op : CanvasOp) : ignores_oracle (ctx op).
Proof. intros r r'. auto. Qed.

Lemma ignores_oracle_throw {A} : ignores_oracle (@throwTypeError A).
Proof. intros r r'. auto. Qed.

Lemma ignores_oracle_bind {A B} (m : Draw A) (f : A -> Draw B) :
  ignores_oracle m -> (forall a, ignores_oracle (f a)) ->
  ignores_oracle (bind m f).
Proof.
  intros Hm Hf r r'. unfold bind.
  destruct (Hm r r') as (Hres & Hcalls & Hr).
  destruct (Hm r' r') as (_ & _ & Hr').
  rewrite <- Hres, <- Hcalls, Hr, Hr'.
  destruct (result (m r)) as [a|]; simpl.
  - destruct (Hf a r r') as (Hres2 & Hcalls2 & Hr2).
    rewrite Hres2, Hcalls2, Hr2. auto.
  - auto.
Qed.

Lemma ignores_oracle_iterate (n : nat) (i step : Q) (body : Q -> Draw unit) :
  (forall j, ignores_oracle (body j)) ->
  ignores_oracle (iterate n i step body).
Proof.
  intros Hbody. revert i.
  induction n as [|n IH]; intros i; simpl.
  - apply ignores_oracle_ret.
  - apply ignores_oracle_bind; auto.
Qed.

Lemma ignores_oracle_for (init bound step : Q) (body : Q -> Draw unit) :
  (forall j, ignores_oracle (body j)) ->
  ignores_oracle (for_ init bound step body).
Proof. intros H. apply ignores_oracle_iterate, H. Qed.

Lemma ignores_oracle_when (b : bool) (m : Draw unit) :
  ignores_oracle m -> ignores_oracle (when b m).
Proof. intros H. destruct b; simpl; auto using ignores_oracle_ret. Qed.

(** One step of the analysis of a drawing, for the three properties; the
    body of an effect is analysed by repeating it. *)
Ltac draw_step :=
  match goal with
  | |- draws_only _ (bind _ _) => apply draws_only_bind; [|intros ?]
  | |- draws_only _ (ret _) => apply draws_only_ret
  | |- draws_only _ (ctx _) => apply draws_only_ctx; reflexivity
  | |- draws_only _ throwTypeError => apply draws_only_throw
  | |- draws_only _ Math_random => apply draws_only_random
  | |- draws_only _ (for_ _ _ _ _) => apply draws_only_for; intros ?
  | |- draws_only _ (when _ _) => apply draws_only_when
  | |- never_throws (bind _ _) => apply never_throws_bind; [|intros ?]
  | |- never_throws (ret _) => apply never_throws_ret
  | |- never_throws (ctx _) => apply never_throws_ctx
  | |- never_throws Math_random => apply never_throws_random
  | |- never_throws (for_ _ _ _ _) => apply never_throws_for; intros ?
  | |- never_throws (when _ _) => apply never_throws_when
  | |- ignores_oracle (bind _ _) => apply ignores_oracle_bind; [|intros ?]
  | |- ignores_oracle (ret _) => apply ignores_oracle_ret
  | |- ignores_oracle (ctx _) => apply ignores_oracle_ctx
  | |- ignores_oracle throwTypeError => apply ignores_oracle_throw
  | |- ignores_oracle (for_ _ _ _ _) => apply ignores_oracle_for; intros ?
  | |- ignores_oracle (when _ _) => apply ignores_oracle_when
  | |- _ (drawImage ?img _) =>
      unfold drawImage, ctx_drawImage5; destruct img
  | |- _ (ctx_drawImage9 _ _ _ _ _ _ _ _ _) => unfold ctx_drawImage9
  | |- _ (if ?c then _ else _) => destruct c
  | |- _ (match ?x with Some _ => _ | None => _ end) => destruct x
  end.

Ltac draw_analysis := cbv zeta; repeat draw_step.

(** The effects, with both bitmaps present. *)
Ltac enter_effect f :=
  unfold f; cbv beta iota zeta delta [absent orb].

Ltac head_of t :=
  match t with
  | ?f _ => head_of f
  | _ => t
  end.

(** Unfolds the effect at the head of the goal and decides its guard. *)
Ltac open_effect :=
  cbn [fst snd];
  match goal with
  | |- context [calls (?f _ _)] => let h := head_of f in unfold h
  | |- draws_only _ (?f _) => let h := head_of f in unfold h
  | |- never_throws (?f _) => let h := head_of f in unfold h
  | |- ignores_oracle (?f _) => let h := head_of f in unfold h
  end;
  cbv beta iota zeta delta [absent orb].

(** ** The whole library *)

Section Library.

Variable Math : MathLib.
Variable intensity : Q.

Lemma library_clears_first (beforeImg afterImg : Image) :
  Forall (fun e => clears_first (snd e))
    (effectLibrary Math (Some beforeImg) (Some afterImg) intensity).
Proof.
  unfold effectLibrary.
  repeat (apply Forall_cons;
          [intros t r; open_effect; eexists; apply calls_ctx_then|]).
  apply Forall_nil.
Qed.

Lemma library_reads_surface (beforeImg afterImg : Image) :
  Forall (fun e =>
            fst e <> "pixelate"%string ->
            forall t, draws_only (fun op => negb (reads_surface op))
                        (snd e t))
    (effectLibrary Math (Some beforeImg) (Some afterImg) intensity).
Proof.
  unfold effectLibrary.
  repeat (apply Forall_cons;
          [intros H t;
           first [ exfalso; apply H; reflexivity
                 | open_effect; draw_analysis ]|]).
  apply Forall_nil.
Qed.

Lemma library_never_throws (beforeImg afterImg : option Image) :
  Forall (fun e => forall t, never_throws (snd e t))
    (effectLibrary Math beforeImg afterImg intensity).
Proof.
  unfold effectLibrary.
  destruct beforeImg as [b|], afterImg as [a|];
    repeat (apply Forall_cons; [intros t; open_effect; draw_analysis|]);
    apply Forall_nil.
Qed.

Lemma library_ignores_oracle (beforeImg afterImg : option Image) :
  Forall (fun e =>
            draws_randomly (fst e) = false ->
            forall t, ignores_oracle (snd e t))
    (effectLibrary Math beforeImg afterImg intensity).
Proof.
  unfold effectLibrary.
  destruct beforeImg as [b|], afterImg as [a|];
    repeat (apply Forall_cons;
            [intros H t;
             first [ discriminate H | open_effect; draw_analysis ]|]);
    apply Forall_nil.
Qed.

End Library.

(** ** The dispatch *)

Section Dispatch.

Variable Math : MathLib.
Variables beforeImg afterImg : option Image.
Variable intensity : Q.

Lemma eqb_not_in (id x : string) (ids : list string) :
  ~ In id ids -> existsb (String.eqb x) ids = true ->
  String.eqb id x = false.
Proof.
  intros Hid Hx. apply String.eqb_neq. intros ->.
  apply Hid. apply existsb_exists in Hx.
  destruct Hx as (y & Hy & E). apply String.eqb_eq in E. now subst.
Qed.

Lemma dispatch_recognized :
  Forall (fun e =>
            getEffectFunction Math beforeImg afterImg intensity (fst e) =
            snd e)
    (effectLibrary Math beforeImg afterImg intensity).
Proof.
  unfold effectLibrary.
  repeat (apply Forall_cons; [reflexivity|]).
  apply Forall_nil.
Qed.

Lemma dispatch_default (id : string) :
  ~ In id (map fst (effectLibrary Math beforeImg afterImg intensity)) ->
  getEffectFunction Math beforeImg afterImg intensity id =
  applyShockZoom beforeImg afterImg intensity.
Proof.
  intros H. unfold getEffectFunction.
  repeat match goal with
         | |- context [String.eqb id ?x] =>
             rewrite (eqb_not_in id x _ H) by reflexivity
         end.
  reflexivity.
Qed.

Lemma dispatch_in_library (id : string) :
  In (getEffectFunction Math beforeImg afterImg intensity id)
    (map snd (effectLibrary Math beforeImg afterImg intensity)).
Proof.
  destruct (in_dec string_dec id
              (map fst (effectLibrary Math beforeImg afterImg intensity)))
    as [Hin|Hout].
  - apply in_map_iff in Hin. destruct Hin as (e & <- & He).
    pose proof dispatch_recognized as H.
    rewrite Forall_forall in H. rewrite (H e He).
    apply in_map, He.
  - rewrite (dispatch_default id Hout). left. reflexivity.
Qed.

Lemma dispatch_never_throws (id : string) (t : Q) :
  never_throws (getEffectFunction Math beforeImg afterImg intensity id t).
Proof.
  pose proof (dispatch_in_library id) as Hin.
  apply in_map_iff in Hin. destruct Hin as (e & <- & He).
  pose proof (library_never_throws Math intensity beforeImg afterImg) as H.
  rewrite Forall_forall in H. apply H, He.
Qed.

End Dispatch.

(** ** The driver, step by step *)

Section DriverSteps.

Variable Math : MathLib.

Lemma same_refl (x : Q) : Num.same x x = true.
Proof. apply same_eq. reflexivity. Qed.

(** A render keeps the stored callback when the settings are those it
    closes over, and stores one that closes over them otherwise. *)
Lemma render_stored (s : Component) :
  animateCallback s = mkClosure (duration s) (selectedEffect s) (intensity s) ->
  render s = s.
Proof.
  intros H. unfold render, useCallback_animate. rewrite H. simpl.
  rewrite !same_refl, String.eqb_refl. reflexivity.
Qed.

Lemma render_stores (s : Component) :
  render s =
  set_animateCallback
    (mkClosure (duration s) (selectedEffect s) (intensity s)) s.
Proof.
  unfold render, useCallback_animate.
  destruct (Num.same (duration s) (closed_duration (animateCallback s)))
    eqn:Ed; [|reflexivity].
  destruct (String.eqb_spec (selectedEffect s)
              (closed_selectedEffect (animateCallback s))) as [Ee|];
    [|reflexivity].
  destruct (Num.same (intensity s) (closed_intensity (animateCallback s)))
    eqn:Ei; [|reflexivity].
  simpl. apply same_eq in Ed, Ei.
  destruct s as [? ? ? ? ? ? ? ? ? ? ? [d e i] ? ? ? ?]; simpl in *.
  subst. reflexivity.
Qed.

Lemma animate_spec (c : Closure) (startTime now : Z) (s : Component)
    (canvas : Frame) :
  canvasRef s = Some canvas ->
  animate Math c startTime now s =
  let t := derived_progress (closed_duration c) startTime now in
  let drawn :=
    getEffectFunction Math (beforeImageRef s) (afterImageRef s)
      (closed_intensity c) (closed_selectedEffect c) t (random s) in
  let s1 :=
    set_random (oracle drawn)
      (set_canvasRef (Some (canvas ++ calls drawn)) (setProgress t s)) in
  if Num.ltb t 1 then
    set_animationFrameRef (Some (nextHandle s))
      (set_nextHandle (Pos.succ (nextHandle s))
         (set_callbacks
            (callbacks s ++ [(nextHandle s, mkCallback c startTime)]) s1))
  else setIsPlaying false s1.
Proof.
  intros Hc. unfold animate. rewrite Hc. cbv zeta.
  change (Math_min
            (Num.div
               (Num.div (Num.sub (inject_Z now) (inject_Z startTime)) 1000)
               (closed_duration c)) 1)
    with (derived_progress (closed_duration c) startTime now).
  set (t := derived_progress (closed_duration c) startTime now).
  simpl beforeImageRef. simpl afterImageRef. simpl random.
  destruct (result _) eqn:E.
  - reflexivity.
  - exfalso. revert E. apply dispatch_never_throws.
Qed.

(** What [animate] does to a state without pending callback. *)
Lemma animate_facts (c : Closure) (startTime now : Z) (s : Component)
    (canvas : Frame) :
  canvasRef s = Some canvas -> callbacks s = [] ->
  let t := derived_progress (closed_duration c) startTime now in
  let s' := animate Math c startTime now s in
  progress s' = t /\
  surface s' = canvas ++ rendered_frame Math c startTime now s /\
  callbacks s' =
    (if Num.ltb t 1 then [(nextHandle s, mkCallback c startTime)] else []) /\
  animationFrameRef s' =
    (if Num.ltb t 1 then Some (nextHandle s) else animationFrameRef s) /\
  isPlaying s' = (if Num.ltb t 1 then isPlaying s else false) /\
  same_inputs s s'.
Proof.
  intros Hcanvas Hcb t s'. subst s'.
  rewrite (animate_spec c startTime now s canvas Hcanvas).
  cbv zeta. fold t.
  destruct (Num.ltb t 1); simpl; rewrite ?Hcb;
    repeat split; reflexivity.
Qed.

(** An animation frame with an empty callback list runs nothing; with the
    one callback of a well-formed state it runs [animate] once. *)
Lemma frame_without_callback (now : Z) (s : Component) :
  callbacks s = [] -> runAnimationFrameCallbacks Math now s = s.
Proof. intros H. unfold runAnimationFrameCallbacks. rewrite H. reflexivity. Qed.

Lemma frame_with_callback (now : Z) (s : Component) (handle : positive)
    (callback : FrameRequestCallback) :
  callbacks s = [(handle, callback)] ->
  runAnimationFrameCallbacks Math now s =
  animate Math (callback_animate callback) (callback_startTime callback) now
    (set_callbacks [] s).
Proof.
  intros H. unfold runAnimationFrameCallbacks, runAnimationFrameCallback.
  rewrite H. simpl. rewrite H. simpl. rewrite Pos.eqb_refl. simpl.
  unfold cancelAnimationFrame. rewrite H. simpl. rewrite Pos.eqb_refl.
  reflexivity.
Qed.

Lemma render_well_formed (s : Component) :
  mounted s -> well_formed (render s).
Proof.
  intros H. rewrite render_stores. split; [exact H|reflexivity].
Qed.

Lemma animate_mounted (c : Closure) (startTime now : Z) (s : Component) :
  mounted s -> callbacks s = [] ->
  mounted (animate Math c startTime now s).
Proof.
  intros (Hc & Hb & Ha & _) Hcb.
  destruct (canvasRef s) as [canvas|] eqn:Ecanvas; [|congruence].
  rewrite (animate_spec c startTime now s canvas Ecanvas). cbv zeta.
  destruct (Num.ltb _ 1); (split; [|split; [|split]]); simpl;
    try discriminate; try assumption.
  - right. rewrite Hcb. simpl. eauto.
  - left. assumption.
Qed.

Lemma cancel_pending (s : Component) :
  one_pending s ->
  callbacks
    match animationFrameRef s with
    | Some handle => cancelAnimationFrame handle s
    | None => s
    end = [].
Proof.
  intros [H|(h & cb & H & Href)].
  - destruct (animationFrameRef s); simpl; rewrite ?H; reflexivity.
  - rewrite Href. simpl. rewrite H. simpl. rewrite Pos.eqb_refl. reflexivity.
Qed.

Lemma playAnimation_mounted (now1 now2 : Z) (s : Component) :
  mounted s -> mounted (playAnimation Math now1 now2 s).
Proof.
  intros H. unfold playAnimation.
  destruct (absent (beforeImage s) || absent (afterImage s)).
  - exact H.
  - destruct H as (Hc & Hb & Ha & Hp).
    apply animate_mounted.
    + pose proof (cancel_pending s Hp) as Hcb.
      destruct (animationFrameRef s);
        (split; [|split; [|split]]); simpl; try assumption;
        left; exact Hcb.
    + pose proof (cancel_pending s Hp) as Hcb.
      destruct (animationFrameRef s); exact Hcb.
Qed.

Lemma stopAnimation_callbacks (s : Component) :
  one_pending s -> callbacks (stopAnimation s) = [].
Proof.
  intros Hp. pose proof (cancel_pending s Hp) as Hcb.
  unfold stopAnimation. destruct (animationFrameRef s); exact Hcb.
Qed.

Lemma stopAnimation_mounted (s : Component) :
  mounted s -> mounted (stopAnimation s).
Proof.
  intros (Hc & Hb & Ha & Hp).
  pose proof (stopAnimation_callbacks s Hp) as Hcb.
  unfold stopAnimation in *.
  destruct (animationFrameRef s);
    (split; [|split; [|split]]); simpl; try assumption; left; exact Hcb.
Qed.

Lemma frame_mounted (now : Z) (s : Component) :
  mounted s -> mounted (runAnimationFrameCallbacks Math now s).
Proof.
  intros H. destruct H as (Hc & Hb & Ha & [Hcb|(h & cb & Hcb & Href)]).
  - rewrite frame_without_callback by exact Hcb.
    repeat split; try assumption. left. exact Hcb.
  - rewrite (frame_with_callback now s h cb Hcb).
    apply animate_mounted; [|reflexivity].
    repeat split; try assumption. left. reflexivity.
Qed.

Lemma handle_event_mounted (e : Event) (s : Component) :
  mounted s -> mounted (handle_event Math e s).
Proof.
  intros H. destruct e as [file type|id|d|i|now1 now2|now1 now2| |now]; simpl.
  - destruct H as (Hc & Hb & Ha & Hp).
    destruct file as [[img|]|]; simpl;
      [destruct (String.eqb type "before")| |];
      repeat split; simpl; assumption.
  - exact H.
  - exact H.
  - exact H.
  - destruct (absent (beforeImage s) || absent (afterImage s)); [exact H|].
    destruct (isPlaying s).
    + apply stopAnimation_mounted, H.
    + apply playAnimation_mounted, H.
  - apply playAnimation_mounted, H.
  - apply stopAnimation_mounted, H.
  - apply frame_mounted, H.
Qed.

Lemma step_well_formed (e : Event) (s : Component) :
  well_formed s -> well_formed (step Math e s).
Proof.
  intros [H _]. apply render_well_formed, handle_event_mounted, H.
Qed.

Lemma mount_well_formed (defaultDuration defaultIntensity : Q) (rng : Oracle) :
  well_formed (mount defaultDuration defaultIntensity rng).
Proof.
  repeat split; simpl; try discriminate. left. reflexivity.
Qed.

Lemma run_well_formed (es : list Event) (s : Component) :
  well_formed s -> well_formed (run Math es s).
Proof.
  revert s. induction es as [|e es IH]; intros s H; simpl.
  - exact H.
  - apply IH, step_well_formed, H.
Qed.

(** What [animate] leaves as it was. *)
Lemma animate_settings (c : Closure) (startTime now : Z) (s : Component) :
  let s' := animate Math c startTime now s in
  duration s' = duration s /\ selectedEffect s' = selectedEffect s /\
  intensity s' = intensity s /\ animateCallback s' = animateCallback s /\
  beforeImage s' = beforeImage s /\ afterImage s' = afterImage s /\
  beforeImageRef s' = beforeImageRef s /\
  afterImageRef s' = afterImageRef s /\ alerts s' = alerts s.
Proof.
  destruct (canvasRef s) as [canvas|] eqn:Ecanvas.
  - rewrite (animate_spec c startTime now s canvas Ecanvas). cbv zeta.
    destruct (Num.ltb _ 1); simpl; repeat split.
  - unfold animate. rewrite Ecanvas. simpl. repeat split.
Qed.

Lemma render_after_animate (c : Closure) (startTime now : Z) (s : Component) :
  animateCallback s = mkClosure (duration s) (selectedEffect s) (intensity s) ->
  render (animate Math c startTime now s) = animate Math c startTime now s.
Proof.
  intros H. apply render_stored.
  destruct (animate_settings c startTime now s)
    as (-> & -> & -> & -> & _).
  exact H.
Qed.

(** The steps of a well-formed state, event by event. *)
Lemma step_frame_idle (now : Z) (s : Component) :
  well_formed s -> callbacks s = [] ->
  step Math (AnimationFrame now) s = s.
Proof.
  intros [_ Hcl] Hcb. unfold step. simpl.
  rewrite frame_without_callback by exact Hcb.
  apply render_stored, Hcl.
Qed.

Lemma step_frame_tick (now : Z) (s : Component) (handle : positive)
    (callback : FrameRequestCallback) :
  well_formed s -> callbacks s = [(handle, callback)] ->
  step Math (AnimationFrame now) s =
  animate Math (callback_animate callback) (callback_startTime callback) now
    (set_callbacks [] s).
Proof.
  intros [_ Hcl] Hcb. unfold step. simpl.
  rewrite (frame_with_callback now s handle callback Hcb).
  apply render_after_animate. exact Hcl.
Qed.

Lemma step_stop (s : Component) :
  well_formed s -> step Math Stop s = stopAnimation s.
Proof.
  intros [_ Hcl]. unfold step. simpl. apply render_stored.
  unfold stopAnimation. destruct (animationFrameRef s); exact Hcl.
Qed.

Lemma step_image (file : option (option Image)) (type : string)
    (s : Component) :
  well_formed s ->
  step Math (ImageInput file type) s = handleImageUpload file type s.
Proof.
  intros [_ Hcl]. unfold step. simpl. apply render_stored.
  destruct file as [[img|]|]; simpl;
    [destruct (String.eqb type "before")| |]; exact Hcl.
Qed.

Lemma step_play (now1 now2 : Z) (s : Component) :
  well_formed s ->
  absent (beforeImage s) = false -> absent (afterImage s) = false ->
  step Math (Play now1 now2) s =
  animate Math (animateCallback s) now1 now2
    (setProgress 0 (setIsPlaying true (set_callbacks [] s))).
Proof.
  intros [(_ & _ & _ & Hp) Hcl] Hb Ha. unfold step. simpl.
  unfold playAnimation. rewrite Hb, Ha. simpl.
  pose proof (cancel_pending s Hp) as Hcb.
  assert (E : match animationFrameRef s with
              | Some handle => cancelAnimationFrame handle s
              | None => s
              end = set_callbacks [] s).
  { destruct (animationFrameRef s); simpl in Hcb.
    - unfold cancelAnimationFrame in *. simpl in Hcb. rewrite Hcb.
      reflexivity.
    - rewrite <- Hcb. destruct s; reflexivity. }
  rewrite E. simpl animateCallback.
  apply render_after_animate. exact Hcl.
Qed.

End DriverSteps.

(** ** Transform and clipping region

    Every effect leaves the transform and the clipping region of the
    context as it found them: it changes them only between a [save] and
    the [restore] that undoes it.  The [clearRect] that starts the next
    frame is therefore subject to the transform and clipping region that
    the first frame found. *)

Lemma nesting_app (d : nat) (frame1 frame2 : Frame) :
  nesting d (frame1 ++ frame2) =
  match nesting d frame1 with
  | Some d1 => nesting d1 frame2
  | None => None
  end.
Proof.
  revert d. induction frame1 as [|op frame1 IH]; intros d; [reflexivity|].
  destruct op; simpl; try apply IH; destruct d; try reflexivity; apply IH.
Qed.

Lemma nests_ret {A} (d : nat) (a : A) : nests d d (ret a).
Proof. intros r. split; [discriminate|reflexivity]. Qed.

Lemma nests_bind {A B} (d d1 d' : nat) (m : Draw A) (f : A -> Draw B) :
  nests d d1 m -> (forall a, nests d1 d' (f a)) -> nests d d' (bind m f).
Proof.
  intros Hm Hf r. destruct (Hm r) as [Hres Hnest].
  rewrite calls_bind, nesting_app, Hnest. unfold bind.
  destruct (result (m r)) as [a|]; [|congruence].
  simpl. apply Hf.
Qed.

Lemma nests_save (d : nat) : nests d (S d) (ctx save).
Proof. intros r. split; [discriminate|reflexivity]. Qed.

Lemma nests_restore (d : nat) : nests (S d) d (ctx restore).
Proof. intros r. split; [discriminate|reflexivity]. Qed.

Lemma nests_under_save (d : nat) (op : CanvasOp) :
  op <> save -> op <> restore -> nests (S d) (S d) (ctx op).
Proof.
  intros Hs Hr r. split; [discriminate|].
  destruct op; try reflexivity; congruence.
Qed.

Lemma nests_plain (d : nat) (op : CanvasOp) :
  op <> save -> op <> restore -> changes_transform_or_clip op = false ->
  nests d d (ctx op).
Proof.
  intros Hs Hr Hc r. split; [discriminate|].
  destruct op; try reflexivity; try congruence; discriminate Hc.
Qed.

Lemma nests_random (d : nat) : nests d d Math_random.
Proof. intros r. split; [discriminate|reflexivity]. Qed.

Lemma nests_iterate (d n : nat) (i step : Q) (body : Q -> Draw unit) :
  (forall j, nests d d (body j)) -> nests d d (iterate n i step body).
Proof.
  intros Hbody. revert i.
  induction n as [|n IH]; intros i; simpl.
  - apply nests_ret.
  - apply nests_bind with (d1 := d); auto.
Qed.

Lemma nests_for (d : nat) (init bound step : Q) (body : Q -> Draw unit) :
  (forall j, nests d d (body j)) -> nests d d (for_ init bound step body).
Proof. intros H. apply nests_iterate, H. Qed.

Lemma nests_when (d : nat) (b : bool) (m : Draw unit) :
  nests d d m -> nests d d (when b m).
Proof. intros H. destruct b; simpl; auto using nests_ret. Qed.

Ltac nests_step :=
  match goal with
  | |- nests _ _ (bind _ _) => eapply nests_bind; [|intros ?]
  | |- nests _ _ (ret _) => apply nests_ret
  | |- nests _ _ (ctx save) => apply nests_save
  | |- nests _ _ (ctx restore) => apply nests_restore
  | |- nests (S _) _ (ctx _) => apply nests_under_save; discriminate
  | |- nests _ _ (ctx _) => apply nests_plain; [discriminate..|reflexivity]
  | |- nests _ _ Math_random => apply nests_random
  | |- nests _ _ (for_ _ _ _ _) => apply nests_for; intros ?
  | |- nests _ _ (when _ _) => apply nests_when
  | |- nests _ _ (drawImage ?img _) =>
      unfold drawImage, ctx_drawImage5; destruct img
  | |- nests _ _ (ctx_drawImage9 _ _ _ _ _ _ _ _ _) => unfold ctx_drawImage9
  | |- nests _ _ (if ?c then _ else _) => destruct c
  | |- nests _ _ (match ?x with Some _ => _ | None => _ end) => destruct x
  end.

Lemma library_nests (Math : MathLib) (intensity : Q)
    (beforeImg afterImg : option Image) :
  Forall (fun e => forall t, nests 0 0 (snd e t))
    (effectLibrary Math beforeImg afterImg intensity).
Proof.
  unfold effectLibrary.
  destruct beforeImg as [b|], afterImg as [a|];
    repeat (apply Forall_cons;
            [intros t; cbn [fst snd];
             match goal with
             | |- nests _ _ (?f _) => let h := head_of f in unfold h
             end;
             cbv beta iota zeta delta [absent orb];
             repeat nests_step|]);
    apply Forall_nil.
Qed.

(** Decides [well_formed] on a closed state. *)
Ltac well_formed_by_computation :=
  unfold well_formed, mounted, one_pending; vm_compute;
  repeat split; try (let H := fresh in intro H; discriminate H);
  first [ left; reflexivity
        | right; eexists; eexists; split; reflexivity ].

(** * The specification, clause by clause *)

(** ** Starting without both bitmaps *)

(** C1. When [playAnimation] is called while the before bitmap or the
    after bitmap is absent, it shows one notice and returns: the state is
    the one before the call with that notice added, so [isPlaying] and
    [progress] are as they were and no animation frame is requested. *)
Theorem play_without_bitmap_rejected :
  forall (Math : MathLib) (now1 now2 : Z) (s : Component),
    beforeImage s = None \/ afterImage s = None ->
    let s' := playAnimation Math now1 now2 s in
    s' = set_alerts
           (alerts s ++ ["Please upload both BEFORE and AFTER images"%string])
           s /\
    alerts s' =
      alerts s ++ ["Please upload both BEFORE and AFTER images"%string] /\
    isPlaying s' = isPlaying s /\
    progress s' = progress s /\
    callbacks s' = callbacks s /\
    animationFrameRef s' = animationFrameRef s /\
    canvasRef s' = canvasRef s.
Proof.
  intros Math now1 now2 s H s'.
  assert (E : s' = alert "Please upload both BEFORE and AFTER images" s).
  { subst s'. unfold playAnimation.
    destruct H as [H|H]; rewrite H; simpl.
    - reflexivity.
    - rewrite orb_true_r. reflexivity. }
  rewrite E. repeat split.
Qed.

Lemma play_without_bitmap_rejected_witness :
  (beforeImage (mount 3 0.8 sample_oracle) = None \/
   afterImage (mount 3 0.8 sample_oracle) = None) /\
  let s := mount 3 0.8 sample_oracle in
  let s' := playAnimation sample_Math 0 0 s in
  isPlaying s' = false /\ progress s' = 0 /\ callbacks s' = [] /\
  List.length (alerts s') = 1%nat.
Proof.
  split.
  - left. reflexivity.
  - destruct (play_without_bitmap_rejected sample_Math 0 0
                (mount 3 0.8 sample_oracle) (or_introl eq_refl))
      as (_ & Ha & Hp & Hq & Hc & _).
    cbv zeta. rewrite Ha, Hp, Hq, Hc. repeat split.
Defined.

(** ** Absent bitmaps in the effects *)

(** C4. Every effect function of the library, at every progress (so at
    every progress of [0,1]), with the before bitmap or the after bitmap
    absent: it does not throw, makes no call on the surface, and returns
    at once. *)
Theorem effect_without_bitmap_is_noop :
  forall (Math : MathLib) (beforeImg afterImg : option Image) (intensity : Q)
         (id : string) (f : Q -> Draw unit) (t : Q) (r : Oracle),
    In (id, f) (effectLibrary Math beforeImg afterImg intensity) ->
    beforeImg = None \/ afterImg = None ->
    result (f t r) = Some tt /\ calls (f t r) = [] /\
    f t r = mkOutcome (Some tt) [] r.
Proof.
  intros Math beforeImg afterImg intensity id f t r Hin Habsent.
  assert (H : returns_at_once f).
  { destruct Habsent as [-> | ->].
    - pose proof (library_without_before Math intensity afterImg) as H.
      rewrite Forall_forall in H. exact (H _ Hin).
    - pose proof (library_without_after Math intensity beforeImg) as H.
      rewrite Forall_forall in H. exact (H _ Hin). }
  rewrite (H t r). repeat split.
Qed.

(** Finds an effect in the library. *)
Ltac in_library :=
  unfold effectLibrary; repeat (first [left; reflexivity | right]).

Lemma effect_without_bitmap_is_noop_witness :
  In ("shatter"%string, applyShatter sample_Math (Some sample_before) None 0.8)
    (effectLibrary sample_Math (Some sample_before) None 0.8) /\
  (Some sample_before = None \/ @None Image = None) /\
  applyShatter sample_Math (Some sample_before) None 0.8 (1 # 2)
    sample_oracle = mkOutcome (Some tt) [] sample_oracle.
Proof.
  assert (Hin : In ("shatter"%string,
                    applyShatter sample_Math (Some sample_before) None 0.8)
                  (effectLibrary sample_Math (Some sample_before) None 0.8))
    by in_library.
  split; [exact Hin|]. split; [right; reflexivity|].
  apply (effect_without_bitmap_is_noop sample_Math (Some sample_before) None
           0.8 "shatter" _ (1 # 2) sample_oracle Hin).
  right. reflexivity.
Defined.

(** ** Repainting *)

Lemma library_ids (Math : MathLib) (beforeImg afterImg : option Image)
    (intensity : Q) :
  map fst (effectLibrary Math beforeImg afterImg intensity) = effect_ids.
Proof. reflexivity. Qed.

Lemma library_lookup (Math : MathLib) (beforeImg afterImg : option Image)
    (intensity : Q) (id : string) (f : Q -> Draw unit) :
  In (id, f) (effectLibrary Math beforeImg afterImg intensity) ->
  f = getEffectFunction Math beforeImg afterImg intensity id.
Proof.
  intros Hin.
  pose proof (dispatch_recognized Math beforeImg afterImg intensity) as H.
  rewrite Forall_forall in H. symmetry. exact (H _ Hin).
Qed.

(** The frame of the pixelate effect when it downsamples: the surface is
    cleared, a bitmap is drawn, and only then is the surface read, reduced
    on the temporary canvas, and drawn back enlarged. *)
Lemma pixelate_frame (beforeImg afterImg : Image) (intensity t : Q)
    (r : Oracle) :
  Num.ltb 1 (pixelSize intensity t) = true ->
  let w := Math_floor (Num.div CANVAS_WIDTH (pixelSize intensity t)) in
  let h := Math_floor (Num.div CANVAS_HEIGHT (pixelSize intensity t)) in
  calls (applyPixelate (Some beforeImg) (Some afterImg) intensity t r) =
  clearRect 0 0 CANVAS_WIDTH CANVAS_HEIGHT ::
  calls (drawImage (Some (if Num.ltb t 0.5 then beforeImg else afterImg))
           1 r) ++
  [ set_imageSmoothingEnabled false;
    temp_create w h;
    temp_drawImage5 surfaceItself 0 0 w h;
    drawImage9 tempCanvas 0 0 w h 0 0 CANVAS_WIDTH CANVAS_HEIGHT;
    set_imageSmoothingEnabled true ].
Proof.
  intros Hsize w h. unfold applyPixelate.
  cbv beta iota zeta delta [absent orb].
  fold (pixelSize intensity t). rewrite Hsize.
  destruct (Num.ltb t 0.5); reflexivity.
Qed.

(** C8. With both bitmaps present, the first call of every effect function
    clears the whole 1080 by 1920 surface, and every effect function leaves
    the transform and the clipping region as it found them, for the
    [clearRect] of the next frame.  No effect but pixelate reads the
    surface; pixelate, when it downsamples, reads it after having cleared
    it and drawn a bitmap, through its temporary canvas. *)
Theorem effect_repaints_surface :
  forall (Math : MathLib) (beforeImg afterImg : Image) (intensity : Q)
         (id : string) (f : Q -> Draw unit),
    In (id, f)
      (effectLibrary Math (Some beforeImg) (Some afterImg) intensity) ->
    (forall (t : Q) (r : Oracle),
       exists rest : Frame, calls (f t r) = clearRect 0 0 1080 1920 :: rest) /\
    (forall (t : Q) (r : Oracle), nesting 0 (calls (f t r)) = Some 0%nat) /\
    (id <> "pixelate"%string ->
     forall (t : Q) (r : Oracle),
       forallb (fun op => negb (reads_surface op)) (calls (f t r)) = true) /\
    (id = "pixelate"%string ->
     forall (t : Q) (r : Oracle),
       Num.ltb 1 (pixelSize intensity t) = true ->
       let w := Math_floor (Num.div 1080 (pixelSize intensity t)) in
       let h := Math_floor (Num.div 1920 (pixelSize intensity t)) in
       calls (f t r) =
       clearRect 0 0 1080 1920 ::
       calls (drawImage (Some (if Num.ltb t 0.5 then beforeImg else afterImg))
                1 r) ++
       [ set_imageSmoothingEnabled false;
         temp_create w h;
         temp_drawImage5 surfaceItself 0 0 w h;
         drawImage9 tempCanvas 0 0 w h 0 0 1080 1920;
         set_imageSmoothingEnabled true ]).
Proof.
  intros Math beforeImg afterImg intensity id f Hin.
  split; [|split; [|split]].
  - pose proof (library_clears_first Math intensity beforeImg afterImg) as H.
    rewrite Forall_forall in H. exact (H _ Hin).
  - intros t r.
    pose proof (library_nests Math intensity (Some beforeImg) (Some afterImg))
      as H.
    rewrite Forall_forall in H. exact (proj2 (H _ Hin t r)).
  - intros Hid t.
    pose proof (library_reads_surface Math intensity beforeImg afterImg) as H.
    rewrite Forall_forall in H. exact (H _ Hin Hid t).
  - intros -> t r Hsize.
    rewrite (library_lookup _ _ _ _ _ _ Hin).
    exact (pixelate_frame beforeImg afterImg intensity t r Hsize).
Qed.

Lemma effect_repaints_surface_witness :
  In ("pixelate"%string,
      applyPixelate (Some sample_before) (Some sample_after) 0.8)
    (effectLibrary sample_Math (Some sample_before) (Some sample_after) 0.8) /\
  calls (applyPixelate (Some sample_before) (Some sample_after) 0.8 (1 # 4)
           sample_oracle) =
  [ clearRect 0 0 1080 1920;
    save; set_globalAlpha 1;
    drawImage5 (bitmap sample_before) 0 0 1080 1920;
    restore;
    set_imageSmoothingEnabled false;
    temp_create 27 48;
    temp_drawImage5 surfaceItself 0 0 27 48;
    drawImage9 tempCanvas 0 0 27 48 0 0 1080 1920;
    set_imageSmoothingEnabled true ].
Proof.
  assert (Hin : In ("pixelate"%string,
                    applyPixelate (Some sample_before) (Some sample_after) 0.8)
                  (effectLibrary sample_Math (Some sample_before)
                     (Some sample_after) 0.8))
    by in_library.
  split; [exact Hin|].
  destruct (effect_repaints_surface sample_Math sample_before sample_after
              0.8 "pixelate" _ Hin) as (_ & _ & _ & H).
  rewrite (H eq_refl (1 # 4) sample_oracle eq_refl).
  reflexivity.
Defined.

(** ** Unknown effect names *)

(** C10. The effect picker has 50 identifiers, and for every other value
    of the selection [getEffectFunction] returns the Shock Zoom effect
    function: the dispatch has a result for every string. *)
Theorem unknown_effect_is_shock_zoom :
  forall (Math : MathLib) (beforeImg afterImg : option Image) (intensity : Q)
         (selectedEffect : string),
    ~ In selectedEffect effect_ids ->
    List.length effect_ids = 50%nat /\
    getEffectFunction Math beforeImg afterImg intensity selectedEffect =
    applyShockZoom beforeImg afterImg intensity.
Proof.
  intros Math beforeImg afterImg intensity selectedEffect H.
  split; [reflexivity|].
  apply dispatch_default. rewrite library_ids. exact H.
Qed.

Lemma unknown_effect_is_shock_zoom_witness :
  ~ In "sparkle"%string effect_ids /\
  getEffectFunction sample_Math (Some sample_before) (Some sample_after) 0.8
    "sparkle" =
  applyShockZoom (Some sample_before) (Some sample_after) 0.8.
Proof.
  assert (H : ~ In "sparkle"%string effect_ids).
  { intros H. unfold effect_ids in H. simpl in H.
    repeat (destruct H as [H|H]; [discriminate H|]). exact H. }
  split; [exact H|].
  exact (proj2 (unknown_effect_is_shock_zoom sample_Math (Some sample_before)
                  (Some sample_after) 0.8 "sparkle" H)).
Defined.

(** ** A tick *)

Lemma canvas_of_well_formed (s : Component) :
  well_formed s -> canvasRef s = Some (surface s).
Proof.
  intros [(Hc & _) _]. unfold surface.
  destruct (canvasRef s); [reflexivity|congruence].
Qed.

Lemma derived_progress_le_1 (duration : Q) (startTime now : Z) :
  (derived_progress duration startTime now <= 1)%Q.
Proof. apply Q.le_min_r. Qed.

Lemma derived_progress_reaches_1 (duration : Q) (startTime now : Z) :
  Num.ltb (derived_progress duration startTime now) 1 = false ->
  (derived_progress duration startTime now == 1)%Q.
Proof.
  intros H. apply ltb_ge in H.
  apply Qle_antisym; [apply derived_progress_le_1|exact H].
Qed.

(** What a tick does. *)
Lemma tick_spec :
  forall (Math : MathLib) (s : Component) (handle : positive)
         (callback : FrameRequestCallback) (now : Z),
    well_formed s ->
    callbacks s = [(handle, callback)] ->
    let c := callback_animate callback in
    let startTime := callback_startTime callback in
    let t := derived_progress (closed_duration c) startTime now in
    let s' := step Math (AnimationFrame now) s in
    progress s' = t /\
    surface s' = surface s ++ rendered_frame Math c startTime now s /\
    callbacks s' = (if Num.ltb t 1 then [(nextHandle s, callback)] else []) /\
    animationFrameRef s' =
      (if Num.ltb t 1 then Some (nextHandle s) else animationFrameRef s) /\
    isPlaying s' = (if Num.ltb t 1 then isPlaying s else false).
Proof.
  intros Math s handle callback now Hwf Hcb c startTime t s'.
  subst s'. rewrite (step_frame_tick Math now s handle callback Hwf Hcb).
  destruct (animate_facts Math c startTime now (set_callbacks [] s)
              (surface s) (canvas_of_well_formed s Hwf) eq_refl)
    as (Hp & Hs & Hk & Hr & Hi & _).
  fold c startTime. cbv zeta in Hp, Hs, Hk, Hr, Hi. fold t in Hk, Hr, Hi.
  destruct callback as [c' startTime']. simpl in c, startTime.
  subst c startTime. auto.
Qed.

(** ** Stopping *)

Section Idle.

Variable Math : MathLib.

Lemma surface_render (s : Component) : surface (render s) = surface s.
Proof. rewrite render_stores. reflexivity. Qed.

Lemma callbacks_render (s : Component) : callbacks (render s) = callbacks s.
Proof. rewrite render_stores. reflexivity. Qed.

Lemma progress_render (s : Component) : progress (render s) = progress s.
Proof. rewrite render_stores. reflexivity. Qed.

Lemma surface_stopAnimation (s : Component) :
  surface (stopAnimation s) = surface s.
Proof. unfold stopAnimation. destruct (animationFrameRef s); reflexivity. Qed.

(** With no callback pending, an event that does not ask to play leaves
    the list empty and the surface as it was. *)
Lemma idle_step (e : Event) (s : Component) :
  well_formed s -> callbacks s = [] -> no_play_request [e] = true ->
  callbacks (step Math e s) = [] /\ surface (step Math e s) = surface s.
Proof.
  intros Hwf Hcb He.
  destruct e as [file type|id|d|i|now1 now2|now1 now2| |now];
    try discriminate He.
  - rewrite (step_image Math file type s Hwf).
    destruct file as [[img|]|]; simpl;
      [destruct (String.eqb type "before")| |]; split; assumption || reflexivity.
  - unfold step. rewrite callbacks_render, surface_render. split; assumption || reflexivity.
  - unfold step. rewrite callbacks_render, surface_render. split; assumption || reflexivity.
  - unfold step. rewrite callbacks_render, surface_render. split; assumption || reflexivity.
  - rewrite (step_stop Math s Hwf). split.
    + apply stopAnimation_callbacks. left. exact Hcb.
    + apply surface_stopAnimation.
  - rewrite (step_frame_idle Math now s Hwf Hcb). split; assumption || reflexivity.
Qed.

Lemma idle_run (es : list Event) (s : Component) :
  well_formed s -> callbacks s = [] -> no_play_request es = true ->
  surface (run Math es s) = surface s /\
  Forall (fun frame => frame = []) (frames Math es s).
Proof.
  revert s. induction es as [|e es IH]; intros s Hwf Hcb Hes; simpl.
  - split; [reflexivity|constructor].
  - simpl in Hes. apply andb_true_iff in Hes. destruct Hes as [He Hes].
    assert (He' : no_play_request [e] = true) by (simpl; rewrite He; reflexivity).
    destruct (idle_step e s Hwf Hcb He') as [Hcb' Hs'].
    destruct (IH (step Math e s) (step_well_formed Math e s Hwf) Hcb' Hes)
      as [Hrun Hframes].
    split.
    + rewrite Hrun. exact Hs'.
    + constructor; [|exact Hframes].
      unfold drawn_by. rewrite Hs'. apply skipn_all.
Qed.

End Idle.

(** C6. A stop request empties the animation frame callback list and sets
    [isPlaying] to false at once; from then on, whatever happens short of
    a play request (animation frames of the browser included), no frame is
    drawn and the surface stays as it was. *)
Theorem stop_halts_frames :
  forall (Math : MathLib) (s : Component) (es : list Event),
    well_formed s ->
    no_play_request es = true ->
    let stopped := step Math Stop s in
    callbacks stopped = [] /\
    animationFrameRef stopped = None /\
    isPlaying stopped = false /\
    surface stopped = surface s /\
    surface (run Math es stopped) = surface stopped /\
    Forall (fun frame => frame = []) (frames Math es stopped).
Proof.
  intros Math s es Hwf Hes stopped.
  assert (Hcb : callbacks stopped = []).
  { subst stopped. rewrite (step_stop Math s Hwf).
    apply stopAnimation_callbacks. apply Hwf. }
  assert (Hwf' : well_formed stopped)
    by (apply step_well_formed; exact Hwf).
  destruct (idle_run Math es stopped Hwf' Hcb Hes) as [Hrun Hframes].
  assert (Es : stopped = stopAnimation s) by (apply step_stop; exact Hwf).
  repeat split; try assumption; rewrite Es.
  - unfold stopAnimation.
    destruct (animationFrameRef s) eqn:E; simpl; [reflexivity|exact E].
  - unfold stopAnimation. destruct (animationFrameRef s); reflexivity.
  - apply surface_stopAnimation.
Qed.

Lemma stop_halts_frames_witness :
  well_formed sample_running /\
  no_play_request [AnimationFrame 500; DurationSlider 5; AnimationFrame 900]
    = true /\
  callbacks sample_running <> [] /\
  let stopped := step sample_Math Stop sample_running in
  callbacks stopped = [] /\
  surface
    (run sample_Math
       [AnimationFrame 500; DurationSlider 5; AnimationFrame 900] stopped) =
  surface sample_running.
Proof.
  assert (Hwf : well_formed sample_running) by well_formed_by_computation.
  split; [exact Hwf|]. split; [reflexivity|].
  split; [vm_compute; discriminate|].
  destruct (stop_halts_frames sample_Math sample_running
              [AnimationFrame 500; DurationSlider 5; AnimationFrame 900]
              Hwf eq_refl) as (Hcb & _ & _ & Hs & Hrun & _).
  cbv zeta. split; [exact Hcb|]. rewrite Hrun. exact Hs.
Defined.

(** ** Progress within a run *)

Lemma Qmin_eq_l (x y z : Q) : (x == y)%Q -> (Qmin x z == Qmin y z)%Q.
Proof.
  intros H. apply Qle_antisym; apply Q.min_le_compat_r; rewrite H;
    apply Qle_refl.
Qed.

Lemma derived_is_spec (duration : Q) (startTime now : Z) :
  (derived_progress duration startTime now ==
   spec_progress duration startTime now)%Q.
Proof.
  unfold derived_progress, spec_progress, Math_min.
  apply Qmin_eq_l.
  rewrite !div_correct, sub_correct.
  unfold Z.sub. rewrite inject_Z_plus, inject_Z_opp. reflexivity.
Qed.

Lemma spec_progress_range (duration : Q) (startTime now : Z) :
  (0 < duration)%Q -> (startTime <= now)%Z ->
  (0 <= spec_progress duration startTime now <= 1)%Q.
Proof.
  intros Hd Hnow. unfold spec_progress. split.
  - apply Q.min_glb; [|discriminate].
    apply Qmult_le_0_compat.
    + apply Qmult_le_0_compat; [|discriminate].
      change 0%Q with (inject_Z 0). rewrite <- Zle_Qle. lia.
    + apply Qinv_le_0_compat, Qlt_le_weak, Hd.
  - apply Q.le_min_r.
Qed.

Lemma spec_progress_monotone (duration : Q) (startTime now now' : Z) :
  (0 < duration)%Q -> (now <= now')%Z ->
  (spec_progress duration startTime now <=
   spec_progress duration startTime now')%Q.
Proof.
  intros Hd Hnow. unfold spec_progress.
  apply Q.min_le_compat_r.
  apply Qmult_le_compat_r.
  - apply Qmult_le_compat_r; [|discriminate].
    rewrite <- Zle_Qle. lia.
  - apply Qinv_le_0_compat, Qlt_le_weak, Hd.
Qed.

Lemma derived_progress_range (duration : Q) (startTime now : Z) :
  (0 < duration)%Q -> (startTime <= now)%Z ->
  (0 <= derived_progress duration startTime now <= 1)%Q.
Proof.
  intros Hd Hnow. rewrite derived_is_spec.
  apply spec_progress_range; assumption.
Qed.

Lemma derived_progress_monotone (duration : Q) (startTime now now' : Z) :
  (0 < duration)%Q -> (now <= now')%Z ->
  (derived_progress duration startTime now <=
   derived_progress duration startTime now')%Q.
Proof.
  intros Hd Hnow. rewrite !derived_is_spec.
  apply spec_progress_monotone; assumption.
Qed.

Section Run.

Variable Math : MathLib.

(** The events that neither play nor tick leave [progress] as it was, and
    the callback list as it was or empty. *)
Lemma quiet_step (e : Event) (s : Component) :
  well_formed s -> no_play_request [e] = true ->
  (forall now, e <> AnimationFrame now) ->
  progress (step Math e s) = progress s /\
  (callbacks (step Math e s) = callbacks s \/ callbacks (step Math e s) = []).
Proof.
  intros Hwf He Hnot.
  destruct e as [file type|id|d|i|now1 now2|now1 now2| |now];
    try discriminate He.
  - rewrite (step_image Math file type s Hwf).
    destruct file as [[img|]|]; simpl;
      [destruct (String.eqb type "before")| |]; auto.
  - unfold step. rewrite callbacks_render, progress_render. auto.
  - unfold step. rewrite callbacks_render, progress_render. auto.
  - unfold step. rewrite callbacks_render, progress_render. auto.
  - rewrite (step_stop Math s Hwf). split.
    + unfold stopAnimation. destruct (animationFrameRef s); reflexivity.
    + right. apply stopAnimation_callbacks. apply Hwf.
  - destruct (Hnot now eq_refl).
Qed.

Lemma in_run_intro (duration : Q) (startTime last : Z) (s : Component) :
  well_formed s ->
  (forall handle callback,
     callbacks s = [(handle, callback)] ->
     closed_duration (callback_animate callback) = duration /\
     callback_startTime callback = startTime) ->
  (0 <= progress s)%Q -> (progress s <= 1)%Q ->
  (progress s <= derived_progress duration startTime last)%Q ->
  (startTime <= last)%Z ->
  in_run duration startTime last s.
Proof. unfold in_run. intuition. Qed.

Lemma in_run_step (duration : Q) (startTime last : Z) (e : Event)
    (s : Component) :
  (0 < duration)%Q ->
  in_run duration startTime last s ->
  no_play_request [e] = true ->
  clock_advances last [e] ->
  in_run duration startTime (clock_after last e) (step Math e s) /\
  (progress s <= progress (step Math e s))%Q /\
  Forall (fun tick =>
            snd tick = derived_progress duration startTime (fst tick))
    (ticks Math [e] s).
Proof.
  intros Hd (Hwf & Hcb & [Hge0 Hle1] & Hle & Hlast) He Hclock.
  pose proof (step_well_formed Math e s Hwf) as Hwf'.
  destruct (match e with AnimationFrame _ => true | _ => false end) eqn:Ekind.
  - destruct e as [| | | | | | |now]; try discriminate Ekind.
    simpl in Hclock. destruct Hclock as [Hnow _]. simpl clock_after.
    assert (Hmono : (derived_progress duration startTime last <=
                     derived_progress duration startTime now)%Q)
      by (apply derived_progress_monotone; assumption).
    destruct (proj1 Hwf) as (_ & _ & _ & [Hnil|(h & cb & Hone & Href)]).
    + simpl ticks. rewrite Hnil. simpl.
      rewrite (step_frame_idle Math now s Hwf Hnil).
      split; [apply in_run_intro; try assumption|split].
      * eapply Qle_trans; eassumption.
      * lia.
      * apply Qle_refl.
      * constructor.
    + destruct (Hcb h cb Hone) as [Ed Est].
      destruct (tick_spec Math s h cb now Hwf Hone) as (Hp & _ & Hk & _).
      cbv zeta in Hp, Hk. rewrite Ed, Est in Hp, Hk.
      simpl ticks. rewrite Hone. simpl.
      assert (Hrange' : (0 <= derived_progress duration startTime now <= 1)%Q)
        by (apply derived_progress_range; [assumption|lia]).
      split; [apply in_run_intro; try assumption|split].
      * intros h' cb' Hcb'. rewrite Hk in Hcb'.
        destruct (Num.ltb _ 1).
        -- injection Hcb' as _ <-. auto.
        -- discriminate Hcb'.
      * rewrite Hp. apply Hrange'.
      * rewrite Hp. apply Hrange'.
      * rewrite Hp. apply Qle_refl.
      * lia.
      * rewrite Hp. eapply Qle_trans; eassumption.
      * constructor; [exact Hp|constructor].
  - assert (Hnot : forall now, e <> AnimationFrame now)
      by (intros now ->; discriminate Ekind).
    destruct (quiet_step e s Hwf He Hnot) as [Hp Hcbs].
    assert (Eclock : clock_after last e = last)
      by (destruct e; try reflexivity; discriminate Ekind).
    assert (Eticks : ticks Math [e] s = [])
      by (destruct e; try reflexivity; discriminate Ekind).
    rewrite Eclock, Eticks, Hp.
    split; [apply in_run_intro; try assumption|split].
    + intros h cb Hone. destruct Hcbs as [E|E]; rewrite E in Hone.
      * exact (Hcb h cb Hone).
      * discriminate Hone.
    + rewrite Hp. exact Hge0.
    + rewrite Hp. exact Hle1.
    + rewrite Hp. exact Hle.
    + apply Qle_refl.
    + constructor.
Qed.

Lemma clock_advances_cons (last : Z) (e : Event) (es : list Event) :
  clock_advances last (e :: es) ->
  clock_advances last [e] /\ clock_advances (clock_after last e) es.
Proof. destruct e; simpl; tauto. Qed.

Lemma in_run_trace (duration : Q) (startTime : Z) (es : list Event) :
  (0 < duration)%Q ->
  forall (last : Z) (s : Component),
    in_run duration startTime last s ->
    no_play_request es = true ->
    clock_advances last es ->
    Forall (fun tick =>
              snd tick = derived_progress duration startTime (fst tick))
      (ticks Math es s) /\
    Forall (fun t => 0 <= t <= 1)%Q (progresses Math es s) /\
    Sorted Qle (progress s :: progresses Math es s).
Proof.
  intros Hd. induction es as [|e es IH]; intros last s Hrun Hes Hclock.
  - simpl. repeat constructor.
  - simpl in Hes. apply andb_true_iff in Hes. destruct Hes as [He Hes].
    assert (He' : no_play_request [e] = true)
      by (simpl; rewrite He; reflexivity).
    destruct (clock_advances_cons last e es Hclock) as [Hc1 Hc2].
    destruct (in_run_step duration startTime last e s Hd Hrun He' Hc1)
      as (Hrun' & Hle & Hticks).
    destruct (IH _ _ Hrun' Hes Hc2) as (IHt & IHr & IHs).
    split; [|split].
    + change (ticks Math (e :: es) s)
        with (match e, callbacks s with
              | AnimationFrame now, _ :: _ =>
                  [(now, progress (step Math e s))]
              | _, _ => []
              end ++ ticks Math es (step Math e s)).
      apply Forall_app. split; [|exact IHt].
      simpl in Hticks. rewrite app_nil_r in Hticks. exact Hticks.
    + simpl. constructor; [|exact IHr]. apply Hrun'.
    + simpl. constructor; [exact IHs|]. constructor. exact Hle.
Qed.

(** The state a play request leaves, when both bitmaps are there. *)
Lemma play_starts_run (now1 now2 : Z) (s : Component) :
  well_formed s ->
  absent (beforeImage s) = false -> absent (afterImage s) = false ->
  (0 < duration s)%Q -> (now1 <= now2)%Z ->
  let started := step Math (Play now1 now2) s in
  progress started = derived_progress (duration s) now1 now2 /\
  in_run (duration s) now1 now2 started.
Proof.
  intros Hwf Hb Ha Hd Hnow started.
  assert (Hwf' : well_formed started)
    by (apply step_well_formed; exact Hwf).
  assert (Hcanvas : exists canvas, canvasRef s = Some canvas).
  { destruct Hwf as [(Hc & _) _].
    destruct (canvasRef s) as [canvas|]; [eauto|congruence]. }
  destruct Hcanvas as (canvas & Hcanvas).
  assert (Es : started =
               animate Math (animateCallback s) now1 now2
                 (setProgress 0 (setIsPlaying true (set_callbacks [] s))))
    by (apply step_play; assumption).
  rewrite (animate_spec Math (animateCallback s) now1 now2
             (setProgress 0 (setIsPlaying true (set_callbacks [] s)))
             canvas Hcanvas) in Es.
  cbv zeta in Es. rewrite (proj2 Hwf) in Es. simpl closed_duration in Es.
  pose proof (derived_progress_range (duration s) now1 now2 Hd Hnow)
    as Hrange.
  assert (Hp : progress started = derived_progress (duration s) now1 now2)
    by (rewrite Es; destruct (Num.ltb _ 1); reflexivity).
  split; [exact Hp|].
  apply in_run_intro; try exact Hwf'.
  - intros h cb Hcb. rewrite Es in Hcb.
    destruct (Num.ltb _ 1); simpl in Hcb.
    + injection Hcb as _ <-. split; reflexivity.
    + discriminate Hcb.
  - rewrite Hp. apply Hrange.
  - rewrite Hp. apply Hrange.
  - rewrite Hp. apply Qle_refl.
  - exact Hnow.
Qed.

End Run.

(** C2. Within a run (a play request that starts, then events none of
    which asks to play), with a clock that does not go back and a positive
    duration: the progress of every tick is the elapsed time over the
    duration, at most 1; every value [progress] takes is in [0,1]; and
    these values never decrease, however far the elapsed time exceeds the
    duration. *)
Theorem progress_within_run :
  forall (Math : MathLib) (s : Component) (now1 now2 : Z) (es : list Event),
    well_formed s ->
    absent (beforeImage s) = false -> absent (afterImage s) = false ->
    (0 < duration s)%Q ->
    (now1 <= now2)%Z ->
    clock_advances now2 es ->
    no_play_request es = true ->
    let started := step Math (Play now1 now2) s in
    Forall (fun tick =>
              snd tick = derived_progress (duration s) now1 (fst tick) /\
              (snd tick == spec_progress (duration s) now1 (fst tick))%Q)
      ((now2, progress started) :: ticks Math es started) /\
    Forall (fun t => 0 <= t <= 1)%Q
      (progress started :: progresses Math es started) /\
    Sorted Qle (progress started :: progresses Math es started).
Proof.
  intros Math s now1 now2 es Hwf Hb Ha Hd Hnow Hclock Hes started.
  destruct (play_starts_run Math now1 now2 s Hwf Hb Ha Hd Hnow)
    as [Hp Hrun].
  fold started in Hp, Hrun.
  destruct (in_run_trace Math (duration s) now1 es Hd now2 started Hrun Hes
              Hclock) as (Hticks & Hrange & Hsorted).
  split; [|split].
  - assert (Hall : Forall
                     (fun tick =>
                        snd tick =
                        derived_progress (duration s) now1 (fst tick))
                     ((now2, progress started) :: ticks Math es started))
      by (constructor; [exact Hp|exact Hticks]).
    eapply Forall_impl; [|exact Hall].
    intros tick E. split; [exact E|]. rewrite E. apply derived_is_spec.
  - constructor; [apply Hrun|exact Hrange].
  - exact Hsorted.
Qed.

Lemma progress_within_run_witness :
  let es :=
    [AnimationFrame 500; IntensitySlider 0.5; AnimationFrame 1000;
     AnimationFrame 2500; Stop; AnimationFrame 3000] in
  let started := step sample_Math (Play 0 1) sample_ready in
  well_formed sample_ready /\
  absent (beforeImage sample_ready) = false /\
  absent (afterImage sample_ready) = false /\
  (0 < duration sample_ready)%Q /\
  (0 <= 1)%Z /\
  clock_advances 1 es /\
  no_play_request es = true /\
  progress started :: progresses sample_Math es started =
    [1 # 2000; 1 # 4; 1 # 4; 1 # 2; 1; 1; 1] /\
  Sorted Qle (progress started :: progresses sample_Math es started).
Proof.
  intros es started.
  assert (Hwf : well_formed sample_ready) by well_formed_by_computation.
  assert (Hclock : clock_advances 1 es) by (simpl; lia).
  assert (Hd : (0 < duration sample_ready)%Q) by reflexivity.
  assert (Hnow : (0 <= 1)%Z) by lia.
  repeat (split; [first [assumption | vm_compute; reflexivity]|]).
  exact (proj2 (proj2 (progress_within_run sample_Math sample_ready 0 1 es
                         Hwf eq_refl eq_refl Hd Hnow Hclock eq_refl))).
Defined.

(** ** The fade cross, half way *)

Lemma skipn_length_app {A} (l l' : list A) :
  skipn (List.length l) (l ++ l') = l'.
Proof. induction l as [|x l IH]; simpl; auto. Qed.

Lemma elapsed_one_second (startTime : Z) :
  Num.sub (inject_Z (startTime + 1000)) (inject_Z startTime) = 1000.
Proof.
  unfold Num.sub. change 1000 with (Qred 1000). apply Qred_complete.
  rewrite inject_Z_plus. ring.
Qed.

(** C5. A run of "fadeCross" with a duration of 2 seconds and an intensity
    of 0.8: the tick that reads the clock 1.0 second after the start
    derives the progress 0.5 and draws, on the cleared surface, the before
    bitmap at global alpha 0.5 and then, over it, the after bitmap at
    global alpha 0.5. *)
Theorem fade_cross_half_way :
  forall (Math : MathLib) (s : Component) (handle : positive)
         (callback : FrameRequestCallback) (beforeImg afterImg : Image),
    well_formed s ->
    callbacks s = [(handle, callback)] ->
    callback_animate callback = mkClosure 2 "fadeCross" 0.8 ->
    beforeImageRef s = Some beforeImg ->
    afterImageRef s = Some afterImg ->
    let now := (callback_startTime callback + 1000)%Z in
    progress (step Math (AnimationFrame now) s) = 1 # 2 /\
    drawn_by Math (AnimationFrame now) s =
      clearRect 0 0 1080 1920 ::
      drawn_image beforeImg (1 # 2) ++ drawn_image afterImg (1 # 2).
Proof.
  intros Math s handle callback beforeImg afterImg Hwf Hcb Hc Hb Ha now.
  destruct (tick_spec Math s handle callback now Hwf Hcb)
    as (Hp & Hs & _).
  cbv zeta in Hp, Hs. rewrite Hc in Hp, Hs. simpl closed_duration in Hp, Hs.
  assert (Et : derived_progress 2 (callback_startTime callback) now = 1 # 2).
  { unfold derived_progress, now. rewrite elapsed_one_second. reflexivity. }
  rewrite Et in Hp. split; [exact Hp|].
  unfold drawn_by. rewrite Hs, skipn_length_app.
  unfold rendered_frame. simpl closed_duration. rewrite Hb, Ha, Et.
  reflexivity.
Qed.

Lemma fade_cross_half_way_witness :
  well_formed sample_running /\
  callbacks sample_running =
    [(1%positive, mkCallback (mkClosure 2 "fadeCross" 0.8) 0)] /\
  beforeImageRef sample_running = Some sample_before /\
  afterImageRef sample_running = Some sample_after /\
  progress (step sample_Math (AnimationFrame 1000) sample_running) = 1 # 2 /\
  drawn_by sample_Math (AnimationFrame 1000) sample_running =
    [ clearRect 0 0 1080 1920;
      save; set_globalAlpha (1 # 2);
      drawImage5 (bitmap sample_before) 0 0 1080 1920; restore;
      save; set_globalAlpha (1 # 2);
      drawImage5 (bitmap sample_after) 0 0 1080 1920; restore ].
Proof.
  assert (Hwf : well_formed sample_running) by well_formed_by_computation.
  assert (Hcb : callbacks sample_running =
                [(1%positive, mkCallback (mkClosure 2 "fadeCross" 0.8) 0)])
    by (vm_compute; reflexivity).
  split; [exact Hwf|]. split; [exact Hcb|].
  split; [vm_compute; reflexivity|]. split; [vm_compute; reflexivity|].
  destruct (fade_cross_half_way sample_Math sample_running 1%positive _
              sample_before sample_after Hwf Hcb eq_refl eq_refl eq_refl)
    as [Hp Hd].
  split; [exact Hp|]. simpl Z.add in Hd. rewrite Hd. reflexivity.
Defined.

(** ** A tick of a run *)

(** C7. A tick of a run whose settings are those of its play request (the
    pending callback closes over the duration, the selection and the
    intensity of the state), with a positive duration and a clock that is
    not before the start of the run.  The progress is the elapsed time in
    seconds over the duration, at most 1, and lies in [0,1]; the frame
    drawn is the one of the effect function that the library holds for the
    selected effect, called with that progress; a successor is requested
    if and only if the progress is below 1; when the progress is 1 the
    frame is drawn all the same, [isPlaying] becomes false and nothing is
    requested. *)
Theorem tick_draws_and_reschedules :
  forall (Math : MathLib) (s : Component) (handle : positive)
         (callback : FrameRequestCallback) (now : Z)
         (effectFn : Q -> Draw unit),
    well_formed s ->
    callbacks s = [(handle, callback)] ->
    callback_animate callback =
      mkClosure (duration s) (selectedEffect s) (intensity s) ->
    In (selectedEffect s, effectFn)
      (effectLibrary Math (beforeImageRef s) (afterImageRef s)
         (intensity s)) ->
    (0 < duration s)%Q ->
    (callback_startTime callback <= now)%Z ->
    let startTime := callback_startTime callback in
    let t := derived_progress (duration s) startTime now in
    let s' := step Math (AnimationFrame now) s in
    (t == spec_progress (duration s) startTime now)%Q /\
    (0 <= t <= 1)%Q /\
    progress s' = t /\
    drawn_by Math (AnimationFrame now) s = calls (effectFn t (random s)) /\
    surface s' = surface s ++ calls (effectFn t (random s)) /\
    ((t < 1)%Q ->
     isPlaying s' = isPlaying s /\
     exists handle',
       callbacks s' = [(handle', callback)] /\
       animationFrameRef s' = Some handle') /\
    (~ (t < 1)%Q ->
     (t == 1)%Q /\ isPlaying s' = false /\ callbacks s' = []) /\
    (callbacks s' <> [] <-> (t < 1)%Q).
Proof.
  intros Math s handle callback now effectFn Hwf Hcb Hsame Hin Hd Hnow
         startTime t s'.
  destruct (tick_spec Math s handle callback now Hwf Hcb)
    as (Hp & Hs & Hk & Hr & Hi).
  cbv zeta in Hp, Hs, Hk, Hr, Hi.
  assert (Hframe : rendered_frame Math (callback_animate callback)
                     (callback_startTime callback) now s =
                   calls (effectFn t (random s))).
  { unfold rendered_frame. rewrite Hsame. simpl.
    rewrite <- (library_lookup Math _ _ _ _ _ Hin). reflexivity. }
  rewrite Hframe in Hs. rewrite Hsame in Hp, Hk, Hr, Hi.
  simpl closed_duration in Hp, Hk, Hr, Hi.
  fold startTime t s' in Hp, Hs, Hk, Hr, Hi.
  split; [apply derived_is_spec|].
  split; [apply derived_progress_range; assumption|].
  split; [exact Hp|].
  split; [unfold drawn_by; fold s'; rewrite Hs; apply skipn_length_app|].
  split; [exact Hs|].
  destruct (Num.ltb t 1) eqn:Et.
  - apply ltb_lt in Et. split; [|split].
    + intros _. split; [exact Hi|]. exists (nextHandle s). auto.
    + intros H. destruct (H Et).
    + rewrite Hk. split; [intros _; exact Et|discriminate].
  - pose proof (derived_progress_reaches_1 _ _ _ Et) as E1.
    apply ltb_ge in Et. split; [|split].
    + intros H. destruct (Qlt_not_le _ _ H Et).
    + intros _. auto.
    + rewrite Hk. split; [intros H; destruct H; reflexivity|].
      intros H. destruct (Qlt_not_le _ _ H Et).
Qed.

Lemma tick_draws_and_reschedules_witness :
  well_formed sample_running /\
  callbacks sample_running =
    [(1%positive, mkCallback (mkClosure 2 "fadeCross" 0.8) 0)] /\
  (duration sample_running, selectedEffect sample_running,
   intensity sample_running) = (2, "fadeCross"%string, 0.8) /\
  let s' := step sample_Math (AnimationFrame 500) sample_running in
  progress s' = 1 # 4 /\
  drawn_by sample_Math (AnimationFrame 500) sample_running =
    [ clearRect 0 0 1080 1920;
      save; set_globalAlpha (3 # 4);
      drawImage5 (bitmap sample_before) 0 0 1080 1920; restore;
      save; set_globalAlpha (1 # 4);
      drawImage5 (bitmap sample_after) 0 0 1080 1920; restore ] /\
  callbacks s' = [(2%positive, mkCallback (mkClosure 2 "fadeCross" 0.8) 0)] /\
  isPlaying s' = true.
Proof.
  assert (Hwf : well_formed sample_running) by well_formed_by_computation.
  assert (Hcb : callbacks sample_running =
                [(1%positive, mkCallback (mkClosure 2 "fadeCross" 0.8) 0)])
    by (vm_compute; reflexivity).
  assert (Hin : In (selectedEffect sample_running,
                    applyFadeCross (beforeImageRef sample_running)
                      (afterImageRef sample_running))
                  (effectLibrary sample_Math (beforeImageRef sample_running)
                     (afterImageRef sample_running)
                     (intensity sample_running))).
  { change (selectedEffect sample_running) with "fadeCross"%string.
    in_library. }
  split; [exact Hwf|]. split; [exact Hcb|].
  split; [vm_compute; reflexivity|].
  destruct (tick_draws_and_reschedules sample_Math sample_running 1%positive
              _ 500%Z _ Hwf Hcb eq_refl Hin eq_refl)
    as (_ & _ & Hp & Hdrawn & _).
  { vm_compute. discriminate. }
  cbv zeta. split; [rewrite Hp; vm_compute; reflexivity|].
  split; [rewrite Hdrawn; vm_compute; reflexivity|].
  split; vm_compute; reflexivity.
Defined.

(** ** Running again *)

Section Rerun.

Variable Math : MathLib.

Lemma dispatch_ignores_oracle (beforeImg afterImg : option Image)
    (intensity : Q) (id : string) (t : Q) :
  draws_randomly id = false ->
  ignores_oracle (getEffectFunction Math beforeImg afterImg intensity id t).
Proof.
  intros Hid.
  pose proof (library_ignores_oracle Math intensity beforeImg afterImg) as H.
  rewrite Forall_forall in H.
  destruct (in_dec string_dec id effect_ids) as [Hin|Hout].
  - rewrite <- (library_ids Math beforeImg afterImg intensity) in Hin.
    apply in_map_iff in Hin. destruct Hin as ([id' f] & E & Hin).
    simpl in E. subst id'.
    rewrite <- (library_lookup Math _ _ _ id f Hin).
    exact (H (id, f) Hin Hid t).
  - rewrite (dispatch_default Math beforeImg afterImg intensity id)
      by (rewrite library_ids; exact Hout).
    apply (H ("shockZoom"%string, applyShockZoom beforeImg afterImg intensity)).
    + left. reflexivity.
    + reflexivity.
Qed.

(** The progress derived depends on the elapsed time only. *)
Lemma derived_progress_shift (duration : Q) (startTime now delay : Z) :
  derived_progress duration (startTime + delay) (now + delay) =
  derived_progress duration startTime now.
Proof.
  unfold derived_progress. f_equal. f_equal. f_equal.
  unfold Num.sub. apply Qred_complete.
  rewrite !inject_Z_plus. ring.
Qed.

Lemma derived_progress_at_start (duration : Q) (now : Z) :
  derived_progress duration now now = 0.
Proof.
  unfold derived_progress.
  assert (E : Num.sub (inject_Z now) (inject_Z now) = 0).
  { unfold Num.sub. change 0 with (Qred 0). apply Qred_complete. ring. }
  rewrite E.
  assert (E' : Num.div (Num.div 0 1000) duration = 0).
  { unfold Num.div at 1. change 0 with (Qred 0) at 2. apply Qred_complete.
    change (Num.div 0 1000) with 0. unfold Qdiv. ring. }
  rewrite E'. reflexivity.
Qed.

Lemma same_inputs_trans (s1 s2 s3 : Component) :
  same_inputs s1 s2 -> same_inputs s2 s3 -> same_inputs s1 s3.
Proof.
  unfold same_inputs. intros (A1 & A2 & A3 & A4 & A5) (B1 & B2 & B3 & B4 & B5).
  repeat split; congruence.
Qed.

Lemma same_inputs_sym (s1 s2 : Component) :
  same_inputs s1 s2 -> same_inputs s2 s1.
Proof.
  unfold same_inputs. intros (A1 & A2 & A3 & A4 & A5).
  repeat split; congruence.
Qed.

(** Two calls of the same [animate], [delay] apart, on states with the
    same bitmaps, for an effect that does not call [Math.random]. *)
Lemma animate_agree (c : Closure) (startTime now delay : Z)
    (s1 s2 : Component) (canvas1 canvas2 : Frame) :
  canvasRef s1 = Some canvas1 -> canvasRef s2 = Some canvas2 ->
  callbacks s1 = [] -> callbacks s2 = [] ->
  beforeImageRef s1 = beforeImageRef s2 ->
  afterImageRef s1 = afterImageRef s2 ->
  draws_randomly (closed_selectedEffect c) = false ->
  let s1' := animate Math c startTime now s1 in
  let s2' := animate Math c (startTime + delay) (now + delay) s2 in
  progress s1' = progress s2' /\
  skipn (List.length canvas1) (surface s1') =
  skipn (List.length canvas2) (surface s2') /\
  ((callbacks s1' = [] /\ callbacks s2' = []) \/
   exists handle1 handle2,
     callbacks s1' = [(handle1, mkCallback c startTime)] /\
     callbacks s2' = [(handle2, mkCallback c (startTime + delay))]) /\
  same_inputs s1 s1' /\ same_inputs s2 s2'.
Proof.
  intros Hc1 Hc2 Hcb1 Hcb2 Hb Ha Hid s1' s2'.
  destruct (animate_facts Math c startTime now s1 canvas1 Hc1 Hcb1)
    as (Hp1 & Hs1 & Hk1 & _ & _ & Hi1).
  destruct (animate_facts Math c (startTime + delay) (now + delay) s2 canvas2
              Hc2 Hcb2) as (Hp2 & Hs2 & Hk2 & _ & _ & Hi2).
  fold s1' in Hp1, Hs1, Hk1, Hi1. fold s2' in Hp2, Hs2, Hk2, Hi2.
  rewrite derived_progress_shift in Hp2, Hk2.
  split; [congruence|]. split; [|split; [|split; assumption]].
  - rewrite Hs1, Hs2, !skipn_length_app.
    unfold rendered_frame. rewrite derived_progress_shift, <- Hb, <- Ha.
    apply (dispatch_ignores_oracle (beforeImageRef s1) (afterImageRef s1)
             (closed_intensity c) (closed_selectedEffect c) _ Hid).
  - rewrite Hk1, Hk2. destruct (Num.ltb _ 1); [right; eauto|left; auto].
Qed.

Lemma agree_tick (delay now : Z) (s1 s2 : Component) :
  runs_agree delay s1 s2 ->
  runs_agree delay (step Math (AnimationFrame now) s1)
    (step Math (AnimationFrame (now + delay)) s2) /\
  drawn_by Math (AnimationFrame now) s1 =
  drawn_by Math (AnimationFrame (now + delay)) s2.
Proof.
  intros (Hwf1 & Hwf2 & Hin & Hp & Hcbs).
  pose proof (step_well_formed Math (AnimationFrame now) s1 Hwf1) as Hwf1'.
  pose proof (step_well_formed Math (AnimationFrame (now + delay)) s2 Hwf2)
    as Hwf2'.
  destruct Hcbs as [[Hcb1 Hcb2]|(h1 & h2 & c & st & Hcb1 & Hcb2 & Hid)].
  - unfold drawn_by.
    rewrite (step_frame_idle Math now s1 Hwf1 Hcb1).
    rewrite (step_frame_idle Math (now + delay) s2 Hwf2 Hcb2).
    split.
    + split; [exact Hwf1|]. split; [exact Hwf2|]. split; [exact Hin|].
      split; [exact Hp|]. left. auto.
    + rewrite !skipn_all. reflexivity.
  - unfold drawn_by. revert Hwf1' Hwf2'.
    rewrite (step_frame_tick Math now s1 h1 _ Hwf1 Hcb1).
    rewrite (step_frame_tick Math (now + delay) s2 h2 _ Hwf2 Hcb2).
    simpl callback_animate. simpl callback_startTime.
    intros Hwf1' Hwf2'.
    destruct (animate_agree c st now delay
                (set_callbacks [] s1) (set_callbacks [] s2)
                (surface s1) (surface s2)
                (canvas_of_well_formed s1 Hwf1)
                (canvas_of_well_formed s2 Hwf2)
                eq_refl eq_refl
                (proj1 (proj2 (proj2 (proj2 Hin))))
                (proj2 (proj2 (proj2 (proj2 Hin)))) Hid)
      as (Hp' & Hskip & Hcbs' & Hi1 & Hi2).
    split; [|exact Hskip].
    split; [exact Hwf1'|]. split; [exact Hwf2'|]. split; [|split].
    + apply same_inputs_trans with (s2 := s2).
      * apply same_inputs_trans with (s2 := s1);
          [apply same_inputs_sym; exact Hi1|exact Hin].
      * exact Hi2.
    + exact Hp'.
    + destruct Hcbs' as [?|(k1 & k2 & E1 & E2)]; [left; assumption|].
      right. exists k1, k2, c, st. auto.
Qed.

Lemma agree_frames (delay : Z) (nows : list Z) :
  forall s1 s2 : Component,
    runs_agree delay s1 s2 ->
    frames Math (map AnimationFrame nows) s1 =
    frames Math
      (map AnimationFrame (map (fun now => (now + delay)%Z) nows)) s2 /\
    progresses Math (map AnimationFrame nows) s1 =
    progresses Math
      (map AnimationFrame (map (fun now => (now + delay)%Z) nows)) s2.
Proof.
  induction nows as [|now nows IH]; intros s1 s2 H; simpl.
  - split; reflexivity.
  - destruct (agree_tick delay now s1 s2 H) as [H' Hd].
    destruct (IH _ _ H') as [IHf IHp].
    rewrite Hd, IHf, IHp.
    destruct H' as (_ & _ & _ & -> & _). split; reflexivity.
Qed.

Lemma present_in_both (s1 s2 : Component) :
  well_formed s1 -> well_formed s2 -> same_inputs s1 s2 ->
  absent (beforeImage s1) = false -> absent (afterImage s1) = false ->
  absent (beforeImage s2) = false /\ absent (afterImage s2) = false.
Proof.
  intros [(_ & Hb1 & Ha1 & _) _] [(_ & Hb2 & Ha2 & _) _]
    (_ & _ & _ & Hb & Ha) Hpb Hpa.
  rewrite <- Hb2, <- Ha2, <- Hb, <- Ha, Hb1, Ha1. auto.
Qed.

Lemma agree_play (delay now1 now2 : Z) (s1 s2 : Component) :
  well_formed s1 -> well_formed s2 -> same_inputs s1 s2 ->
  absent (beforeImage s1) = false -> absent (afterImage s1) = false ->
  draws_randomly (selectedEffect s1) = false ->
  runs_agree delay (step Math (Play now1 now2) s1)
    (step Math (Play (now1 + delay) (now2 + delay)) s2) /\
  drawn_by Math (Play now1 now2) s1 =
  drawn_by Math (Play (now1 + delay) (now2 + delay)) s2.
Proof.
  intros Hwf1 Hwf2 Hin Hb1 Ha1 Hid.
  destruct (present_in_both s1 s2 Hwf1 Hwf2 Hin Hb1 Ha1) as [Hb2 Ha2].
  pose proof (step_well_formed Math (Play now1 now2) s1 Hwf1) as Hwf1'.
  pose proof (step_well_formed Math (Play (now1 + delay) (now2 + delay)) s2
                Hwf2) as Hwf2'.
  unfold drawn_by. revert Hwf1' Hwf2'.
  rewrite (step_play Math now1 now2 s1 Hwf1 Hb1 Ha1).
  rewrite (step_play Math (now1 + delay) (now2 + delay) s2 Hwf2 Hb2 Ha2).
  assert (Ec : animateCallback s2 = animateCallback s1).
  { rewrite (proj2 Hwf1), (proj2 Hwf2).
    destruct Hin as (-> & -> & -> & _). reflexivity. }
  rewrite Ec. intros Hwf1' Hwf2'.
  assert (Hid' : draws_randomly (closed_selectedEffect (animateCallback s1))
                 = false)
    by (rewrite (proj2 Hwf1); exact Hid).
  destruct (animate_agree (animateCallback s1) now1 now2 delay
              (setProgress 0 (setIsPlaying true (set_callbacks [] s1)))
              (setProgress 0 (setIsPlaying true (set_callbacks [] s2)))
              (surface s1) (surface s2)
              (canvas_of_well_formed s1 Hwf1)
              (canvas_of_well_formed s2 Hwf2)
              eq_refl eq_refl
              (proj1 (proj2 (proj2 (proj2 Hin))))
              (proj2 (proj2 (proj2 (proj2 Hin)))) Hid')
    as (Hp' & Hskip & Hcbs' & Hi1 & Hi2).
  split; [|exact Hskip].
  split; [exact Hwf1'|]. split; [exact Hwf2'|]. split; [|split].
  - apply same_inputs_trans with (s2 := s2).
    + apply same_inputs_trans with (s2 := s1);
        [apply same_inputs_sym; exact Hi1|exact Hin].
    + exact Hi2.
  - exact Hp'.
  - destruct Hcbs' as [?|(k1 & k2 & E1 & E2)]; [left; assumption|].
    right. exists k1, k2, (animateCallback s1), now1. auto.
Qed.

(** The edge grain of the film burn: the first of its particles takes its
    colour from the fourth and fifth numbers of the oracle. *)
Lemma film_burn_grain (beforeImg afterImg : Image) (intensity t : Q)
    (r : Oracle) :
  Num.ltb t 0.95 = true ->
  nth_error
    (calls (applyFilmBurn Math (Some beforeImg) (Some afterImg) intensity t r))
    24 =
  Some (set_fillStyle
          (css (rgba 255 (Num.add 100 (Num.mul (r 3%nat) 100)) 0 (r 4%nat)))).
Proof.
  intros H. unfold applyFilmBurn. cbv beta iota zeta delta [absent orb].
  rewrite H. reflexivity.
Qed.

(** A run keeps its inputs. *)
Lemma run_keeps_inputs (now1 now2 : Z) (nows : list Z) (s : Component) :
  well_formed s ->
  same_inputs s (run Math (run_events now1 now2 nows) s).
Proof.
  intros Hwf.
  assert (Hplay : same_inputs s (step Math (Play now1 now2) s)).
  { unfold step. rewrite render_stores. simpl. unfold playAnimation.
    destruct (absent (beforeImage s) || absent (afterImage s)).
    - repeat split.
    - apply same_inputs_trans
        with (s2 := setProgress 0
                      (setIsPlaying true
                         match animationFrameRef s with
                         | Some handle => cancelAnimationFrame handle s
                         | None => s
                         end)).
      + destruct (animationFrameRef s); repeat split.
      + destruct (animate_settings Math (animateCallback
                    (setProgress 0
                      (setIsPlaying true
                         match animationFrameRef s with
                         | Some handle => cancelAnimationFrame handle s
                         | None => s
                         end))) now1 now2
                    (setProgress 0
                      (setIsPlaying true
                         match animationFrameRef s with
                         | Some handle => cancelAnimationFrame handle s
                         | None => s
                         end)))
          as (E1 & E2 & E3 & _ & _ & _ & E4 & E5 & _).
        repeat split; symmetry; assumption. }
  unfold run_events. simpl run.
  assert (Hwf' : well_formed (step Math (Play now1 now2) s))
    by (apply step_well_formed; exact Hwf).
  apply same_inputs_trans with (s2 := step Math (Play now1 now2) s);
    [exact Hplay|].
  clear Hplay. revert Hwf'. generalize (step Math (Play now1 now2) s).
  clear s Hwf. induction nows as [|now nows IH]; intros s Hwf; simpl.
  - repeat split.
  - apply same_inputs_trans with (s2 := step Math (AnimationFrame now) s).
    + destruct (proj1 Hwf) as (_ & _ & _ & [Hnil|(h & cb & Hone & _)]).
      * rewrite (step_frame_idle Math now s Hwf Hnil). repeat split.
      * rewrite (step_frame_tick Math now s h cb Hwf Hone).
        destruct (animate_settings Math (callback_animate cb)
                    (callback_startTime cb) now (set_callbacks [] s))
          as (E1 & E2 & E3 & _ & _ & _ & E4 & E5 & _).
        repeat split; symmetry; assumption.
    + apply IH, step_well_formed, Hwf.
Qed.

End Rerun.

(** The frame and the progress of a play request that starts. *)
Lemma play_frame (Math : MathLib) (now1 now2 : Z) (s : Component) :
  well_formed s ->
  absent (beforeImage s) = false -> absent (afterImage s) = false ->
  progress (step Math (Play now1 now2) s) =
    derived_progress (duration s) now1 now2 /\
  drawn_by Math (Play now1 now2) s =
    rendered_frame Math
      (mkClosure (duration s) (selectedEffect s) (intensity s)) now1 now2 s.
Proof.
  intros Hwf Hb Ha. unfold drawn_by.
  rewrite (step_play Math now1 now2 s Hwf Hb Ha), (proj2 Hwf).
  destruct (animate_facts Math
              (mkClosure (duration s) (selectedEffect s) (intensity s))
              now1 now2
              (setProgress 0 (setIsPlaying true (set_callbacks [] s)))
              (surface s) (canvas_of_well_formed s Hwf) eq_refl)
    as (Hp & Hs & _).
  split; [exact Hp|].
  rewrite Hs. apply skipn_length_app.
Qed.

(** C9. Running again: a play request sets [progress] to what the first
    tick derives from the new start time, 0 when the clock has not moved,
    whatever [progress] was.  Two runs from states with the same effect,
    duration, intensity and bitmaps, with ticks at the same times after
    their start, draw the same sequence of frames when the effect does not
    call [Math.random] (all effects but "filmBurn" and "particleBurst":
    among them "randomBlocks" and "shatter", whose variation is a sine of
    the cell index).  The film burn is not reproducible: runs whose
    oracles differ at the fifth number draw different frames. *)
Theorem rerun_reproduces_frames :
  forall (Math : MathLib) (s1 s2 : Component) (now1 now2 delay : Z)
         (nows : list Z),
    well_formed s1 -> well_formed s2 -> same_inputs s1 s2 ->
    absent (beforeImage s1) = false -> absent (afterImage s1) = false ->
    let first := run_events now1 now2 nows in
    let again :=
      run_events (now1 + delay) (now2 + delay)
        (map (fun now => (now + delay)%Z) nows) in
    (progress (step Math (Play (now1 + delay) (now2 + delay)) s2) =
       derived_progress (duration s2) now1 now2 /\
     (now1 = now2 ->
      progress (step Math (Play (now1 + delay) (now2 + delay)) s2) = 0)) /\
    (draws_randomly (selectedEffect s1) = false ->
     frames Math first s1 = frames Math again s2 /\
     progresses Math first s1 = progresses Math again s2) /\
    (selectedEffect s1 = "filmBurn"%string ->
     Num.ltb (derived_progress (duration s1) now1 now2) 0.95 = true ->
     random s1 4%nat <> random s2 4%nat ->
     frames Math first s1 <> frames Math again s2).
Proof.
  intros Math s1 s2 now1 now2 delay nows Hwf1 Hwf2 Hin Hb1 Ha1 first again.
  destruct (present_in_both s1 s2 Hwf1 Hwf2 Hin Hb1 Ha1) as [Hb2 Ha2].
  destruct (play_frame Math now1 now2 s1 Hwf1 Hb1 Ha1) as [Hp1 Hd1].
  destruct (play_frame Math (now1 + delay) (now2 + delay) s2 Hwf2 Hb2 Ha2)
    as [Hp2 Hd2].
  rewrite derived_progress_shift in Hp2.
  split; [|split].
  - split; [exact Hp2|].
    intros ->. rewrite Hp2. apply derived_progress_at_start.
  - intros Hid.
    destruct (agree_play Math delay now1 now2 s1 s2 Hwf1 Hwf2 Hin Hb1 Ha1 Hid)
      as [Hagree Hd].
    destruct (agree_frames Math delay nows _ _ Hagree) as [Hf Hp].
    subst first again. unfold run_events. simpl.
    rewrite Hd, Hf, Hp.
    destruct Hagree as (_ & _ & _ & -> & _). split; reflexivity.
  - intros Heffect Ht Hr Hframes.
    subst first again. unfold run_events in Hframes. simpl in Hframes.
    injection Hframes as Hframe _.
    rewrite Hd1, Hd2 in Hframe. unfold rendered_frame in Hframe.
    simpl in Hframe. rewrite derived_progress_shift in Hframe.
    destruct Hin as (Ed & Ee & Ei & Eb & Ea).
    rewrite <- Ed, <- Ee, <- Ei, <- Eb, <- Ea, Heffect in Hframe.
    destruct Hwf1 as [(_ & Hrb & Hra & _) _].
    destruct (beforeImageRef s1) as [b|];
      [|rewrite <- Hrb in Hb1; discriminate Hb1].
    destruct (afterImageRef s1) as [a|];
      [|rewrite <- Hra in Ha1; discriminate Ha1].
    change (getEffectFunction Math (Some b) (Some a) (intensity s1) "filmBurn")
      with (applyFilmBurn Math (Some b) (Some a) (intensity s1)) in Hframe.
    pose proof (film_burn_grain Math b a (intensity s1) _ (random s1) Ht)
      as H1.
    pose proof (film_burn_grain Math b a (intensity s1) _ (random s2) Ht)
      as H2.
    rewrite Hframe in H1. rewrite H1 in H2.
    injection H2 as _ H2. exact (Hr H2).
Qed.

Lemma rerun_reproduces_frames_witness :
  well_formed sample_ready /\
  well_formed sample_completed /\
  same_inputs sample_ready sample_completed /\
  absent (beforeImage sample_ready) = false /\
  absent (afterImage sample_ready) = false /\
  draws_randomly (selectedEffect sample_ready) = false /\
  progress sample_completed = 1 /\
  progress (step sample_Math (Play 5000 5000) sample_completed) = 0 /\
  frames sample_Math (run_events 0 0 [500; 1000; 2000]%Z) sample_ready =
  frames sample_Math (run_events 5000 5000 [5500; 6000; 7000]%Z)
    sample_completed /\
  well_formed sample_film_burn /\
  same_inputs sample_film_burn (set_random (fun _ => 0) sample_film_burn) /\
  frames sample_Math (run_events 0 0 [500]%Z) sample_film_burn <>
  frames sample_Math (run_events 0 0 [500]%Z)
    (set_random (fun _ => 0) sample_film_burn).
Proof.
  assert (Hwf1 : well_formed sample_ready) by well_formed_by_computation.
  assert (Hwf2 : well_formed sample_completed) by well_formed_by_computation.
  assert (Hin : same_inputs sample_ready sample_completed)
    by (vm_compute; repeat split).
  destruct (rerun_reproduces_frames sample_Math sample_ready sample_completed
              0 0 5000 [500; 1000; 2000]%Z Hwf1 Hwf2 Hin eq_refl eq_refl)
    as ((_ & Hreset) & Hsame & _).
  split; [exact Hwf1|]. split; [exact Hwf2|]. split; [exact Hin|].
  split; [reflexivity|]. split; [reflexivity|]. split; [reflexivity|].
  split; [vm_compute; reflexivity|].
  split; [exact (Hreset eq_refl)|].
  split; [exact (proj1 (Hsame eq_refl))|].
  assert (Hwf3 : well_formed sample_film_burn) by well_formed_by_computation.
  assert (Hwf4 : well_formed (set_random (fun _ => 0) sample_film_burn))
    by well_formed_by_computation.
  assert (Hin' : same_inputs sample_film_burn
                   (set_random (fun _ => 0) sample_film_burn))
    by (repeat split).
  split; [exact Hwf3|]. split; [exact Hin'|].
  destruct (rerun_reproduces_frames sample_Math sample_film_burn
              (set_random (fun _ => 0) sample_film_burn)
              0 0 0 [500]%Z Hwf3 Hwf4 Hin' eq_refl eq_refl)
    as (_ & _ & Hdiffer).
  assert (H1 : selectedEffect sample_film_burn = "filmBurn"%string)
    by reflexivity.
  assert (H2 : Num.ltb (derived_progress (duration sample_film_burn) 0 0) 0.95
               = true)
    by (vm_compute; reflexivity).
  assert (H3 : random sample_film_burn 4%nat <>
               random (set_random (fun _ => 0) sample_film_burn) 4%nat)
    by (vm_compute; discriminate).
  exact (Hdiffer H1 H2 H3).
Defined.

(** ** Settings changed while running *)

(** The settings controls leave a pending callback as it is: the next tick
    draws the frame of the [animate] that the run started with, whatever
    the new settings are. *)
Lemma settings_keep_running_animation (Math : MathLib) (s : Component)
    (handle : positive) (callback : FrameRequestCallback) (e : Event)
    (now : Z) :
  well_formed s ->
  callbacks s = [(handle, callback)] ->
  (exists id, e = EffectButton id) \/ (exists d, e = DurationSlider d) \/
  (exists i, e = IntensitySlider i) ->
  callbacks (step Math e s) = [(handle, callback)] /\
  progress (step Math (AnimationFrame now) (step Math e s)) =
    derived_progress (closed_duration (callback_animate callback))
      (callback_startTime callback) now /\
  drawn_by Math (AnimationFrame now) (step Math e s) =
    rendered_frame Math (callback_animate callback)
      (callback_startTime callback) now s.
Proof.
  intros Hwf Hcb He.
  pose proof (step_well_formed Math e s Hwf) as Hwf'.
  assert (Hs : callbacks (step Math e s) = callbacks s /\
               surface (step Math e s) = surface s /\
               beforeImageRef (step Math e s) = beforeImageRef s /\
               afterImageRef (step Math e s) = afterImageRef s /\
               random (step Math e s) = random s).
  { destruct He as [[id ->]|[[d ->]|[i ->]]];
      unfold step; rewrite render_stores; repeat split. }
  destruct Hs as (Hcb' & Hsurf & Hb & Ha & Hr).
  rewrite Hcb in Hcb'.
  destruct (tick_spec Math (step Math e s) handle callback now Hwf' Hcb')
    as (Hp & Hs & _).
  cbv zeta in Hp, Hs.
  split; [exact Hcb'|]. split; [exact Hp|].
  unfold drawn_by. rewrite Hs, skipn_length_app.
  unfold rendered_frame. rewrite Hb, Ha, Hr. reflexivity.
Qed.

(** C3, on the code.  The fade cross of [sample_running] (2 seconds,
    intensity 0.8, started at time 0) is running when the selection becomes
    "zoomIn", the duration 4 and the intensity 0.5.  The tick at one second
    still derives the progress 1/2 and draws the fade cross: not the frame
    of the new settings, which are used from the next play request on.  A
    bitmap loaded meanwhile is drawn by that tick: the bitmaps are read
    through refs, the settings are those the callback closes over. *)
Theorem settings_change_misses_running_animation :
  selectedEffect sample_changed = "zoomIn"%string /\
  duration sample_changed = 4 /\
  intensity sample_changed = 0.5 /\
  isPlaying sample_changed = true /\
  progress (step sample_Math (AnimationFrame 1000) sample_changed) = 1 # 2 /\
  drawn_by sample_Math (AnimationFrame 1000) sample_changed =
    clearRect 0 0 1080 1920 ::
    drawn_image sample_before (1 # 2) ++ drawn_image sample_after (1 # 2) /\
  drawn_by sample_Math (AnimationFrame 1000) sample_changed <>
    rendered_frame sample_Math (mkClosure 4 "zoomIn" 0.5) 0 1000
      sample_changed /\
  drawn_by sample_Math (Play 3000 4000)
    (step sample_Math (AnimationFrame 2000) sample_changed) =
    rendered_frame sample_Math (mkClosure 4 "zoomIn" 0.5) 3000 4000
      sample_changed /\
  drawn_by sample_Math (AnimationFrame 1000)
    (step sample_Math (ImageInput (Some (Some sample_after)) "before")
       sample_changed) =
    clearRect 0 0 1080 1920 ::
    drawn_image sample_after (1 # 2) ++ drawn_image sample_after (1 # 2).
Proof.
  repeat (split; [vm_compute; reflexivity|]).
  split; [|split].
  - intros H. vm_compute in H. discriminate H.
  - vm_compute. reflexivity.
  - vm_compute. reflexivity.
Qed.

(** ** The surface of a mounted component

    The surface only grows, by whole frames of effect functions; so every
    frame starts with no [save] pending, under the transform and clipping
    region of the first frame, and its [clearRect] covers the surface. *)

Section Surface.

Variable Math : MathLib.

Lemma dispatch_nests (beforeImg afterImg : option Image) (intensity : Q)
    (id : string) (t : Q) :
  nests 0 0 (getEffectFunction Math beforeImg afterImg intensity id t).
Proof.
  pose proof (dispatch_in_library Math beforeImg afterImg intensity id) as Hin.
  apply in_map_iff in Hin. destruct Hin as (e & <- & He).
  pose proof (library_nests Math intensity beforeImg afterImg) as H.
  rewrite Forall_forall in H. apply H, He.
Qed.

Lemma surface_handleImageUpload (file : option (option Image))
    (type : string) (s : Component) :
  surface (handleImageUpload file type s) = surface s.
Proof.
  destruct file as [[img|]|]; simpl;
    [destruct (String.eqb type "before")| |]; reflexivity.
Qed.

Lemma surface_playAnimation (now1 now2 : Z) (s : Component) :
  well_formed s ->
  surface (step Math (Play now1 now2) s) = surface s \/
  exists c startTime now,
    surface (step Math (Play now1 now2) s) =
    surface s ++ rendered_frame Math c startTime now s.
Proof.
  intros Hwf.
  destruct (absent (beforeImage s)) eqn:Hb;
    [|destruct (absent (afterImage s)) eqn:Ha].
  - left. unfold step. rewrite surface_render. simpl.
    unfold playAnimation. rewrite Hb. reflexivity.
  - left. unfold step. rewrite surface_render. simpl.
    unfold playAnimation. rewrite Hb, Ha. reflexivity.
  - right. exists (animateCallback s), now1, now2.
    rewrite (step_play Math now1 now2 s Hwf Hb Ha).
    destruct (animate_facts Math (animateCallback s) now1 now2
                (setProgress 0 (setIsPlaying true (set_callbacks [] s)))
                (surface s) (canvas_of_well_formed s Hwf) eq_refl)
      as (_ & Hs & _).
    exact Hs.
Qed.

Lemma step_surface (e : Event) (s : Component) :
  well_formed s ->
  surface (step Math e s) = surface s \/
  exists c startTime now,
    surface (step Math e s) =
    surface s ++ rendered_frame Math c startTime now s.
Proof.
  intros Hwf.
  destruct e as [file type|id|d|i|now1 now2|now1 now2| |now].
  - left. unfold step. rewrite surface_render.
    apply surface_handleImageUpload.
  - left. unfold step. rewrite surface_render. reflexivity.
  - left. unfold step. rewrite surface_render. reflexivity.
  - left. unfold step. rewrite surface_render. reflexivity.
  - pose proof (surface_playAnimation now1 now2 s Hwf) as Hplay.
    unfold step in *. simpl in *.
    destruct (absent (beforeImage s) || absent (afterImage s)).
    + left. apply surface_render.
    + destruct (isPlaying s).
      * left. rewrite surface_render. apply surface_stopAnimation.
      * exact Hplay.
  - apply surface_playAnimation, Hwf.
  - left. unfold step. rewrite surface_render. apply surface_stopAnimation.
  - destruct (proj1 Hwf) as (_ & _ & _ & [Hnil|(h & cb & Hone & _)]).
    + left. rewrite (step_frame_idle Math now s Hwf Hnil). reflexivity.
    + right.
      exists (callback_animate cb), (callback_startTime cb), now.
      exact (proj1 (proj2 (tick_spec Math s h cb now Hwf Hone))).
Qed.

Lemma step_surface_nested (e : Event) (s : Component) :
  well_formed s ->
  nesting 0 (surface s) = Some 0%nat ->
  nesting 0 (surface (step Math e s)) = Some 0%nat.
Proof.
  intros Hwf Hnest.
  destruct (step_surface e s Hwf) as [->|(c & st & now & ->)];
    [exact Hnest|].
  rewrite nesting_app, Hnest. apply dispatch_nests.
Qed.

(** From the first render on, whatever happens. *)
Lemma surface_nested (defaultDuration defaultIntensity : Q) (rng : Oracle)
    (es : list Event) :
  nesting 0
    (surface (run Math es (mount defaultDuration defaultIntensity rng))) =
  Some 0%nat.
Proof.
  assert (H : forall s,
             well_formed s -> nesting 0 (surface s) = Some 0%nat ->
             nesting 0 (surface (run Math es s)) = Some 0%nat).
  { induction es as [|e es IH]; intros s Hwf Hnest; simpl.
    - exact Hnest.
    - apply IH.
      + apply step_well_formed, Hwf.
      + apply step_surface_nested; assumption. }
  apply H; [apply mount_well_formed|reflexivity].
Qed.

End Surface.

(** * Further properties of the component *)

(** ** Steps of a mounted component *)

Section Reachable.

Variable Math : MathLib.

Lemma isPlaying_render (s : Component) : isPlaying (render s) = isPlaying s.
Proof. rewrite render_stores. reflexivity. Qed.

Lemma alerts_render (s : Component) : alerts (render s) = alerts s.
Proof. rewrite render_stores. reflexivity. Qed.

Lemma step_button (now1 now2 : Z) (s : Component) :
  step Math (PlayStopButton now1 now2) s =
  if absent (beforeImage s) || absent (afterImage s) then render s
  else if isPlaying s then step Math Stop s
  else step Math (Play now1 now2) s.
Proof.
  unfold step. simpl.
  destruct (absent (beforeImage s) || absent (afterImage s)); [reflexivity|].
  destruct (isPlaying s); reflexivity.
Qed.

Lemma step_setting (e : Event) (s : Component) :
  match e with
  | EffectButton _ | DurationSlider _ | IntensitySlider _ => True
  | _ => False
  end ->
  isPlaying (step Math e s) = isPlaying s /\
  callbacks (step Math e s) = callbacks s /\
  alerts (step Math e s) = alerts s /\
  beforeImage (step Math e s) = beforeImage s /\
  afterImage (step Math e s) = afterImage s.
Proof.
  intros He. unfold step. rewrite render_stores.
  destruct e; try destruct He; simpl; repeat split.
Qed.

(** What a play request does when both bitmaps are present. *)
Lemma play_spec (now1 now2 : Z) (s : Component) :
  well_formed s ->
  absent (beforeImage s) = false -> absent (afterImage s) = false ->
  let t := derived_progress (duration s) now1 now2 in
  let s' := step Math (Play now1 now2) s in
  callbacks s' =
    (if Num.ltb t 1
     then [(nextHandle s, mkCallback (animateCallback s) now1)] else []) /\
  isPlaying s' = Num.ltb t 1 /\
  alerts s' = alerts s /\
  beforeImage s' = beforeImage s /\ afterImage s' = afterImage s.
Proof.
  intros Hwf Hb Ha t s'. subst s'.
  rewrite (step_play Math now1 now2 s Hwf Hb Ha).
  set (s0 := setProgress 0 (setIsPlaying true (set_callbacks [] s))).
  destruct (animate_facts Math (animateCallback s) now1 now2 s0 (surface s)
              (canvas_of_well_formed s Hwf) eq_refl)
    as (_ & _ & Hk & _ & Hi & _).
  destruct (animate_settings Math (animateCallback s) now1 now2 s0)
    as (_ & _ & _ & _ & Hbi & Hai & _ & _ & Hal).
  cbv zeta in Hk, Hi.
  assert (Ed : closed_duration (animateCallback s) = duration s)
    by (rewrite (proj2 Hwf); reflexivity).
  rewrite Ed in Hk, Hi. fold t in Hk, Hi.
  split; [exact Hk|]. split.
  - rewrite Hi. destruct (Num.ltb t 1); reflexivity.
  - auto.
Qed.

Lemma stop_spec (s : Component) :
  well_formed s ->
  callbacks (step Math Stop s) = [] /\ isPlaying (step Math Stop s) = false /\
  alerts (step Math Stop s) = alerts s /\
  beforeImage (step Math Stop s) = beforeImage s /\
  afterImage (step Math Stop s) = afterImage s.
Proof.
  intros Hwf. rewrite (step_stop Math s Hwf). split.
  - apply stopAnimation_callbacks. exact (proj2 (proj2 (proj2 (proj1 Hwf)))).
  - unfold stopAnimation. destruct (animationFrameRef s); repeat split.
Qed.

Lemma tick_keeps (now : Z) (s : Component) :
  well_formed s ->
  alerts (step Math (AnimationFrame now) s) = alerts s /\
  beforeImage (step Math (AnimationFrame now) s) = beforeImage s /\
  afterImage (step Math (AnimationFrame now) s) = afterImage s.
Proof.
  intros Hwf.
  destruct (proj1 Hwf) as (_ & _ & _ & [Hnil|(h & cb & Hone & _)]).
  - rewrite (step_frame_idle Math now s Hwf Hnil). auto.
  - rewrite (step_frame_tick Math now s h cb Hwf Hone).
    destruct (animate_settings Math (callback_animate cb)
                (callback_startTime cb) now (set_callbacks [] s))
      as (_ & _ & _ & _ & Hbi & Hai & _ & _ & Hal).
    auto.
Qed.

Lemma step_keeps_playing (e : Event) (s : Component) :
  well_formed s ->
  (isPlaying s = true <-> callbacks s <> []) ->
  (isPlaying (step Math e s) = true <-> callbacks (step Math e s) <> []).
Proof.
  intros Hwf Hinv.
  assert (Hplay : forall now1 now2,
             absent (beforeImage s) || absent (afterImage s) = false ->
             isPlaying (step Math (Play now1 now2) s) = true <->
             callbacks (step Math (Play now1 now2) s) <> []).
  { intros now1 now2 Hboth. apply orb_false_iff in Hboth.
    destruct Hboth as [Hb Ha].
    destruct (play_spec now1 now2 s Hwf Hb Ha) as (Hk & Hi & _).
    cbv zeta in Hk, Hi. rewrite Hk, Hi.
    destruct (Num.ltb _ 1); split; congruence. }
  assert (Hstop : isPlaying (step Math Stop s) = true <->
                  callbacks (step Math Stop s) <> []).
  { destruct (stop_spec s Hwf) as (Hk & Hi & _). rewrite Hk, Hi.
    split; congruence. }
  destruct e as [file type|id|d|i|now1 now2|now1 now2| |now].
  - rewrite (step_image Math file type s Hwf).
    destruct file as [[img|]|]; simpl;
      [destruct (String.eqb type "before")| |]; exact Hinv.
  - destruct (step_setting (EffectButton id) s I) as (-> & -> & _).
    exact Hinv.
  - destruct (step_setting (DurationSlider d) s I) as (-> & -> & _).
    exact Hinv.
  - destruct (step_setting (IntensitySlider i) s I) as (-> & -> & _).
    exact Hinv.
  - rewrite step_button.
    destruct (absent (beforeImage s) || absent (afterImage s)) eqn:Hboth.
    + rewrite isPlaying_render, callbacks_render. exact Hinv.
    + destruct (isPlaying s); [exact Hstop|apply Hplay; reflexivity].
  - destruct (absent (beforeImage s) || absent (afterImage s)) eqn:Hboth.
    + unfold step. simpl. unfold playAnimation. rewrite Hboth.
      rewrite isPlaying_render, callbacks_render. exact Hinv.
    + apply Hplay. reflexivity.
  - exact Hstop.
  - destruct (proj1 Hwf) as (_ & _ & _ & [Hnil|(h & cb & Hone & _)]).
    + rewrite (step_frame_idle Math now s Hwf Hnil). exact Hinv.
    + destruct (tick_spec Math s h cb now Hwf Hone)
        as (_ & _ & Hk & _ & Hi).
      cbv zeta in Hk, Hi. rewrite Hk, Hi.
      assert (Htrue : isPlaying s = true)
        by (apply Hinv; rewrite Hone; discriminate).
      rewrite Htrue. destruct (Num.ltb _ 1); split; congruence.
Qed.

Lemma step_keeps_alerts (e : Event) (s : Component) (notice : string) :
  well_formed s -> from_page [e] = true ->
  notice <> "Failed to load image. Please try again."%string ->
  ~ In notice (alerts s) -> ~ In notice (alerts (step Math e s)).
Proof.
  intros Hwf He Hnotice Hout.
  destruct e as [file type|id|d|i|now1 now2|now1 now2| |now];
    try discriminate He.
  - rewrite (step_image Math file type s Hwf).
    destruct file as [[img|]|]; simpl;
      [destruct (String.eqb type "before")| |]; try exact Hout.
    intros Hin. apply in_app_or in Hin. destruct Hin as [Hin|[Hin|[]]].
    + exact (Hout Hin).
    + apply Hnotice. symmetry. exact Hin.
  - destruct (step_setting (EffectButton id) s I) as (_ & _ & -> & _).
    exact Hout.
  - destruct (step_setting (DurationSlider d) s I) as (_ & _ & -> & _).
    exact Hout.
  - destruct (step_setting (IntensitySlider i) s I) as (_ & _ & -> & _).
    exact Hout.
  - rewrite step_button.
    destruct (absent (beforeImage s) || absent (afterImage s)) eqn:Hboth.
    + rewrite alerts_render. exact Hout.
    + destruct (isPlaying s).
      * destruct (stop_spec s Hwf) as (_ & _ & -> & _). exact Hout.
      * apply orb_false_iff in Hboth. destruct Hboth as [Hb Ha].
        destruct (play_spec now1 now2 s Hwf Hb Ha) as (_ & _ & Hal & _).
        cbv zeta in Hal. rewrite Hal. exact Hout.
  - destruct (tick_keeps now s Hwf) as (-> & _). exact Hout.
Qed.

Lemma step_keeps_bitmaps (e : Event) (s : Component) :
  well_formed s ->
  absent (beforeImage s) || absent (afterImage s) = false ->
  absent (beforeImage (step Math e s)) || absent (afterImage (step Math e s)) =
  false.
Proof.
  intros Hwf Hboth.
  assert (Hplay : forall now1 now2,
             absent (beforeImage (step Math (Play now1 now2) s))
             || absent (afterImage (step Math (Play now1 now2) s)) = false).
  { intros now1 now2. pose proof Hboth as Hboth'.
    apply orb_false_iff in Hboth'. destruct Hboth' as [Hb Ha].
    destruct (play_spec now1 now2 s Hwf Hb Ha) as (_ & _ & _ & Hbi & Hai).
    cbv zeta in Hbi, Hai. rewrite Hbi, Hai. exact Hboth. }
  assert (Hstop : absent (beforeImage (step Math Stop s))
                  || absent (afterImage (step Math Stop s)) = false).
  { destruct (stop_spec s Hwf) as (_ & _ & _ & -> & ->). exact Hboth. }
  destruct e as [file type|id|d|i|now1 now2|now1 now2| |now].
  - rewrite (step_image Math file type s Hwf).
    apply orb_false_iff in Hboth. destruct Hboth as [Hb Ha].
    destruct file as [[img|]|]; simpl;
      [destruct (String.eqb type "before"); simpl| |];
      rewrite ?Hb, ?Ha; reflexivity.
  - destruct (step_setting (EffectButton id) s I) as (_ & _ & _ & -> & ->).
    exact Hboth.
  - destruct (step_setting (DurationSlider d) s I) as (_ & _ & _ & -> & ->).
    exact Hboth.
  - destruct (step_setting (IntensitySlider i) s I) as (_ & _ & _ & -> & ->).
    exact Hboth.
  - rewrite step_button. rewrite Hboth.
    destruct (isPlaying s); [exact Hstop|apply Hplay].
  - apply Hplay.
  - exact Hstop.
  - destruct (tick_keeps now s Hwf) as (_ & -> & ->). exact Hboth.
Qed.

End Reachable.

Section Bitmaps.

Variable Math : MathLib.

Lemma step_without_bitmaps (e : Event) (s : Component) :
  well_formed s -> callbacks s = [] ->
  absent (beforeImage s) || absent (afterImage s) = true ->
  callbacks (step Math e s) = [].
Proof.
  intros Hwf Hnil Hboth.
  destruct e as [file type|id|d|i|now1 now2|now1 now2| |now].
  - rewrite (step_image Math file type s Hwf).
    destruct file as [[img|]|]; simpl;
      [destruct (String.eqb type "before")| |]; exact Hnil.
  - destruct (step_setting Math (EffectButton id) s I) as (_ & -> & _).
    exact Hnil.
  - destruct (step_setting Math (DurationSlider d) s I) as (_ & -> & _).
    exact Hnil.
  - destruct (step_setting Math (IntensitySlider i) s I) as (_ & -> & _).
    exact Hnil.
  - rewrite step_button, Hboth, callbacks_render. exact Hnil.
  - unfold step. simpl. unfold playAnimation. rewrite Hboth.
    rewrite callbacks_render. exact Hnil.
  - exact (proj1 (stop_spec Math s Hwf)).
  - rewrite (step_frame_idle Math now s Hwf Hnil). exact Hnil.
Qed.

Lemma run_with_bitmaps (es : list Event) (s : Component) :
  well_formed s ->
  (callbacks s <> [] ->
   absent (beforeImage s) || absent (afterImage s) = false) ->
  callbacks (run Math es s) <> [] ->
  absent (beforeImage (run Math es s))
  || absent (afterImage (run Math es s)) = false.
Proof.
  revert s. induction es as [|e es IH]; intros s Hwf Hinv; simpl.
  - exact Hinv.
  - apply IH; [apply step_well_formed, Hwf|].
    intros Hpending.
    destruct (absent (beforeImage s) || absent (afterImage s)) eqn:Hboth.
    + exfalso. apply Hpending.
      apply step_without_bitmaps; [exact Hwf| |exact Hboth].
      destruct (callbacks s) as [|entry rest] eqn:Hk; [reflexivity|].
      assert (Hfalse : true = false) by (apply Hinv; discriminate).
      discriminate Hfalse.
    + apply step_keeps_bitmaps; assumption.
Qed.

End Bitmaps.

(** ** The settings stay in range *)

Section Ranges.

Variable Math : MathLib.

Lemma render_in_range (s : Component) :
  settings_in_range s -> settings_in_range (render s).
Proof.
  intros (Hd & Hi & _ & Hk). rewrite render_stores.
  split; [exact Hd|]. split; [exact Hi|]. split; [|exact Hk].
  split; simpl; assumption.
Qed.

Lemma animate_in_range (c : Closure) (startTime now : Z) (s : Component) :
  closure_in_range c -> settings_in_range s ->
  settings_in_range (animate Math c startTime now s).
Proof.
  intros Hc (Hd & Hi & Ha & Hk).
  destruct (canvasRef s) as [canvas|] eqn:Ecanvas.
  - rewrite (animate_spec Math c startTime now s canvas Ecanvas). cbv zeta.
    destruct (Num.ltb _ 1); (split; [|split; [|split]]); simpl;
      try assumption.
    apply Forall_app. split; [exact Hk|].
    constructor; [exact Hc|constructor].
  - unfold animate. rewrite Ecanvas.
    split; [exact Hd|split; [exact Hi|split; [exact Ha|exact Hk]]].
Qed.

Lemma cancel_in_range (s : Component) :
  settings_in_range s -> settings_in_range (set_callbacks [] s).
Proof.
  intros (Hd & Hi & Ha & _).
  split; [exact Hd|split; [exact Hi|split; [exact Ha|constructor]]].
Qed.

Lemma step_in_range (e : Event) (s : Component) :
  well_formed s -> sliders_in_range [e] -> settings_in_range s ->
  settings_in_range (step Math e s).
Proof.
  intros Hwf He Hin. apply Forall_inv in He.
  pose proof Hin as (Hd & Hi & Ha & Hk).
  assert (Hplay : forall now1 now2,
             settings_in_range (step Math (Play now1 now2) s)).
  { intros now1 now2.
    destruct (absent (beforeImage s)) eqn:Hb;
      [|destruct (absent (afterImage s)) eqn:Hab].
    - unfold step. simpl. unfold playAnimation. rewrite Hb. simpl.
      apply render_in_range. exact Hin.
    - unfold step. simpl. unfold playAnimation. rewrite Hb, Hab. simpl.
      apply render_in_range. exact Hin.
    - rewrite (step_play Math now1 now2 s Hwf Hb Hab).
      apply animate_in_range; [exact Ha|].
      split; [exact Hd|split; [exact Hi|split; [exact Ha|constructor]]]. }
  assert (Hstop : settings_in_range (step Math Stop s)).
  { rewrite (step_stop Math s Hwf).
    pose proof (stopAnimation_callbacks s
                  (proj2 (proj2 (proj2 (proj1 Hwf))))) as Hnil.
    split; [|split; [|split]].
    - unfold stopAnimation. destruct (animationFrameRef s); exact Hd.
    - unfold stopAnimation. destruct (animationFrameRef s); exact Hi.
    - unfold stopAnimation. destruct (animationFrameRef s); exact Ha.
    - rewrite Hnil. constructor. }
  destruct e as [file type|id|d|i|now1 now2|now1 now2| |now].
  - rewrite (step_image Math file type s Hwf).
    destruct file as [[img|]|]; simpl;
      [destruct (String.eqb type "before")| |]; exact Hin.
  - unfold step. apply render_in_range.
    split; [exact Hd|split; [exact Hi|split; [exact Ha|exact Hk]]].
  - unfold step. apply render_in_range.
    split; [|split; [exact Hi|split; [exact Ha|exact Hk]]].
    simpl. apply Qlt_le_trans with (y := 1); [reflexivity|exact (proj1 He)].
  - unfold step. apply render_in_range.
    split; [exact Hd|split; [exact He|split; [exact Ha|exact Hk]]].
  - rewrite step_button.
    destruct (absent (beforeImage s) || absent (afterImage s)).
    + apply render_in_range. exact Hin.
    + destruct (isPlaying s); [exact Hstop|apply Hplay].
  - apply Hplay.
  - exact Hstop.
  - destruct (proj1 Hwf) as (_ & _ & _ & [Hnil|(h & cb & Hone & _)]).
    + rewrite (step_frame_idle Math now s Hwf Hnil). exact Hin.
    + rewrite (step_frame_tick Math now s h cb Hwf Hone).
      apply animate_in_range.
      * rewrite Hone in Hk. apply Forall_inv in Hk. exact Hk.
      * apply cancel_in_range. exact Hin.
Qed.

End Ranges.

(** ** What the context accepts *)

Lemma leb_le (x y : Q) : Num.leb x y = true <-> x <= y.
Proof.
  unfold Num.leb. rewrite Qle_alt.
  destruct (x ?= y); split; congruence.
Qed.

Section InRange.

Variable p : CanvasOp -> bool.

Lemma in_range_ret {A} (V : A -> Prop) (a : A) :
  V a -> draws_in_range p V (ret a).
Proof.
  intros H r Hr. split; [reflexivity|]. split; [exact Hr|].
  exists a. split; [reflexivity|exact H].
Qed.

Lemma in_range_ctx (op : CanvasOp) :
  p op = true -> draws_in_range p (fun _ => True) (ctx op).
Proof.
  intros H r Hr. split; [simpl; rewrite H; reflexivity|].
  split; [exact Hr|]. exists tt. auto.
Qed.

Lemma in_range_random : draws_in_range p (fun x => 0 <= x) Math_random.
Proof.
  intros r Hr. split; [reflexivity|]. split.
  - intros n. apply Hr.
  - exists (r 0%nat). split; [reflexivity|apply Hr].
Qed.

Lemma in_range_bind {A B} (V : A -> Prop) (W : B -> Prop) (m : Draw A)
    (f : A -> Draw B) :
  draws_in_range p V m -> (forall a, V a -> draws_in_range p W (f a)) ->
  draws_in_range p W (bind m f).
Proof.
  intros Hm Hf r Hr. destruct (Hm r Hr) as (Hcalls & Hor & a & Hres & Ha).
  destruct (Hf a Ha (oracle (m r)) Hor) as (Hcalls' & Hor' & b & Hres' & Hb).
  rewrite calls_bind, forallb_app, Hcalls. unfold bind.
  rewrite Hres. simpl. rewrite Hcalls'. split; [reflexivity|].
  split; [exact Hor'|]. exists b. auto.
Qed.

Lemma in_range_iterate (n : nat) (i step : Q) (body : Q -> Draw unit) :
  (forall j, draws_in_range p (fun _ => True) (body j)) ->
  draws_in_range p (fun _ => True) (iterate n i step body).
Proof.
  intros Hbody. revert i.
  induction n as [|n IH]; intros i; simpl.
  - apply in_range_ret. exact I.
  - apply in_range_bind with (V := fun _ => True); auto.
Qed.

Lemma in_range_for (init bound step : Q) (body : Q -> Draw unit) :
  (forall j, draws_in_range p (fun _ => True) (body j)) ->
  draws_in_range p (fun _ => True) (for_ init bound step body).
Proof. intros H. apply in_range_iterate, H. Qed.

Lemma in_range_when (b : bool) (m : Draw unit) :
  (b = true -> draws_in_range p (fun _ => True) m) ->
  draws_in_range p (fun _ => True) (when b m).
Proof.
  intros H. destruct b; simpl; [apply H; reflexivity|].
  apply in_range_ret. exact I.
Qed.

End InRange.

(** Arithmetic of the numbers. *)
(** Arithmetic of the numbers. *)
Lemma mul_nonneg (x y : Q) : 0 <= x -> 0 <= y -> 0 <= Num.mul x y.
Proof.
  intros Hx Hy. rewrite mul_correct.
  apply Qmult_le_0_compat; assumption.
Qed.

Lemma add_nonneg (x y : Q) : 0 <= x -> 0 <= y -> 0 <= Num.add x y.
Proof.
  intros Hx Hy. rewrite add_correct.
  apply Qle_trans with (y := 0 + 0); [discriminate|].
  apply Qplus_le_compat; assumption.
Qed.

Lemma sub_nonneg (x y : Q) : y <= x -> 0 <= Num.sub x y.
Proof.
  intros H. rewrite sub_correct. unfold Qminus.
  rewrite <- (Qplus_opp_r y). apply Qplus_le_compat; [exact H|apply Qle_refl].
Qed.

Lemma div_nonneg (x y : Q) : 0 <= x -> 0 <= y -> 0 <= Num.div x y.
Proof.
  intros Hx Hy. rewrite div_correct. unfold Qdiv.
  apply Qmult_le_0_compat; [exact Hx|apply Qinv_le_0_compat, Hy].
Qed.

Lemma mul_le_100 (a i : Q) :
  a <= 1 -> 0 <= i <= 1 -> Num.mul (Num.mul a 100) i <= 100.
Proof.
  intros Ha [Hi0 Hi1]. rewrite !mul_correct.
  assert (H100 : a * 100 <= 100).
  { apply Qle_trans with (y := 1 * 100); [|discriminate].
    apply Qmult_le_compat_r; [exact Ha|discriminate]. }
  destruct (Qlt_le_dec (a * 100)%Q 0) as [Hneg|Hpos].
  - apply Qle_trans with (y := 0 * i).
    + apply Qmult_le_compat_r; [apply Qlt_le_weak, Hneg|exact Hi0].
    + rewrite Qmult_0_l. discriminate.
  - apply Qle_trans with (y := 100 * i).
    + apply Qmult_le_compat_r; [exact H100|exact Hi0].
    + apply Qle_trans with (y := 100 * 1); [|discriminate].
      apply Qmult_le_l; [reflexivity|exact Hi1].
Qed.

(** [pixelSize] is between 1 and 100 when the intensity is in [0,1]. *)
Lemma pixelSize_range (intensity t : Q) :
  0 <= intensity <= 1 -> 1 <= pixelSize intensity t <= 100.
Proof.
  intros Hi. unfold pixelSize, Math_max, Math_floor. split.
  - apply Q.le_max_l.
  - apply Q.max_lub; [discriminate|].
    apply Qle_trans
      with (y := Num.mul (Num.mul (Num.sub 1 (Math_abs (Num.sub (Num.mul t 2) 1))) 100)
                   intensity).
    + apply Qfloor_le.
    + apply mul_le_100; [|exact Hi].
      rewrite sub_correct. unfold Math_abs.
      apply Qle_trans with (y := (1 - 0)%Q); [|discriminate].
      unfold Qminus. apply Qplus_le_compat; [apply Qle_refl|].
      apply Qopp_le_compat, Qabs_nonneg.
Qed.

Lemma floor_div_le (n : Z) (x y : Q) :
  0 < y -> inject_Z n * y <= x ->
  inject_Z n <= Math_floor (Num.div x y).
Proof.
  intros Hy H. unfold Math_floor. rewrite <- Zle_Qle.
  assert (Hn : inject_Z n <= Num.div x y).
  { rewrite div_correct. apply Qle_shift_div_l; assumption. }
  apply Qfloor_resp_le in Hn. rewrite Qfloor_Z in Hn. exact Hn.
Qed.

(** The temporary canvas of the pixelate effect is at least 10 by 19. *)
Lemma pixelate_canvas_size (intensity t : Q) :
  0 <= intensity <= 1 ->
  10 <= Math_floor (Num.div CANVAS_WIDTH (pixelSize intensity t)) /\
  19 <= Math_floor (Num.div CANVAS_HEIGHT (pixelSize intensity t)).
Proof.
  intros Hi. destruct (pixelSize_range intensity t Hi) as [H1 H100].
  assert (Hpos : 0 < pixelSize intensity t)
    by (apply Qlt_le_trans with (y := 1); [reflexivity|exact H1]).
  split.
  - apply (floor_div_le 10); [exact Hpos|].
    apply Qle_trans with (y := 10 * 100); [|discriminate].
    apply Qmult_le_l; [reflexivity|exact H100].
  - apply (floor_div_le 19); [exact Hpos|].
    apply Qle_trans with (y := 19 * 100); [|discriminate].
    apply Qmult_le_l; [reflexivity|exact H100].
Qed.

Lemma pixelate_canvas_accepted (intensity t : Q) :
  0 <= intensity <= 1 ->
  accepted
    (temp_create
       (Math_floor (Num.div CANVAS_WIDTH (pixelSize intensity t)))
       (Math_floor (Num.div CANVAS_HEIGHT (pixelSize intensity t)))) = true.
Proof.
  intros Hi. destruct (pixelate_canvas_size intensity t Hi) as [Hw Hh].
  cbn [accepted]. apply andb_true_intro. split; apply leb_le.
  - apply Qle_trans with (y := 10); [discriminate|exact Hw].
  - apply Qle_trans with (y := 19); [discriminate|exact Hh].
Qed.

(** The colour stops of the gradient wipe are in [0,1] when [t] is. *)
Lemma gradient_wipe_stops (t : Q) (c1 c2 : Color) (x0 y0 x1 y1 : Q) :
  0 <= t <= 1 ->
  accepted
    (set_fillStyle
       (grad
          (addColorStop (Math_min 1 (Num.mul t 2)) c2
             (addColorStop (Math_max 0 (Num.sub (Num.mul t 2) 1)) c1
                (createLinearGradient x0 y0 x1 y1))))) = true.
Proof.
  intros [Ht0 Ht1].
  assert (H2 : 0 <= Num.mul t 2)
    by (apply mul_nonneg; [exact Ht0|discriminate]).
  assert (H21 : Num.sub (Num.mul t 2) 1 <= 1).
  { rewrite sub_correct, mul_correct.
    apply Qle_trans with (y := (1 * 2 - 1)%Q); [|discriminate].
    unfold Qminus. apply Qplus_le_compat; [|apply Qle_refl].
    apply Qmult_le_compat_r; [exact Ht1|discriminate]. }
  cbn [accepted style_accepted]. unfold gradient_accepted.
  cbn [shape stops addColorStop createLinearGradient app forallb fst andb].
  rewrite !andb_true_r.
  repeat (apply andb_true_intro; split); apply leb_le.
  - apply Q.le_max_l.
  - apply Q.max_lub; [discriminate|exact H21].
  - apply Q.min_glb; [discriminate|exact H2].
  - apply Q.le_min_l.
Qed.

Ltac nonneg :=
  match goal with
  | H : Num.ltb 0 ?x = true |- 0 <= ?x => apply Qlt_le_weak, ltb_lt, H
  | H : forall x, _ <= 1 |- _ <= 1 => apply H
  | |- 0 <= Num.mul _ _ => apply mul_nonneg; nonneg
  | |- 0 <= Num.add _ _ => apply add_nonneg; nonneg
  | |- 0 <= Num.div _ _ => apply div_nonneg; nonneg
  | |- 0 <= Num.sub _ _ => apply sub_nonneg; nonneg
  | |- 0 <= _ => first [assumption | discriminate | auto]
  end.

Ltac range_step :=
  match goal with
  | |- draws_in_range _ _ (bind _ _) =>
      eapply in_range_bind; [|intros ? ?]
  | |- draws_in_range _ _ (ret _) => apply in_range_ret; exact I
  | |- draws_in_range _ _ (ctx _) => apply in_range_ctx
  | |- draws_in_range _ _ Math_random => apply in_range_random
  | |- draws_in_range _ _ (for_ _ _ _ _) => apply in_range_for; intros ?
  | |- draws_in_range _ _ (when _ _) => apply in_range_when; intros ?
  | |- draws_in_range _ _ (drawImage ?img _) =>
      unfold drawImage, ctx_drawImage5; destruct img
  | |- draws_in_range _ _ (ctx_drawImage9 _ _ _ _ _ _ _ _ _) =>
      unfold ctx_drawImage9
  | |- draws_in_range _ _ (if ?c then _ else _) =>
      let E := fresh "E" in destruct c eqn:E
  | |- draws_in_range _ _ (match ?x with Some _ => _ | None => _ end) =>
      destruct x
  | |- accepted _ = true => reflexivity
  end.

Ltac accept :=
  cbn [accepted style_accepted];
  unfold gradient_accepted, addColorStop, createRadialGradient,
    createLinearGradient;
  cbn [shape stops app forallb fst snd];
  repeat (apply andb_true_intro; split);
  try reflexivity;
  apply leb_le; nonneg.

Section Raise.

Variable Math : MathLib.
Variable intensity : Q.
Variable beforeImg afterImg : option Image.
Variable t : Q.
Hypothesis Hsqrt : forall x, 0 <= sqrt Math x.
Hypothesis Hsin : forall x, sin Math x <= 1.
Hypothesis Ht0 : 0 <= t.
Hypothesis Ht1 : t <= 1.
Hypothesis Hi0 : 0 <= intensity.
Hypothesis Hi1 : intensity <= 1.

Lemma library_in_range :
  Forall (fun e => draws_in_range accepted (fun _ => True) (snd e t))
    (effectLibrary Math beforeImg afterImg intensity).
Proof.
  unfold effectLibrary.
  destruct beforeImg as [b|], afterImg as [a|];
    repeat (apply Forall_cons;
            [cbn [fst snd];
             match goal with
             | |- draws_in_range _ _ (?f _) => let h := head_of f in unfold h
             end;
             cbv beta iota zeta delta [absent orb];
             repeat range_step;
             first [ accept
                   | apply pixelate_canvas_accepted; split; assumption
                   | apply gradient_wipe_stops; split; assumption ]|]);
    apply Forall_nil.
Qed.

End Raise.

(** ** The drawing state *)

Lemma pens_ret {A} (s : list Pen * Pen) (a : A) : pens s s (ret a).
Proof. intros r. split; [discriminate|reflexivity]. Qed.

Lemma pens_ctx (s s' : list Pen * Pen) (op : CanvasOp) :
  pen_step s op = s' -> pens s s' (ctx op).
Proof. intros H r. split; [discriminate|exact H]. Qed.

Lemma pens_random (s : list Pen * Pen) : pens s s Math_random.
Proof. intros r. split; [discriminate|reflexivity]. Qed.

Lemma pens_bind {A B} (s s1 s' : list Pen * Pen) (m : Draw A)
    (f : A -> Draw B) :
  pens s s1 m -> (forall a, pens s1 s' (f a)) -> pens s s' (bind m f).
Proof.
  intros Hm Hf r. destruct (Hm r) as [Hres Hpen].
  rewrite calls_bind. unfold pen_after in *. rewrite fold_left_app, Hpen.
  unfold bind. destruct (result (m r)) as [a|]; [|congruence].
  simpl. apply Hf.
Qed.

Lemma pens_iterate (s : list Pen * Pen) (n : nat) (i step : Q)
    (body : Q -> Draw unit) :
  (forall j, pens s s (body j)) -> pens s s (iterate n i step body).
Proof.
  intros Hbody. revert i.
  induction n as [|n IH]; intros i; simpl.
  - apply pens_ret.
  - apply pens_bind with (s1 := s); auto.
Qed.

Lemma pens_for (s : list Pen * Pen) (init bound step : Q)
    (body : Q -> Draw unit) :
  (forall j, pens s s (body j)) -> pens s s (for_ init bound step body).
Proof. intros H. apply pens_iterate, H. Qed.

Lemma pens_when (s : list Pen * Pen) (b : bool) (m : Draw unit) :
  pens s s m -> pens s s (when b m).
Proof. intros H. destruct b; simpl; auto using pens_ret. Qed.

Ltac pens_step :=
  match goal with
  | |- pens _ _ (bind _ _) => eapply pens_bind; [|intros ?]
  | |- pens _ _ (ret _) => apply pens_ret
  | |- pens _ _ (ctx _) =>
      apply pens_ctx;
      cbv beta iota zeta delta
        [pen_step fst snd globalAlpha globalCompositeOperation filter
         imageSmoothingEnabled];
      reflexivity
  | |- pens _ _ Math_random => apply pens_random
  | |- pens _ _ (for_ _ _ _ _) => apply pens_for; intros ?
  | |- pens _ _ (when _ _) => apply pens_when
  | |- pens _ _ (drawImage ?img _) =>
      unfold drawImage, ctx_drawImage5; destruct img
  | |- pens _ _ (ctx_drawImage9 _ _ _ _ _ _ _ _ _) => unfold ctx_drawImage9
  | |- pens _ _ (if ?c then _ else _) => destruct c
  | |- pens _ _ (match ?x with Some _ => _ | None => _ end) => destruct x
  end.

Lemma library_pens (Math : MathLib) (intensity : Q)
    (beforeImg afterImg : option Image) :
  Forall (fun e => forall t, pens ([], default_pen) ([], default_pen) (snd e t))
    (effectLibrary Math beforeImg afterImg intensity).
Proof.
  unfold effectLibrary.
  destruct beforeImg as [b|], afterImg as [a|];
    repeat (apply Forall_cons;
            [intros t; cbn [fst snd];
             match goal with
             | |- pens _ _ (?f _) => let h := head_of f in unfold h
             end;
             cbv beta iota zeta delta [absent orb];
             repeat pens_step|]);
    apply Forall_nil.
Qed.

(** ** A run from the page *)


Section WholeRun.

Variable Math : MathLib.
Hypothesis HMath : Math_in_range Math.











End WholeRun.

(** ** The numbers read from the oracle *)

Lemma reads_ret {A} (a : A) : reads_numbers 0 (ret a).
Proof. intros r. split; [discriminate|reflexivity]. Qed.

Lemma reads_ctx (op : CanvasOp) : reads_numbers 0 (ctx op).
Proof. intros r. split; [discriminate|reflexivity]. Qed.

Lemma reads_random : reads_numbers 1 Math_random.
Proof. intros r. split; [discriminate|reflexivity]. Qed.

Lemma reads_bind {A B} (k1 k2 : nat) (m : Draw A) (f : A -> Draw B) :
  reads_numbers k1 m -> (forall a, reads_numbers k2 (f a)) ->
  reads_numbers (k1 + k2) (bind m f).
Proof.
  intros Hm Hf r. destruct (Hm r) as [Hres Hor]. unfold bind.
  destruct (result (m r)) as [a|]; [|congruence].
  destruct (Hf a (oracle (m r))) as [Hres' Hor']. simpl.
  split; [exact Hres'|].
  intros n. rewrite Hor', Hor. f_equal. lia.
Qed.

Lemma reads_iterate (k n : nat) (i step : Q) (body : Q -> Draw unit) :
  (forall j, reads_numbers k (body j)) ->
  reads_numbers (n * k) (iterate n i step body).
Proof.
  intros Hbody. revert i.
  induction n as [|n IH]; intros i; simpl.
  - apply reads_ret.
  - apply reads_bind; auto.
Qed.

Lemma reads_when (k : nat) (b : bool) (m : Draw unit) :
  reads_numbers k m -> reads_numbers (if b then k else 0) (when b m).
Proof. intros H. destruct b; simpl; [exact H|apply reads_ret]. Qed.

Lemma reads_ignoring {A} (m : Draw A) :
  never_throws m -> ignores_oracle m -> reads_numbers 0 m.
Proof.
  intros Hn Hi r. split; [apply Hn|].
  intros n. destruct (Hi r r) as (_ & _ & ->). reflexivity.
Qed.

Lemma reads_drawImage (img : option Image) (alpha : Q) :
  reads_numbers 0 (drawImage img alpha).
Proof.
  apply reads_ignoring.
  - unfold drawImage, ctx_drawImage5. destruct img; repeat draw_step.
  - unfold drawImage, ctx_drawImage5. destruct img; repeat draw_step.
Qed.

Ltac reads_step :=
  match goal with
  | |- reads_numbers _ (bind (ctx _) _) =>
      apply (reads_bind 0); [apply reads_ctx|intros ?]
  | |- reads_numbers _ (bind (drawImage _ _) _) =>
      apply (reads_bind 0); [apply reads_drawImage|intros ?]
  | |- reads_numbers _ (bind Math_random _) =>
      apply (reads_bind 1); [apply reads_random|intros ?]
  | |- reads_numbers _ (ctx _) => apply reads_ctx
  | |- reads_numbers _ (ret _) => apply reads_ret
  end.

Section Numbers.

Variable Math : MathLib.
Variable intensity : Q.
Variables beforeImg afterImg : Image.

Lemma film_burn_numbers (t : Q) :
  reads_numbers (if Num.ltb t 0.95 then 500 else 0)
    (applyFilmBurn Math (Some beforeImg) (Some afterImg) intensity t).
Proof.
  unfold applyFilmBurn. cbv beta iota zeta delta [absent orb].
  repeat reads_step.
  apply reads_when.
  change 500%nat with (0 + (0 + (100 * 5 + 0)))%nat.
  apply reads_bind; [apply reads_ctx|intros ?].
  apply reads_bind; [apply reads_ctx|intros ?].
  apply reads_bind; [|intros ?; apply reads_ctx].
  unfold for_.
  replace (Z.to_nat (Qceiling (Num.div (Num.sub 100 0) 1))) with 100%nat
    by (vm_compute; reflexivity).
  apply reads_iterate. intros j.
  change 5%nat with (1 + (1 + (1 + (1 + (1 + (0 + 0))))))%nat.
  repeat reads_step.
Qed.

Lemma loop_count_integer (z : Z) :
  Qceiling (Num.div (Num.sub (inject_Z z) 0) 1) = z.
Proof.
  assert (E : Num.div (Num.sub (inject_Z z) 0) 1 == inject_Z z).
  { rewrite div_correct, sub_correct. field. }
  rewrite E. apply Qceiling_Z.
Qed.

Lemma particle_burst_numbers (t : Q) :
  reads_numbers
    (if Num.ltb 0.1 (sin Math (Num.mul t (PI Math)))
     then Z.to_nat (Qfloor (Num.mul 200 intensity)) else 0)
    (applyParticleBurst Math (Some beforeImg) (Some afterImg) intensity t).
Proof.
  unfold applyParticleBurst. cbv beta iota zeta delta [absent orb].
  repeat reads_step.
  set (n := Z.to_nat (Qfloor (Num.mul 200 intensity))).
  apply reads_when.
  apply (reads_bind 0 n); [apply reads_ctx|intros ?].
  replace n with (n * 1 + 0)%nat by lia.
  apply reads_bind; [|intros ?; apply reads_ctx].
  unfold for_, Math_floor. rewrite loop_count_integer. fold n.
  apply reads_iterate. intros j.
  change 1%nat with (1 + 0)%nat.
  apply reads_bind; [apply reads_random|intros ?].
  repeat reads_step.
Qed.

Lemma library_numbers (t : Q) :
  Forall (fun e =>
            reads_numbers (random_numbers Math intensity (fst e) t)
              (snd e t))
    (effectLibrary Math (Some beforeImg) (Some afterImg) intensity).
Proof.
  pose proof (library_never_throws Math intensity (Some beforeImg)
                (Some afterImg)) as Hn.
  pose proof (library_ignores_oracle Math intensity (Some beforeImg)
                (Some afterImg)) as Hi.
  rewrite Forall_forall in *. intros e He.
  destruct (draws_randomly (fst e)) eqn:Er.
  - unfold draws_randomly in Er. apply orb_true_iff in Er.
    unfold effectLibrary in He.
    repeat (destruct He as [<-|He]; [try discriminate Er|]);
      try (destruct Er as [Er|Er]; discriminate Er).
    + apply film_burn_numbers.
    + apply particle_burst_numbers.
    + destruct He.
  - assert (E : random_numbers Math intensity (fst e) t = 0%nat).
    { unfold draws_randomly in Er. apply orb_false_iff in Er.
      destruct Er as [E1 E2]. unfold random_numbers. rewrite E1, E2.
      reflexivity. }
    rewrite E. apply reads_ignoring; [apply Hn, He|apply Hi; assumption].
Qed.

End Numbers.

(** ** The layers of the zoom blur and of the vortex *)

Lemma zoom_blur_alphas (Math : MathLib) (beforeImg afterImg : Image)
    (intensity t : Q) (r : Oracle) :
  drawn_alphas ([], default_pen)
    (calls (applyZoomBlur Math (Some beforeImg) (Some afterImg) intensity t r)) =
  repeat 1 11.
Proof.
  unfold applyZoomBlur. cbv beta iota zeta delta [absent orb].
  destruct (Num.ltb t 0.5); reflexivity.
Qed.

Lemma vortex_alphas (Math : MathLib) (beforeImg afterImg : Image)
    (intensity t : Q) (r : Oracle) :
  drawn_alphas ([], default_pen)
    (calls (applyVortex Math (Some beforeImg) (Some afterImg) intensity t r)) =
  repeat 1 30 ++ [if Num.leb 0 t && Num.leb t 1 then t else 1].
Proof.
  unfold applyVortex. cbv beta iota zeta delta [absent orb].
  reflexivity.
Qed.

(** ** The checkerboard *)

Lemma draws_only_iterate_at (p : CanvasOp -> bool) (n : nat) (i step : Q)
    (body : Q -> Draw unit) :
  (forall k, (k < n)%nat -> draws_only p (body (loop_index k i step))) ->
  draws_only p (iterate n i step body).
Proof.
  revert i. induction n as [|n IH]; intros i Hbody; simpl.
  - apply draws_only_ret.
  - apply draws_only_bind.
    + apply (Hbody 0%nat). lia.
    + intros _. apply IH. intros k Hk. apply (Hbody (S k)). lia.
Qed.

Ltac decide_guard :=
  match goal with
  | |- draws_only _ (when ?c _) =>
      let v := eval vm_compute in c in
      change c with v; cbv beta iota delta [when]
  end.

Ltac each_turn n k :=
  lazymatch n with
  | O => exfalso; lia
  | S ?m => destruct k as [|k]; [cbn [loop_index]|each_turn m k]
  end.

Ltac revealed_block :=
  match goal with
  | |- draws_only _ (ret _) => apply draws_only_ret
  | |- draws_only _ (if ?c then _ else _) =>
      destruct c; [|apply draws_only_ret]
  | |- draws_only _ (bind (ctx _) _) =>
      apply draws_only_bind;
      [apply draws_only_ctx; vm_compute; reflexivity|intros _]
  | |- draws_only _ (bind (drawImage _ _) _) =>
      apply draws_only_bind; [draw_analysis|intros _]
  | |- draws_only _ (ctx _) => apply draws_only_ctx; reflexivity
  end.

Lemma checkerboard_cells (beforeImg afterImg : Image) (t : Q) :
  draws_only clips_to_revealed_cell
    (applyCheckerboard (Some beforeImg) (Some afterImg) t).
Proof.
  unfold applyCheckerboard. cbv beta iota zeta delta [absent orb].
  apply draws_only_bind; [apply draws_only_ctx; reflexivity|intros _].
  apply draws_only_bind; [draw_analysis|intros _].
  unfold for_.
  replace (Z.to_nat (Qceiling (Num.div (Num.sub 10 0) 1))) with 10%nat
    by (vm_compute; reflexivity).
  apply draws_only_iterate_at. intros i Hi.
  apply draws_only_iterate_at. intros j Hj.
  each_turn 10%nat i; each_turn 10%nat j; decide_guard;
    repeat revealed_block.
Qed.

(** ** The properties *)

(** X1. From the first render on, whatever happens, at most one animation
    frame callback is pending, and its handle is the one held in
    [animationFrameRef]: a play request cancels the callback of the run
    it replaces, and a tick requests its successor after its own callback
    has left the list. *)
Theorem one_callback_at_most :
  forall (Math : MathLib) (defaultDuration defaultIntensity : Q)
         (rng : Oracle) (es : list Event),
    let s := run Math es (mount defaultDuration defaultIntensity rng) in
    (List.length (callbacks s) <= 1)%nat /\
    forall handle callback,
      In (handle, callback) (callbacks s) ->
      animationFrameRef s = Some handle.
Proof.
  intros Math d i rng es s.
  pose proof (run_well_formed Math es _ (mount_well_formed d i rng)) as Hwf.
  fold s in Hwf.
  destruct (proj1 Hwf) as (_ & _ & _ & [Hnil|(h & cb & Hone & Href)]).
  - rewrite Hnil. split; [simpl; lia|]. intros handle callback [].
  - rewrite Hone. split; [simpl; lia|].
    intros handle callback [E|[]]. injection E as <- _. exact Href.
Qed.

Lemma run_keeps_playing (Math : MathLib) (es : list Event) (s : Component) :
  well_formed s ->
  (isPlaying s = true <-> callbacks s <> []) ->
  (isPlaying (run Math es s) = true <-> callbacks (run Math es s) <> []).
Proof.
  revert s. induction es as [|e es IH]; intros s Hwf Hinv; simpl.
  - exact Hinv.
  - apply IH.
    + apply step_well_formed, Hwf.
    + apply step_keeps_playing; assumption.
Qed.

(** X2. In a visit of the page in which no call on the canvas raises (the
    sliders and the default settings are in range and the clock does not
    go back), [isPlaying], which shows the progress bar and turns the
    button into a stop button, is true exactly while an animation frame
    callback is pending. *)
Theorem playing_while_callback_pending :
  forall (Math : MathLib) (defaultDuration defaultIntensity : Q)
         (rng : Oracle) (es : list Event) (start : Z),
    Math_in_range Math -> oracle_in_range rng ->
    0 < defaultDuration -> 0 <= defaultIntensity <= 1 ->
    sliders_in_range es -> clock_monotone start es ->
    let s := run Math es (mount defaultDuration defaultIntensity rng) in
    isPlaying s = true <-> callbacks s <> [].
Proof.
  intros Math d i rng es start _ _ _ _ _ _ s. subst s.
  apply run_keeps_playing; [apply mount_well_formed|].
  simpl. split; [discriminate|]. intros Hne. destruct Hne. reflexivity.
Qed.

Lemma sample_Math_is_in_range : Math_in_range sample_Math_in_range.
Proof. split; intros x; discriminate. Qed.

Lemma sample_oracle_is_in_range : oracle_in_range sample_oracle.
Proof. intros n. unfold sample_oracle, Qle. simpl. lia. Qed.

Lemma sample_visit_in_range : sliders_in_range sample_visit.
Proof.
  unfold sample_visit, sliders_in_range.
  repeat (apply Forall_cons; [first [exact I|split; discriminate]|]).
  apply Forall_nil.
Qed.

Lemma sample_visit_clock : clock_monotone 0 sample_visit.
Proof. simpl. lia. Qed.

Lemma playing_while_callback_pending_witness :
  isPlaying (run sample_Math_in_range sample_visit
               (mount 3 0.8 sample_oracle)) = true <->
  callbacks (run sample_Math_in_range sample_visit
               (mount 3 0.8 sample_oracle)) <> [].
Proof.
  apply (playing_while_callback_pending sample_Math_in_range 3 0.8
           sample_oracle sample_visit 0%Z).
  - exact sample_Math_is_in_range.
  - exact sample_oracle_is_in_range.
  - reflexivity.
  - split; discriminate.
  - exact sample_visit_in_range.
  - exact sample_visit_clock.
Defined.

(** X3. The notice that asks for both bitmaps is never shown to a visitor
    of the page: the play button is disabled while a bitmap is missing, so
    [playAnimation] is only reached with both bitmaps present.  The only
    notice of the page is the one of a failed upload. *)
Theorem page_never_asks_for_bitmaps :
  forall (Math : MathLib) (defaultDuration defaultIntensity : Q)
         (rng : Oracle) (es : list Event),
    from_page es = true ->
    ~ In "Please upload both BEFORE and AFTER images"%string
        (alerts (run Math es (mount defaultDuration defaultIntensity rng))).
Proof.
  intros Math d i rng es.
  assert (H : forall s,
             well_formed s -> from_page es = true ->
             ~ In "Please upload both BEFORE and AFTER images"%string
                 (alerts s) ->
             ~ In "Please upload both BEFORE and AFTER images"%string
                 (alerts (run Math es s))).
  { induction es as [|e es IH]; intros s Hwf Hes Hout; simpl.
    - exact Hout.
    - simpl in Hes. apply andb_true_iff in Hes. destruct Hes as [He Hes].
      apply IH; [apply step_well_formed, Hwf|exact Hes|].
      apply step_keeps_alerts; try assumption.
      + simpl. rewrite He. reflexivity.
      + discriminate. }
  intros Hes. apply H; [apply mount_well_formed|exact Hes|].
  simpl. intros [].
Qed.

Lemma page_never_asks_for_bitmaps_witness :
  ~ In "Please upload both BEFORE and AFTER images"%string
      (alerts
         (run sample_Math
            [PlayStopButton 0 0; ImageInput (Some None) "before";
             PlayStopButton 5 5; AnimationFrame 16]
            (mount 3 0.8 sample_oracle))) /\
  alerts
    (run sample_Math
       [PlayStopButton 0 0; ImageInput (Some None) "before";
        PlayStopButton 5 5; AnimationFrame 16]
       (mount 3 0.8 sample_oracle)) =
  ["Failed to load image. Please try again."%string].
Proof.
  split.
  - apply (page_never_asks_for_bitmaps sample_Math 3 0.8 sample_oracle).
    reflexivity.
  - vm_compute. reflexivity.
Defined.

(** X4. An animation only runs with both bitmaps loaded: from the first
    render on, whenever an animation frame callback is pending, both refs
    hold a bitmap, so the guard of the effect functions does not fire and
    the frame of the next tick starts by clearing the canvas. *)
Theorem ticks_draw_both_bitmaps :
  forall (Math : MathLib) (defaultDuration defaultIntensity : Q)
         (rng : Oracle) (es : list Event) (now : Z),
    let s := run Math es (mount defaultDuration defaultIntensity rng) in
    callbacks s <> [] ->
    exists (beforeImg afterImg : Image) (rest : Frame),
      beforeImageRef s = Some beforeImg /\
      afterImageRef s = Some afterImg /\
      drawn_by Math (AnimationFrame now) s =
      clearRect 0 0 CANVAS_WIDTH CANVAS_HEIGHT :: rest.
Proof.
  intros Math d i rng es now s Hpending.
  pose proof (run_well_formed Math es _ (mount_well_formed d i rng)) as Hwf.
  assert (Hboth : absent (beforeImage s) || absent (afterImage s) = false).
  { apply run_with_bitmaps; [apply mount_well_formed| |exact Hpending].
    intros H. destruct H. reflexivity. }
  fold s in Hwf.
  destruct (proj1 Hwf) as (_ & Hb & Ha & [Hnil|(h & cb & Hone & _)]);
    [destruct (Hpending Hnil)|].
  apply orb_false_iff in Hboth. rewrite <- Hb, <- Ha in Hboth.
  destruct Hboth as [Hbefore Hafter].
  destruct (beforeImageRef s) as [beforeImg|] eqn:Eb; [|discriminate].
  destruct (afterImageRef s) as [afterImg|] eqn:Ea; [|discriminate].
  destruct (tick_spec Math s h cb now Hwf Hone) as (_ & Hs & _).
  cbv zeta in Hs.
  set (c := callback_animate cb) in *.
  set (t := derived_progress (closed_duration c) (callback_startTime cb) now)
    in *.
  pose proof (dispatch_in_library Math (Some beforeImg) (Some afterImg)
                (closed_intensity c) (closed_selectedEffect c)) as Hin.
  apply in_map_iff in Hin. destruct Hin as (entry & Hentry & Hlib).
  pose proof (library_clears_first Math (closed_intensity c)
                beforeImg afterImg) as Hclears.
  rewrite Forall_forall in Hclears.
  destruct (Hclears entry Hlib t (random s)) as (rest & Hrest).
  exists beforeImg, afterImg, rest.
  split; [reflexivity|]. split; [reflexivity|].
  unfold drawn_by. rewrite Hs, skipn_length_app.
  unfold rendered_frame. fold c t. rewrite Eb, Ea, <- Hentry. exact Hrest.
Qed.

Lemma ticks_draw_both_bitmaps_witness :
  exists (beforeImg afterImg : Image) (rest : Frame),
    beforeImageRef
      (run sample_Math
         [ImageInput (Some (Some sample_before)) "before";
          ImageInput (Some (Some sample_after)) "after"; Play 0 0]
         (mount 3 0.8 sample_oracle)) = Some beforeImg /\
    afterImageRef
      (run sample_Math
         [ImageInput (Some (Some sample_before)) "before";
          ImageInput (Some (Some sample_after)) "after"; Play 0 0]
         (mount 3 0.8 sample_oracle)) = Some afterImg /\
    drawn_by sample_Math (AnimationFrame 500)
      (run sample_Math
         [ImageInput (Some (Some sample_before)) "before";
          ImageInput (Some (Some sample_after)) "after"; Play 0 0]
         (mount 3 0.8 sample_oracle)) =
    clearRect 0 0 CANVAS_WIDTH CANVAS_HEIGHT :: rest.
Proof.
  refine (ticks_draw_both_bitmaps sample_Math 3 0.8 sample_oracle
            [ImageInput (Some (Some sample_before)) "before";
             ImageInput (Some (Some sample_after)) "after"; Play 0 0]
            500%Z _).
  vm_compute. intros H. discriminate H.
Defined.

(** X5. When the default duration is positive, the default intensity is
    in [0,1] and the sliders give values of their ranges, the duration that
    [animate] divides by is positive and the intensity of the effect
    functions is in [0,1], in the state, in the stored [animate] and in
    every pending callback, whatever happens. *)
Theorem settings_stay_in_range :
  forall (Math : MathLib) (defaultDuration defaultIntensity : Q)
         (rng : Oracle) (es : list Event),
    0 < defaultDuration -> 0 <= defaultIntensity <= 1 ->
    sliders_in_range es ->
    settings_in_range
      (run Math es (mount defaultDuration defaultIntensity rng)).
Proof.
  intros Math d i rng es Hd Hi.
  assert (H : forall s,
             well_formed s -> settings_in_range s -> sliders_in_range es ->
             settings_in_range (run Math es s)).
  { induction es as [|e es IH]; intros s Hwf Hin Hes; simpl.
    - exact Hin.
    - apply IH.
      + apply step_well_formed, Hwf.
      + apply step_in_range; try assumption.
        constructor; [exact (Forall_inv Hes)|constructor].
      + exact (Forall_inv_tail Hes). }
  intros Hes. apply H; [apply mount_well_formed| |exact Hes].
  split; [exact Hd|split; [exact Hi|split; [split; assumption|constructor]]].
Qed.

Lemma settings_stay_in_range_witness :
  settings_in_range
    (run sample_Math sample_visit (mount 3 0.8 sample_oracle)).
Proof.
  apply (settings_stay_in_range sample_Math 3 0.8 sample_oracle).
  - reflexivity.
  - split; discriminate.
  - exact sample_visit_in_range.
Defined.

(** X6. The cleanup of the effect hook cancels the pending callback: after
    it, in every state that the component can be in, no callback is
    pending and the animation frames of the browser change nothing. *)
Theorem cleanup_cancels_animation :
  forall (Math : MathLib) (defaultDuration defaultIntensity : Q)
         (rng : Oracle) (es : list Event) (nows : list Z),
    let s :=
      cleanup (run Math es (mount defaultDuration defaultIntensity rng)) in
    callbacks s = [] /\ run Math (map AnimationFrame nows) s = s.
Proof.
  intros Math d i rng es nows.
  pose proof (run_well_formed Math es _ (mount_well_formed d i rng)) as Hwf.
  set (s0 := run Math es (mount d i rng)) in *.
  cbv zeta.
  assert (Hnil : callbacks (cleanup s0) = []).
  { exact (cancel_pending s0 (proj2 (proj2 (proj2 (proj1 Hwf))))). }
  assert (Hwf' : well_formed (cleanup s0)).
  { destruct Hwf as [(Hc & Hb & Ha & Hp) Hcl].
    split; [split; [|split; [|split]]|].
    - unfold cleanup. destruct (animationFrameRef s0); exact Hc.
    - unfold cleanup. destruct (animationFrameRef s0); exact Hb.
    - unfold cleanup. destruct (animationFrameRef s0); exact Ha.
    - left. exact Hnil.
    - unfold cleanup. destruct (animationFrameRef s0); exact Hcl. }
  split; [exact Hnil|].
  induction nows as [|now nows IH]; simpl.
  - reflexivity.
  - rewrite (step_frame_idle Math now _ Hwf' Hnil). exact IH.
Qed.

(** X7. A bitmap uploaded while an animation runs is drawn by the next
    tick: the effect functions read the bitmaps through the refs at each
    frame.  The tick draws the frame of the library's entry for the effect
    of the run, with the new bitmap in the place given by the input (the
    before bitmap for ["before"], the after bitmap otherwise). *)
Theorem upload_reaches_running_animation :
  forall (Math : MathLib) (s : Component) (handle : positive)
         (callback : FrameRequestCallback) (img : Image) (type : string)
         (now : Z) (effectFn : Q -> Draw unit),
    well_formed s ->
    callbacks s = [(handle, callback)] ->
    let c := callback_animate callback in
    let beforeImg :=
      if (type =? "before")%string then Some img else beforeImageRef s in
    let afterImg :=
      if (type =? "before")%string then afterImageRef s else Some img in
    In (closed_selectedEffect c, effectFn)
      (effectLibrary Math beforeImg afterImg (closed_intensity c)) ->
    0 < closed_duration c ->
    (callback_startTime callback <= now)%Z ->
    let t := derived_progress (closed_duration c)
               (callback_startTime callback) now in
    let s1 := step Math (ImageInput (Some (Some img)) type) s in
    callbacks s1 = [(handle, callback)] /\
    drawn_by Math (AnimationFrame now) s1 = calls (effectFn t (random s)).
Proof.
  intros Math s handle callback img type now effectFn Hwf Hone c
         beforeImg afterImg Hin Hd Hnow t s1.
  assert (Hwf1 : well_formed s1) by apply step_well_formed, Hwf.
  assert (E1 : s1 = handleImageUpload (Some (Some img)) type s)
    by apply step_image, Hwf.
  assert (Hone1 : callbacks s1 = [(handle, callback)]).
  { rewrite E1. simpl. destruct (String.eqb type "before"); exact Hone. }
  split; [exact Hone1|].
  destruct (tick_spec Math s1 handle callback now Hwf1 Hone1)
    as (_ & Hs & _).
  cbv zeta in Hs. unfold drawn_by. rewrite Hs, skipn_length_app.
  unfold rendered_frame. fold c t.
  rewrite (library_lookup Math _ _ _ _ _ Hin).
  rewrite E1. subst beforeImg afterImg. simpl.
  destruct (String.eqb type "before"); reflexivity.
Qed.

Lemma upload_reaches_running_animation_witness :
  let s1 :=
    step sample_Math (ImageInput (Some (Some sample_after)) "before")
      sample_running in
  callbacks s1 = [(1%positive, mkCallback (mkClosure 2 "fadeCross" 0.8) 0)] /\
  drawn_by sample_Math (AnimationFrame 1000) s1 =
    [ clearRect 0 0 1080 1920;
      save; set_globalAlpha (1 # 2);
      drawImage5 (bitmap sample_after) 0 0 1080 1920; restore;
      save; set_globalAlpha (1 # 2);
      drawImage5 (bitmap sample_after) 0 0 1080 1920; restore ].
Proof.
  assert (Hwf : well_formed sample_running) by well_formed_by_computation.
  assert (Hcb : callbacks sample_running =
                [(1%positive, mkCallback (mkClosure 2 "fadeCross" 0.8) 0)])
    by (vm_compute; reflexivity).
  assert (Hin : In ("fadeCross"%string,
                    applyFadeCross (Some sample_after)
                      (afterImageRef sample_running))
                  (effectLibrary sample_Math (Some sample_after)
                     (afterImageRef sample_running) 0.8))
    by in_library.
  destruct (upload_reaches_running_animation sample_Math sample_running
              1%positive _ sample_after "before" 1000%Z _ Hwf Hcb Hin
              eq_refl)
    as (Hk & Hdrawn).
  { vm_compute. discriminate. }
  cbv zeta. split; [exact Hk|].
  rewrite Hdrawn. vm_compute. reflexivity.
Defined.

(** X8. A play request uses the settings of the moment: after the effect,
    the duration and the intensity have been chosen, also while an
    animation runs, the play request draws the frame of the library's entry
    for the chosen effect at the progress derived with the chosen
    duration, and the one callback it may leave closes over the three
    choices. *)
Theorem play_uses_current_settings :
  forall (Math : MathLib) (s : Component) (id : string) (d i : Q)
         (now1 now2 : Z) (effectFn : Q -> Draw unit),
    well_formed s ->
    absent (beforeImage s) = false -> absent (afterImage s) = false ->
    0 < d -> (now1 <= now2)%Z ->
    In (id, effectFn)
      (effectLibrary Math (beforeImageRef s) (afterImageRef s) i) ->
    let s1 :=
      run Math [EffectButton id; DurationSlider d; IntensitySlider i] s in
    let t := derived_progress d now1 now2 in
    let s2 := step Math (Play now1 now2) s1 in
    progress s2 = t /\
    drawn_by Math (Play now1 now2) s1 = calls (effectFn t (random s)) /\
    forall entry,
      In entry (callbacks s2) -> snd entry = mkCallback (mkClosure d id i) now1.
Proof.
  intros Math s id d i now1 now2 effectFn Hwf Hb Ha Hd Hnow Hin s1 t s2.
  assert (Hwf1 : well_formed s1) by apply run_well_formed, Hwf.
  assert (Hset : duration s1 = d /\ selectedEffect s1 = id /\
                 intensity s1 = i /\ beforeImage s1 = beforeImage s /\
                 afterImage s1 = afterImage s /\
                 beforeImageRef s1 = beforeImageRef s /\
                 afterImageRef s1 = afterImageRef s /\
                 random s1 = random s).
  { subst s1. simpl. unfold step. rewrite !render_stores.
    repeat split. }
  destruct Hset as (Ed & Ee & Ei & Eb & Ea & Ebr & Ear & Er).
  rewrite <- Eb in Hb. rewrite <- Ea in Ha.
  destruct (play_frame Math now1 now2 s1 Hwf1 Hb Ha) as (Hp & Hf).
  destruct (play_spec Math now1 now2 s1 Hwf1 Hb Ha) as (Hk & _).
  cbv zeta in Hk. rewrite (proj2 Hwf1) in Hk.
  unfold rendered_frame in Hf. simpl in Hf.
  rewrite Ed in Hp, Hf, Hk. rewrite Ee, Ei in Hf, Hk.
  rewrite Ebr, Ear, Er in Hf.
  rewrite <- (library_lookup Math _ _ _ _ _ Hin) in Hf.
  fold t s2 in Hp, Hf, Hk.
  split; [exact Hp|]. split; [exact Hf|].
  intros entry Hentry. rewrite Hk in Hentry.
  destruct (Num.ltb t 1); [|destruct Hentry].
  destruct Hentry as [<-|[]]. reflexivity.
Qed.

Lemma play_uses_current_settings_witness :
  let s1 :=
    run sample_Math
      [EffectButton "fadeCross"; DurationSlider 4; IntensitySlider 0.5]
      sample_changed in
  selectedEffect sample_changed = "zoomIn"%string /\
  progress (step sample_Math (Play 1000 2000) s1) = 1 # 4 /\
  drawn_by sample_Math (Play 1000 2000) s1 =
    [ clearRect 0 0 1080 1920;
      save; set_globalAlpha (3 # 4);
      drawImage5 (bitmap sample_before) 0 0 1080 1920; restore;
      save; set_globalAlpha (1 # 4);
      drawImage5 (bitmap sample_after) 0 0 1080 1920; restore ] /\
  callbacks (step sample_Math (Play 1000 2000) s1) =
    [(2%positive, mkCallback (mkClosure 4 "fadeCross" 0.5) 1000)].
Proof.
  assert (Hwf : well_formed sample_changed) by well_formed_by_computation.
  assert (Hin : In ("fadeCross"%string,
                    applyFadeCross (beforeImageRef sample_changed)
                      (afterImageRef sample_changed))
                  (effectLibrary sample_Math (beforeImageRef sample_changed)
                     (afterImageRef sample_changed) 0.5))
    by in_library.
  assert (Hnow : (1000 <= 2000)%Z) by lia.
  destruct (play_uses_current_settings sample_Math sample_changed "fadeCross"
              4 0.5 1000%Z 2000%Z _ Hwf eq_refl eq_refl eq_refl Hnow Hin)
    as (Hp & Hdrawn & _).
  cbv zeta. split; [vm_compute; reflexivity|].
  split; [rewrite Hp; vm_compute; reflexivity|].
  split; [rewrite Hdrawn; vm_compute; reflexivity|].
  vm_compute. reflexivity.
Defined.

(** X9. With a progress in [0,1], an intensity in [0,1], a [Math] whose
    square root is not negative and whose sine is at most 1, and random
    numbers that are not negative, no effect function raises: it does not
    hand a missing bitmap to the context, no [arc] or radial gradient has
    a negative radius, every colour stop is in [0,1] and the temporary
    canvas of the pixelate effect is not empty.  Its frame leaves
    [globalAlpha], [globalCompositeOperation], [filter] and
    [imageSmoothingEnabled] at the values of a new context, and the
    transform and the clipping region as it found them. *)
Theorem effect_frame_in_order :
  forall (Math : MathLib) (beforeImg afterImg : option Image)
         (intensity : Q) (id : string) (effectFn : Q -> Draw unit)
         (t : Q) (r : Oracle),
    In (id, effectFn) (effectLibrary Math beforeImg afterImg intensity) ->
    Math_in_range Math -> oracle_in_range r ->
    0 <= t <= 1 -> 0 <= intensity <= 1 ->
    result (effectFn t r) = Some tt /\
    in_order (calls (effectFn t r)) /\
    oracle_in_range (oracle (effectFn t r)).
Proof.
  intros Math beforeImg afterImg intensity id effectFn t r Hin
         [Hsqrt Hsin] Hr [Ht0 Ht1] [Hi0 Hi1].
  pose proof (library_in_range Math intensity beforeImg afterImg t
                Hsqrt Hsin Ht0 Ht1 Hi0 Hi1) as Hrange.
  pose proof (library_pens Math intensity beforeImg afterImg) as Hpens.
  pose proof (library_nests Math intensity beforeImg afterImg) as Hnests.
  rewrite Forall_forall in Hrange, Hpens, Hnests.
  destruct (Hrange _ Hin r Hr) as (Hacc & Hor & [] & Hres & _).
  destruct (Hpens _ Hin t r) as [_ Hpen].
  destruct (Hnests _ Hin t r) as [_ Hnest].
  simpl in *.
  split; [exact Hres|]. split; [|exact Hor].
  split; [exact Hacc|]. split; assumption.
Qed.

Lemma effect_frame_in_order_witness :
  result
    (applySpotlight sample_Math_in_range (Some sample_before)
       (Some sample_after) 1 (1 # 2) sample_oracle) = Some tt /\
  in_order
    (calls
       (applySpotlight sample_Math_in_range (Some sample_before)
          (Some sample_after) 1 (1 # 2) sample_oracle)) /\
  existsb
    (fun op =>
       match op with
       | arc x y radius _ _ => Num.same radius (2203 # 4)
       | _ => false
       end)
    (calls
       (applySpotlight sample_Math_in_range (Some sample_before)
          (Some sample_after) 1 (1 # 2) sample_oracle)) = true.
Proof.
  assert (Hin : In ("spotlight"%string,
                    applySpotlight sample_Math_in_range (Some sample_before)
                      (Some sample_after) 1)
                  (effectLibrary sample_Math_in_range (Some sample_before)
                     (Some sample_after) 1))
    by in_library.
  destruct (effect_frame_in_order sample_Math_in_range (Some sample_before)
              (Some sample_after) 1 "spotlight" _ (1 # 2) sample_oracle Hin
              sample_Math_is_in_range sample_oracle_is_in_range)
    as (Hres & Horder & _).
  - split; discriminate.
  - split; discriminate.
  - split; [exact Hres|]. split; [exact Horder|].
    vm_compute. reflexivity.
Defined.



(** X11. With an intensity in [0,1], the temporary canvas on which the
    pixelate effect reduces the surface is between 10 by 19 and 1080 by
    1920: [pixelSize] is between 1 and 100 at every progress. *)
Theorem pixelate_canvas_bounds :
  forall (beforeImg afterImg : Image) (intensity t : Q) (r : Oracle)
         (w h : Q),
    0 <= intensity <= 1 ->
    In (temp_create w h)
      (calls (applyPixelate (Some beforeImg) (Some afterImg) intensity t r)) ->
    10 <= w <= 1080 /\ 19 <= h <= 1920.
Proof.
  intros beforeImg afterImg intensity t r w h Hi Hin.
  destruct (pixelSize_range intensity t Hi) as [H1 H100].
  destruct (pixelate_canvas_size intensity t Hi) as [Hw Hh].
  assert (Hpos : 0 < pixelSize intensity t)
    by (apply Qlt_le_trans with (y := 1); [reflexivity|exact H1]).
  assert (Hup : forall x,
             0 <= x ->
             Math_floor (Num.div x (pixelSize intensity t)) <= x).
  { intros x Hx. unfold Math_floor.
    apply Qle_trans with (y := Num.div x (pixelSize intensity t));
      [apply Qfloor_le|].
    rewrite div_correct. apply Qle_shift_div_r; [exact Hpos|].
    apply Qle_trans with (y := (1 * x)%Q);
      [rewrite Qmult_1_l; apply Qle_refl|].
    rewrite (Qmult_comm x). apply Qmult_le_compat_r; assumption. }
  destruct (Num.ltb 1 (pixelSize intensity t)) eqn:Esize.
  - rewrite (pixelate_frame beforeImg afterImg intensity t r Esize) in Hin.
    cbv zeta in Hin. destruct Hin as [Hin|Hin]; [discriminate Hin|].
    apply in_app_or in Hin. destruct Hin as [Hin|Hin].
    + destruct Hin as [Hin|[Hin|[Hin|[Hin|[]]]]]; discriminate Hin.
    + destruct Hin as [Hin|[Hin|Hin]]; [discriminate Hin| |].
      * injection Hin as <- <-.
        split; (split; [assumption|apply Hup; discriminate]).
      * destruct Hin as [Hin|[Hin|[Hin|[]]]]; discriminate Hin.
  - exfalso. revert Hin. unfold applyPixelate.
    cbv beta iota zeta delta [absent orb].
    fold (pixelSize intensity t). rewrite Esize.
    destruct (Num.ltb t 0.5); simpl;
      intros Hin; repeat (destruct Hin as [Hin|Hin]; [discriminate Hin|]);
      exact Hin.
Qed.

Lemma pixelate_canvas_bounds_witness :
  In (temp_create 10 19)
    (calls
       (applyPixelate (Some sample_before) (Some sample_after) 1 (1 # 2)
          sample_oracle)) /\
  10 <= 10 <= 1080 /\ 19 <= 19 <= 1920.
Proof.
  assert (Hin : In (temp_create 10 19)
                  (calls
                     (applyPixelate (Some sample_before) (Some sample_after)
                        1 (1 # 2) sample_oracle)))
    by (vm_compute; tauto).
  split; [exact Hin|].
  apply (pixelate_canvas_bounds sample_before sample_after 1 (1 # 2)
           sample_oracle 10 19); [split; discriminate|exact Hin].
Defined.

(** X12. The numbers that a frame reads from [Math.random]: with both
    bitmaps present, the film burn reads 500 numbers while its progress is
    below 0.95 and none from then on, the particle burst reads one number
    for each of its [Math.floor(200 * intensity)] particles while the
    burst phase is above 0.1 and none otherwise, and the other 48 effects
    read none. *)
Theorem frames_read_random_numbers :
  forall (Math : MathLib) (beforeImg afterImg : Image) (intensity : Q)
         (id : string) (effectFn : Q -> Draw unit) (t : Q) (r : Oracle)
         (n : nat),
    In (id, effectFn)
      (effectLibrary Math (Some beforeImg) (Some afterImg) intensity) ->
    oracle (effectFn t r) n = r (random_numbers Math intensity id t + n)%nat.
Proof.
  intros Math beforeImg afterImg intensity id effectFn t r n Hin.
  pose proof (library_numbers Math intensity beforeImg afterImg t) as H.
  rewrite Forall_forall in H.
  exact (proj2 (H _ Hin r) n).
Qed.

Lemma frames_read_random_numbers_witness :
  oracle
    (applyFilmBurn sample_Math (Some sample_before) (Some sample_after) 0.8
       (1 # 2) sample_oracle) 0%nat = 1 # 502 /\
  oracle
    (applyParticleBurst sample_Math (Some sample_before) (Some sample_after)
       0.8 (1 # 2) sample_oracle) 0%nat = 1 # 162.
Proof.
  split.
  - rewrite (frames_read_random_numbers sample_Math sample_before
               sample_after 0.8 "filmBurn" _ (1 # 2) sample_oracle 0%nat)
      by in_library.
    vm_compute. reflexivity.
  - rewrite (frames_read_random_numbers sample_Math sample_before
               sample_after 0.8 "particleBurst" _ (1 # 2) sample_oracle 0%nat)
      by in_library.
    vm_compute. reflexivity.
Defined.

(** X13. The alpha that the zoom blur and the vortex assign to each of
    their layers is never in force when a bitmap is drawn: [drawImage]
    assigns its own alpha, 1, before it draws.  On a new context the ten
    layers and the last image of the zoom blur, and the thirty layers of
    the vortex, are drawn at alpha 1; the after bitmap of the vortex is
    drawn at alpha [t] when [t] is in [0,1]. *)
Theorem layers_drawn_opaque :
  forall (Math : MathLib) (beforeImg afterImg : Image) (intensity t : Q)
         (r : Oracle),
    drawn_alphas ([], default_pen)
      (calls
         (applyZoomBlur Math (Some beforeImg) (Some afterImg) intensity t r)) =
    repeat 1 11 /\
    drawn_alphas ([], default_pen)
      (calls
         (applyVortex Math (Some beforeImg) (Some afterImg) intensity t r)) =
    repeat 1 30 ++ [if Num.leb 0 t && Num.leb t 1 then t else 1].
Proof.
  intros Math beforeImg afterImg intensity t r. split.
  - apply zoom_blur_alphas.
  - apply vortex_alphas.
Qed.

(** X14. The checkerboard effect reveals the after bitmap in the cells of
    its ten by ten grid whose column and row have an even sum, and in no
    other: at every progress, every rectangle that it clips to is one of
    these 50 cells.  At progress 1, the last frame of a run, it clips to
    50 rectangles, so the other 50 cells still show the before bitmap. *)
Theorem checkerboard_reveals_even_cells :
  forall (beforeImg afterImg : Image) (t : Q) (r : Oracle),
    forallb clips_to_revealed_cell
      (calls (applyCheckerboard (Some beforeImg) (Some afterImg) t r)) =
    true /\
    List.length
      (List.filter
         (fun op => match op with rect _ _ _ _ => true | _ => false end)
         (calls (applyCheckerboard (Some beforeImg) (Some afterImg) 1 r))) =
    50%nat.
Proof.
  intros beforeImg afterImg t r. split.
  - apply checkerboard_cells.
  - vm_compute. reflexivity.
Qed.
